(** * meshGradient: the geometry and colour pipeline of [lib/mesh-gradient.ts]

    A shallow embedding of the TypeScript module, and properties of the
    code: what its specification states about it, where that holds, where
    it holds in another form and where the code breaks it.

    Numbers.  A TypeScript [number] is a binary64 value.  Part I reads the
    arithmetic of the source ([+], [-], [*], [/], comparisons, [Math.max],
    [Math.min], [Math.floor], [Math.ceil], [Math.round]) as the exact
    arithmetic of the rationals [Q], which is what the properties that do
    not depend on the rounding are proved on.  The module [B64] at the end
    of the embedding reads again, with every operation rounded to binary64,
    the functions whose properties depend on the rounding; a lemma of
    Part II checks its operations against the primitive binary64 values of
    the kernel.  [NaN] and the infinities are outside the model.
    [Math.sqrt], [Math.cos] and [Math.sin], which the language leaves to
    the implementation to approximate, are the fields of an interface
    [MathImpl]; [Math.random] is an explicit sequence of draws.

    Part I holds the definitions, in the order of the source file; Part II
    the properties. *)

From Stdlib Require Import List ZArith QArith Qround Qminmax Qabs Qpower.
From Stdlib Require Import Lia Lqa Qfield Bool String Ascii DecimalString Permutation Sorted.
From Stdlib Require HexadecimalString DecimalN DecimalPos.
From Stdlib Require PrimFloat FloatOps SpecFloat Uint63.
Import ListNotations.
Open Scope Q_scope.

(** * Part I: the embedding *)

(** ** JavaScript numbers and strings *)

Module JS.

Definition Math_max (a b : Q) : Q := Qmax a b.
Definition Math_min (a b : Q) : Q := Qmin a b.
Definition Math_floor (v : Q) : Q := inject_Z (Qfloor v).
Definition Math_ceil (v : Q) : Q := inject_Z (Qceiling v).

(** [Math.round]: the nearest integer, a tie going up. *)
Definition Math_round (v : Q) : Q := inject_Z (Qfloor (v + (1 # 2))).

Definition Math_abs (v : Q) : Q := Qabs v.

(** [a < b], [a <= b], [a >= b] and [a > b] on numbers. *)
Definition ltb (a b : Q) : bool := negb (Qle_bool b a).
Definition leb (a b : Q) : bool := Qle_bool a b.
Definition geb (a b : Q) : bool := Qle_bool b a.
Definition gtb (a b : Q) : bool := negb (Qle_bool a b).

(** [v || d] on numbers: [0] is the falsy number of the model. *)
Definition or_else (v d : Q) : Q := if Qeq_bool v 0 then d else v.

(** [Math.SQRT2] and [Math.PI], the binary64 constants as JavaScript prints
    them. *)
Definition Math_SQRT2 : Q := 1.4142135623730951.
Definition Math_PI : Q := 3.141592653589793.

(** Integer indices as numbers. *)
Definition of_nat (n : nat) : Q := inject_Z (Z.of_nat n).

(** A non-negative integer in decimal, as a template literal prints it. *)
Definition decimal (n : Z) : string := NilZero.string_of_uint (N.to_uint (Z.to_N n)).

(** [v.toFixed(1)]: the sign, then the integer [n] with [n / 10] closest to
    [|v|] (the larger one on a tie), written with one digit after the point
    (values below 1e21, which print without an exponent). *)
Definition toFixed1 (v : Q) : string :=
  let neg := ltb v 0 in
  let a := if neg then - v else v in
  let n := Qfloor (a * 10 + (1 # 2)) in
  ((if neg then "-" else "") ++ decimal (n / 10) ++ "." ++ decimal (n mod 10))%string.

Definition is_digit (c : ascii) : bool :=
  (48 <=? nat_of_ascii c)%nat && (nat_of_ascii c <=? 57)%nat.

(** The one-byte characters of the class [\s]. *)
Definition is_space (c : ascii) : bool :=
  let n := nat_of_ascii c in
  ((9 <=? n)%nat && (n <=? 13)%nat) || (n =? 32)%nat || (n =? 160)%nat.

(** The longest prefix of digits (a greedy [\d+] or [\d*]) and what follows. *)
Fixpoint take_digits (s : string) : string * string :=
  match s with
  | String c s' =>
      if is_digit c then let (d, rest) := take_digits s' in (String c d, rest)
      else (EmptyString, s)
  | EmptyString => (EmptyString, EmptyString)
  end.

(** A greedy [\s*]. *)
Fixpoint skip_spaces (s : string) : string :=
  match s with
  | String c s' => if is_space c then skip_spaces s' else s
  | EmptyString => EmptyString
  end.

(** Unary [+] on a captured run of digits. *)
Fixpoint digits_value (acc : Z) (s : string) : Z :=
  match s with
  | String c s' => digits_value (10 * acc + (Z.of_nat (nat_of_ascii c) - 48)) s'
  | EmptyString => acc
  end.

Definition to_number (digits : string) : Q := inject_Z (digits_value 0 digits).

End JS.

Import JS.

(** The implementation-approximated functions of [Math] that the module
    calls. *)
Class MathImpl : Type := {
  Math_sqrt : Q -> Q;
  Math_cos : Q -> Q;
  Math_sin : Q -> Q
}.

(** An implementation to evaluate the definitions with.  The square root
    is rounded down to 12 decimals.  The cosine and the sine are, at the
    multiples of an eighth of a turn (the angles of the loop of
    [regionVariance]), their values to 16 decimals, and elsewhere their
    power series, each term rounded down to 30 decimals. *)
Definition fixed30 (v : Q) : Q :=
  inject_Z (Qfloor (v * 1000000000000000000000000000000))
  / 1000000000000000000000000000000.

Definition sqrt_fixed (v : Q) : Q :=
  Qred (inject_Z (Z.sqrt (Qfloor (v * 1000000000000000000000000))) / 1000000000000).

(** [n] more terms after [term], the term of degree [k], added to [acc]. *)
Fixpoint power_series (n : nat) (k : Z) (v2 term acc : Q) : Q :=
  match n with
  | O => acc
  | S n' =>
      let term' := fixed30 (- term * v2 / inject_Z ((k + 1) * (k + 2))) in
      power_series n' (k + 2)%Z v2 term' (fixed30 (acc + term'))
  end.

Definition cos_series (v : Q) : Q := power_series 40 0 (v * v) 1 1.
Definition sin_series (v : Q) : Q := power_series 40 1 (v * v) (fixed30 v) (fixed30 v).

(** The [k] with [v = (k / 8) * Math.PI * 2], if there is one in [0 .. 7]. *)
Definition eighth_turn (v : Q) : option nat :=
  find (fun k => Qeq_bool v (of_nat k / 8 * Math_PI * 2)) (seq 0 8).

Definition cos_eighths : list Q :=
  [ 1; 0.7071067811865476; 0; -0.7071067811865476;
    -1; -0.7071067811865476; 0; 0.7071067811865476 ].

Definition sin_eighths : list Q :=
  [ 0; 0.7071067811865476; 1; 0.7071067811865476;
    0; -0.7071067811865476; -1; -0.7071067811865476 ].

Definition cos_ref (v : Q) : Q :=
  match eighth_turn v with
  | Some k => nth k cos_eighths 0
  | None => cos_series v
  end.

Definition sin_ref (v : Q) : Q :=
  match eighth_turn v with
  | Some k => nth k sin_eighths 0
  | None => sin_series v
  end.

Definition RefMath : MathImpl :=
  {| Math_sqrt := sqrt_fixed; Math_cos := cos_ref; Math_sin := sin_ref |}.

(** ** Types *)

Record XY : Type := mkXY { x_of : Q; y_of : Q }.

Record Point : Type := mkPoint { pt_x : Q; pt_y : Q; pt_color : string }.

Record RGB : Type := mkRGB { r : Q; g : Q; b : Q }.

Record Triangle : Type := mkTriangle {
  points : Point * Point * Point;
  centroid : XY;
  area : Q;
  colorVariance : Q
}.

Record DominantColor : Type := mkDominant {
  color : RGB;
  position : XY;
  weight : Q
}.

Record Direction : Type := mkDirection { x1 : Q; y1 : Q; x2 : Q; y2 : Q }.

Record BaseGradient : Type := mkBaseGradient {
  colors : list DominantColor;
  direction : Direction
}.

Record MoodSettings : Type := mkMood {
  pathSmoothing : Q;        (* 1-4 Chaikin iterations (min 1 enforced) *)
  overlapAmount : Q;        (* 1-1.2 shape expansion *)
  shapeOpacity : Q;         (* 0.6-0.98 shape fill opacity *)
  adaptiveSensitivity : Q;  (* how much variance affects density *)
  minShapeScale : Q;        (* smallest shape scale factor *)
  mergeThreshold : Q;       (* color similarity for merging *)
  gradientConsistency : Q;  (* alignment to global direction *)
  baseGradientOpacity : Q   (* 0-1 base layer strength *)
}.

(** The 2D context of a canvas, read through [getImageData(px, py, 1, 1)]:
    the red, green and blue bytes of the pixel in column [px], row [py]. *)
Definition Canvas : Type := Z -> Z -> Z * Z * Z.

(** ** Mood *)

Definition moodToSettings (mood : Q) : MoodSettings :=
  let t := mood / 100 in
  {| pathSmoothing := Math_max 1 (Math_floor (t * 4));
     overlapAmount := 1.06 + t * 0.12;
     shapeOpacity := 0.97 - t * 0.3;
     adaptiveSensitivity := 0.25 + t * 0.45;
     minShapeScale := 0.8 + t * 0.4;
     mergeThreshold := 0.15 + t * 0.35;
     gradientConsistency := 0.35 + t * 0.55;
     baseGradientOpacity := 0.25 + t * 0.55 |}.

Definition moodToMinDistance (mood width height : Q) : Q :=
  let minSize := Math_min width height in
  let factor := 0.035 + (mood / 100) * 0.11 in
  let px := minSize * factor in
  Math_max px 24.

(** ** Colour utilities *)

(** One attempt of [/rgb\((\d+),\s*(\d+),\s*(\d+)\)/] at the start of [s]:
    the three captured runs of digits. *)
Definition match_rgb_here (s : string) : option (string * string * string) :=
  if prefix "rgb(" s then
    let (d1, s1) := take_digits (substring 4 (String.length s - 4) s) in
    match d1, s1 with
    | String _ _, String "," s2 =>
        let (d2, s3) := take_digits (skip_spaces s2) in
        match d2, s3 with
        | String _ _, String "," s4 =>
            let (d3, s5) := take_digits (skip_spaces s4) in
            match d3, s5 with
            | String _ _, String ")" _ => Some (d1, d2, d3)
            | _, _ => None
            end
        | _, _ => None
        end
    | _, _ => None
    end
  else None.

(** [rgb.match(...)]: the leftmost position where the pattern matches. *)
Fixpoint match_rgb (s : string) : option (string * string * string) :=
  match match_rgb_here s with
  | Some m => Some m
  | None =>
      match s with
      | String _ s' => match_rgb s'
      | EmptyString => None
      end
  end.

Definition parseRGB (rgb : string) : RGB :=
  match match_rgb rgb with
  | None => mkRGB 0 0 0
  | Some (m1, m2, m3) => mkRGB (to_number m1) (to_number m2) (to_number m3)
  end.

Definition colorDistance `{MathImpl} (a c : RGB) : Q :=
  let dr := r a - r c in
  let dg := g a - g c in
  let db := b a - b c in
  Math_sqrt (dr * dr + dg * dg + db * db).

Definition getLuminance (c : RGB) : Q := 0.299 * r c + 0.587 * g c + 0.114 * b c.

Definition blendColors (cs : list RGB) : RGB :=
  match cs with
  | [] => mkRGB 0 0 0
  | _ :: _ =>
      let n := of_nat (List.length cs) in
      mkRGB (Math_round (fold_left (fun s c => s + r c) cs 0 / n))
            (Math_round (fold_left (fun s c => s + g c) cs 0 / n))
            (Math_round (fold_left (fun s c => s + b c) cs 0 / n))
  end.

(** *** Colours as strings *)

(** A non-negative integer in base 16, as [toString(16)] prints it. *)
Definition hexadecimal (n : Z) : string :=
  HexadecimalString.NilZero.string_of_uint (N.to_hex_uint (Z.to_N n)).

(** [s.padStart(2, "0")]. *)
Definition padStart2 (s : string) : string :=
  match String.length s with
  | O => "00"%string
  | 1%nat => ("0" ++ s)%string
  | _ => s
  end.

(** An integer as a template literal and as [toString(16)] print it.  A
    number with a fraction prints the digits of its binary64 value, which
    the rationals of the model do not have: [None]. *)
Definition integer_string (digits : Z -> string) (v : Q) : option string :=
  if Qeq_bool v (inject_Z (Qfloor v)) then
    Some (if ltb v 0 then ("-" ++ digits (- Qfloor v)%Z)%string else digits (Qfloor v))
  else None.

(** A number in a template literal.  An integer below [2 ^ 53] prints its
    digits.  A larger binary64 value prints the shortest digits that read
    back as the same value, and from 1e21 on an exponent: the model leaves
    these out, [None]. *)
Definition template_number (v : Q) : option string :=
  if ltb (Qabs v) 9007199254740992 then integer_string decimal v else None.

Definition rgbToString (c : RGB) : option string :=
  match template_number (r c), template_number (g c), template_number (b c) with
  | Some sr, Some sg, Some sb =>
      Some ("rgb(" ++ sr ++ ", " ++ sg ++ ", " ++ sb ++ ")")%string
  | _, _, _ => None
  end.

(** [+v] on a captured run of digits is an integer that is not negative. *)
Definition rgbToHex (rgb : string) : string :=
  match match_rgb rgb with
  | None => "#000000"%string
  | Some (m1, m2, m3) =>
      ("#" ++ String.concat ""
                (map (fun v => padStart2 (hexadecimal (digits_value 0 v))) [m1; m2; m3]))%string
  end.

Definition rgbObjToHex (c : RGB) : option string :=
  match integer_string hexadecimal (r c), integer_string hexadecimal (g c),
        integer_string hexadecimal (b c) with
  | Some sr, Some sg, Some sb =>
      Some ("#" ++ String.concat "" (map padStart2 [sr; sg; sb]))%string
  | _, _, _ => None
  end.

(** ** Canvas sampling *)

Definition clamp (v lo hi : Q) : Q := Math_max lo (Math_min hi v).

Definition sampleColor (ctx : Canvas) (px py : Q) : string :=
  let '(p0, p1, p2) := ctx (Qfloor px) (Qfloor py) in
  ("rgb(" ++ decimal p0 ++ ", " ++ decimal p1 ++ ", " ++ decimal p2 ++ ")")%string.

Definition sampleRGB (ctx : Canvas) (px py : Q) : RGB :=
  let '(p0, p1, p2) := ctx (Qfloor px) (Qfloor py) in
  mkRGB (inject_Z p0) (inject_Z p1) (inject_Z p2).

(** The two nested loops over [dy] and [dx] in [-1 .. 1]. *)
Definition sampleRegionAvg (ctx : Canvas) (px py radius w h : Q) : RGB :=
  blendColors
    (flat_map
       (fun dy =>
          map (fun dx =>
                 sampleRGB ctx (clamp (px + dx * radius * 0.5) 0 (w - 1))
                               (clamp (py + dy * radius * 0.5) 0 (h - 1)))
              [-1; 0; 1])
       [-1; 0; 1]).

Definition regionVariance `{MathImpl} (ctx : Canvas) (px py radius w h : Q) : Q :=
  let center := sampleRGB ctx (clamp px 0 (w - 1)) (clamp py 0 (h - 1)) in
  let steps := 8%nat in
  let total :=
    fold_left
      (fun total i =>
         let angle := (of_nat i / of_nat steps) * Math_PI * 2 in
         let s := sampleRGB ctx (clamp (px + Math_cos angle * radius) 0 (w - 1))
                                (clamp (py + Math_sin angle * radius) 0 (h - 1)) in
         total + colorDistance s center)
      (seq 0 steps) 0 in
  total / of_nat steps.

(** ** Image analysis *)

Definition no_sample : DominantColor := mkDominant (mkRGB 0 0 0) (mkXY 0 0) 0.

(** The 6 x 6 grid of region averages, row by row. *)
Definition grid_samples (ctx : Canvas) (w h : Q) : list DominantColor :=
  let gridSize := 6%nat in
  let cellW := w / of_nat gridSize in
  let cellH := h / of_nat gridSize in
  flat_map
    (fun gy =>
       map (fun gx =>
              let cx := (of_nat gx + 0.5) * cellW in
              let cy := (of_nat gy + 0.5) * cellH in
              let color := sampleRegionAvg ctx cx cy (Math_min cellW cellH * 0.3) w h in
              mkDominant color (mkXY cx cy) 1)
           (seq 0 gridSize))
    (seq 0 gridSize).

(** The body of the inner loop over [j]: the state is [maxDist], [from], [to]. *)
Definition farthest_step `{MathImpl} (samples : list DominantColor) (i : nat)
    (st : Q * DominantColor * DominantColor) (j : nat) : Q * DominantColor * DominantColor :=
  let si := nth i samples no_sample in
  let sj := nth j samples no_sample in
  let d := colorDistance (color si) (color sj) in
  if gtb d (fst (fst st)) then
    if ltb (getLuminance (color si)) (getLuminance (color sj)) then (d, si, sj)
    else (d, sj, si)
  else st.

(** The two loops over [i] and [j > i]. *)
Definition farthest_pair `{MathImpl} (samples : list DominantColor)
    : Q * DominantColor * DominantColor :=
  let s0 := nth 0 samples no_sample in
  fold_left
    (fun st i =>
       fold_left (farthest_step samples i) (seq (i + 1) (List.length samples - (i + 1))) st)
    (seq 0 (List.length samples)) (0, s0, s0).

Definition analyzeBaseGradient `{MathImpl} (ctx : Canvas) (w h : Q) : BaseGradient :=
  let samples := grid_samples ctx w h in
  let '(_, from, to) := farthest_pair samples in
  mkBaseGradient samples
    (mkDirection (x_of (position from) / w) (y_of (position from) / h)
                 (x_of (position to) / w) (y_of (position to) / h)).

(** ** Delaunay triangulation (Bowyer-Watson) *)

Module Delaunay.

(** A triangle of the working list: three indices into [all]. *)
Definition Tri : Type := nat * nat * nat.
Definition Edge : Type := nat * nat.

Definition origin : XY := mkXY 0 0.

Definition inCircumcircle (p a c1 c2 : XY) : bool :=
  let ax := x_of a - x_of p in
  let ay := y_of a - y_of p in
  let bx := x_of c1 - x_of p in
  let by_ := y_of c1 - y_of p in
  let cx := x_of c2 - x_of p in
  let cy := y_of c2 - y_of p in
  let det := (ax * ax + ay * ay) * (bx * cy - cx * by_)
             - (bx * bx + by_ * by_) * (ax * cy - cx * ay)
             + (cx * cx + cy * cy) * (ax * by_ - bx * ay) in
  let ori := (x_of a - x_of c2) * (y_of c1 - y_of c2)
             - (y_of a - y_of c2) * (x_of c1 - x_of c2) in
  if gtb ori 0 then gtb det 0 else ltb det 0.

(** [minX], [minY] start at [Infinity] and [maxX], [maxY] at [-Infinity]:
    [None] is that initial value, which the first point replaces. *)
Definition improve (better : Q -> Q -> bool) (cur : option Q) (v : Q) : option Q :=
  match cur with
  | None => Some v
  | Some c => if better v c then Some v else cur
  end.

Definition bounds (pts : list XY) : option Q * option Q * option Q * option Q :=
  fold_left
    (fun '(minX, minY, maxX, maxY) p =>
       (improve ltb minX (x_of p), improve ltb minY (y_of p),
        improve gtb maxX (x_of p), improve gtb maxY (y_of p)))
    pts (None, None, None, None).

(** The value of a bound after the loop over a non-empty [pts]. *)
Definition bound (o : option Q) : Q :=
  match o with Some v => v | None => 0 end.

Definition superTri (pts : list XY) : list XY :=
  let '(minX, minY, maxX, maxY) := bounds pts in
  let dx := bound maxX - bound minX in
  let dy := bound maxY - bound minY in
  let d := Math_max dx dy in
  let mx := (bound minX + bound maxX) / 2 in
  let my := (bound minY + bound maxY) / 2 in
  [ mkXY (mx - 20 * d) (my - d); mkXY mx (my + 20 * d); mkXY (mx + 20 * d) (my - d) ].

Definition edges_of (t : Tri) : list Edge :=
  let '(t0, t1, t2) := t in [ (t0, t1); (t1, t2); (t2, t0) ].

(** The test on [e] and [oe2]: the same edge in either direction. *)
Definition same_edge (e oe2 : Edge) : bool :=
  ((fst e =? fst oe2)%nat && (snd e =? snd oe2)%nat)
  || ((fst e =? snd oe2)%nat && (snd e =? fst oe2)%nat).

Definition in_circle_of (all : list XY) (p : XY) (t : Tri) : bool :=
  let '(t0, t1, t2) := t in
  inCircumcircle p (nth t0 all origin) (nth t1 all origin) (nth t2 all origin).

(** One round of the loop over [i].  A triangle is an array object, and
    [t === o] and [bad.includes(t)] compare objects: each triangle of [tris]
    carries its position in [tris], which identifies the object during the
    round. *)
Definition insert_point (pts all : list XY) (tris : list Tri) (i : nat) : list Tri :=
  let p := nth i pts origin in
  let objs := combine (seq 0 (List.length tris)) tris in
  let bad := filter (fun t => in_circle_of all p (snd t)) objs in
  let poly :=
    flat_map
      (fun t =>
         filter
           (fun e =>
              negb (existsb
                      (fun o =>
                         negb (fst t =? fst o)%nat
                         && existsb (same_edge e) (edges_of (snd o)))
                      bad))
           (edges_of (snd t)))
      bad in
  let kept := filter (fun t => negb (existsb (fun o => (fst t =? fst o)%nat) bad)) objs in
  map snd kept ++ map (fun e => (fst e, snd e, i)) poly.

(** [tris] when the loop over the points ends, before the triangles of the
    super-triangle are dropped. *)
Definition insert_all (pts : list XY) : list Tri :=
  let n := List.length pts in
  let all := pts ++ superTri pts in
  fold_left (insert_point pts all) (seq 0 n) [ (n, n + 1, n + 2)%nat ].

(** [tris] after the last [filter]. *)
Definition run_triangles (pts : list XY) : list Tri :=
  let n := List.length pts in
  if (n <? 3)%nat then []
  else
    filter (fun '(t0, t1, t2) => (t0 <? n)%nat && (t1 <? n)%nat && (t2 <? n)%nat)
           (insert_all pts).

(** [triangleIndices] after the constructor: [tris.flat()], or the initial
    [[]] when [run] returns early. *)
Definition run (pts : list XY) : list nat :=
  flat_map (fun '(t0, t1, t2) => [t0; t1; t2]) (run_triangles pts).

End Delaunay.

(** ** Adaptive Poisson disk sampling *)

(** The integers [lo], [lo + 1], ..., [hi] of a [for] loop. *)
Definition Zrange (lo hi : Z) : list Z :=
  map (fun k => (lo + Z.of_nat k)%Z) (seq 0 (Z.to_nat (hi - lo + 1))).

(** [l[i] = v] on an array, for [i] inside it. *)
Fixpoint set_nth {A : Type} (l : list A) (i : nat) (v : A) : list A :=
  match l, i with
  | [], _ => []
  | _ :: l', O => v :: l'
  | a :: l', S i' => a :: set_nth l' i' v
  end.

(** [l.splice(i, 1)]. *)
Fixpoint remove_nth {A : Type} (l : list A) (i : nat) : list A :=
  match l, i with
  | [], _ => []
  | _ :: l', O => l'
  | a :: l', S i' => a :: remove_nth l' i'
  end.

(** What the closures of [adaptivePoissonSampling] share and mutate: the
    grid, the points, the active list, and how many times [Math.random] was
    called. *)
Record Sampler : Type := mkSampler {
  grid : list (list (option nat));
  pts : list XY;
  active : list nat;
  calls : nat
}.

Section AdaptivePoisson.

Context {M : MathImpl}.
Variable ctx : Canvas.
Variables w h baseMinDist : Q.
Variable settings : MoodSettings.
Variable maxAttempts : nat.
(** [random k] is what the [k]-th call of [Math.random] returns. *)
Variable random : nat -> Q.

Definition cell : Q := baseMinDist / Math_SQRT2.
Definition gw : Z := Qceiling (w / cell).
Definition gh : Z := Qceiling (h / cell).

Definition localDist (px py : Q) : Q :=
  let v := regionVariance ctx px py baseMinDist w h in
  let factor := Math_max 0.35 (1 - (v / 255) * adaptiveSensitivity settings) in
  baseMinDist * factor * minShapeScale settings.

Definition grid_get (gr : list (list (option nat))) (i j : Z) : option nat :=
  nth (Z.to_nat j) (nth (Z.to_nat i) gr []) None.

Definition tooClose (s : Sampler) (px py md : Q) : bool :=
  let gx := Qfloor (px / cell) in
  let gy := Qfloor (py / cell) in
  let rad := (Qceiling (md / cell) + 1)%Z in
  existsb
    (fun i =>
       existsb
         (fun j =>
            match grid_get (grid s) i j with
            | Some idx =>
                let q := nth idx (pts s) (mkXY 0 0) in
                let dx := x_of q - px in
                let dy := y_of q - py in
                ltb (dx * dx + dy * dy) (md * md)
            | None => false
            end)
         (Zrange (Z.max 0 (gy - rad)) (Z.min (gh - 1) (gy + rad))))
    (Zrange (Z.max 0 (gx - rad)) (Z.min (gw - 1) (gx + rad))).

Definition addPoint (s : Sampler) (px py : Q) : Sampler :=
  let idx := List.length (pts s) in
  let gx := Qfloor (px / cell) in
  let gy := Qfloor (py / cell) in
  mkSampler
    (if (0 <=? gx)%Z && (gx <? gw)%Z && (0 <=? gy)%Z && (gy <? gh)%Z
     then set_nth (grid s) (Z.to_nat gx)
                  (set_nth (nth (Z.to_nat gx) (grid s) []) (Z.to_nat gy) (Some idx))
     else grid s)
    (pts s ++ [mkXY px py])
    (active s ++ [idx])
    (calls s).

(** The loop over [a], with [left] attempts to go: the sampler after it and
    [found]. *)
Fixpoint attempts (left : nat) (p : XY) (ld : Q) (s : Sampler) : Sampler * bool :=
  match left with
  | O => (s, false)
  | S left' =>
      let angle := random (calls s) * Math_PI * 2 in
      let dist := ld + random (calls s + 1) * ld in
      let s' := mkSampler (grid s) (pts s) (active s) (calls s + 2) in
      let nx := x_of p + Math_cos angle * dist in
      let ny := y_of p + Math_sin angle * dist in
      if geb nx 0 && ltb nx w && geb ny 0 && ltb ny h then
        let nld := localDist nx ny in
        if negb (tooClose s' nx ny nld) then (addPoint s' nx ny, true)
        else attempts left' p ld s'
      else attempts left' p ld s'
  end.

(** One round of [while (active.length)]. *)
Definition sample_round (s : Sampler) : Sampler :=
  let ri := Z.to_nat (Qfloor (random (calls s) * of_nat (List.length (active s)))) in
  let s1 := mkSampler (grid s) (pts s) (active s) (calls s + 1) in
  let pi := nth ri (active s1) O in
  let p := nth pi (pts s1) (mkXY 0 0) in
  let ld := localDist (x_of p) (y_of p) in
  let (s2, found) := attempts maxAttempts p ld s1 in
  if found then s2
  else mkSampler (grid s2) (pts s2) (remove_nth (active s2) ri) (calls s2).

(** The [while] loop, for at most [fuel] rounds: [None] when the active list
    is not empty by then. *)
Fixpoint sample_loop (fuel : nat) (s : Sampler) : option Sampler :=
  match active s with
  | [] => Some s
  | _ :: _ =>
      match fuel with
      | O => None
      | S fuel' => sample_loop fuel' (sample_round s)
      end
  end.

Definition initial_sampler : Sampler :=
  addPoint
    (mkSampler (repeat (repeat None (Z.to_nat gh)) (Z.to_nat gw)) [] [] 0)
    (w / 2) (h / 2).

Definition adaptivePoissonSampling (fuel : nat) : option (list XY) :=
  option_map pts (sample_loop fuel initial_sampler).

End AdaptivePoisson.

(** ** Boundary points *)

(** One of the two loops of [addBoundaryPoints],
    [for (v = spacing; v < limit; v += spacing) bp.push(...pair(v))], for at
    most [fuel] rounds: [None] when the loop is still running by then. *)
Fixpoint boundary_loop (fuel : nat) (v limit spacing : Q) (pair : Q -> list XY)
    (bp : list XY) : option (list XY) :=
  if ltb v limit then
    match fuel with
    | O => None
    | S fuel' => boundary_loop fuel' (v + spacing) limit spacing pair (bp ++ pair v)
    end
  else Some bp.

Definition addBoundaryPoints (fuel : nat) (pts : list XY) (w h spacing : Q)
    : option (list XY) :=
  let bp := [ mkXY 0 0; mkXY w 0; mkXY 0 h; mkXY w h ] in
  match boundary_loop fuel spacing w spacing (fun x => [ mkXY x 0; mkXY x h ]) bp with
  | None => None
  | Some bp1 =>
      match boundary_loop fuel spacing h spacing (fun y => [ mkXY 0 y; mkXY w y ]) bp1 with
      | None => None
      | Some bp2 => Some (pts ++ bp2)
      end
  end.

(** ** Triangulation *)

(** The points of a triangle as the array [t.points]. *)
Definition points_list (t : Triangle) : list Point :=
  let '(p0, p1, p2) := points t in [p0; p1; p2].

Definition make_triangle `{MathImpl} (ctx : Canvas) (w h : Q) (p0 p1 p2 : XY) : Triangle :=
  let c0 := sampleColor ctx (clamp (x_of p0) 0 (w - 1)) (clamp (y_of p0) 0 (h - 1)) in
  let c1 := sampleColor ctx (clamp (x_of p1) 0 (w - 1)) (clamp (y_of p1) 0 (h - 1)) in
  let c2 := sampleColor ctx (clamp (x_of p2) 0 (w - 1)) (clamp (y_of p2) 0 (h - 1)) in
  let centroid := mkXY ((x_of p0 + x_of p1 + x_of p2) / 3) ((y_of p0 + y_of p1 + y_of p2) / 3) in
  let area :=
    Math_abs ((x_of p1 - x_of p0) * (y_of p2 - y_of p0)
              - (x_of p2 - x_of p0) * (y_of p1 - y_of p0)) / 2 in
  let rgb0 := parseRGB c0 in
  let rgb1 := parseRGB c1 in
  let rgb2 := parseRGB c2 in
  let avg := blendColors [rgb0; rgb1; rgb2] in
  let variance :=
    (colorDistance rgb0 avg + colorDistance rgb1 avg + colorDistance rgb2 avg) / 3 in
  mkTriangle
    (mkPoint (x_of p0) (y_of p0) c0, mkPoint (x_of p1) (y_of p1) c1,
     mkPoint (x_of p2) (y_of p2) c2)
    centroid area variance.

(** The loop over [idx], three indices at a time.  Reading [.x] of
    [pts[k]] when [k] is no index of [pts] throws a [TypeError]: [None]. *)
Fixpoint triangles_of `{MathImpl} (ctx : Canvas) (pts : list XY) (w h : Q) (idx : list nat)
    : option (list Triangle) :=
  match idx with
  | [] => Some []
  | i0 :: i1 :: i2 :: idx' =>
      match nth_error pts i0, nth_error pts i1, nth_error pts i2 with
      | Some p0, Some p1, Some p2 =>
          option_map (cons (make_triangle ctx w h p0 p1 p2)) (triangles_of ctx pts w h idx')
      | _, _, _ => None
      end
  | _ => None
  end.

(** [areas.sort((a, b) => a - b)]: a stable sort into ascending order. *)
Fixpoint insert_sorted (v : Q) (l : list Q) : list Q :=
  match l with
  | [] => [v]
  | u :: l' => if ltb v u then v :: l else u :: insert_sorted v l'
  end.

Definition sort_ascending (l : list Q) : list Q :=
  fold_left (fun acc v => insert_sorted v acc) l [].

Definition filterSmallTriangles (tris : list Triangle) : list Triangle :=
  match tris with
  | [] => tris
  | _ :: _ =>
      let areas := sort_ascending (map area tris) in
      let median := or_else (nth (List.length areas / 2) areas 0) 1 in
      let cut := median * 0.28 in
      filter (fun t => geb (area t) cut) tris
  end.

Definition triangulate `{MathImpl} (ctx : Canvas) (pts : list XY) (w h : Q)
    : option (list Triangle) :=
  let idx := Delaunay.run pts in
  option_map filterSmallTriangles (triangles_of ctx pts w h idx).

(** ** Shape classification *)

(** The keys of the edges and the two maps of [classifyShapes].  The
    function itself, whose tests are on rounded numbers, is read in [B64]
    below. *)

Definition edgeKey (ax ay bx by_ : Q) : string :=
  let a := (toFixed1 ax ++ "," ++ toFixed1 ay)%string in
  let c := (toFixed1 bx ++ "," ++ toFixed1 by_)%string in
  if String.ltb a c then (a ++ "-" ++ c)%string else (c ++ "-" ++ a)%string.

(** The array [edges] of one triangle. *)
Definition edge_keys (t : Triangle) : list string :=
  let '(p0, p1, p2) := points t in
  [ edgeKey (pt_x p0) (pt_y p0) (pt_x p1) (pt_y p1);
    edgeKey (pt_x p1) (pt_y p1) (pt_x p2) (pt_y p2);
    edgeKey (pt_x p2) (pt_y p2) (pt_x p0) (pt_y p0) ].

(** [edgeMap]: a [Map] keeps its keys in the order they were first set.
    [edge_push m e i] is [if (!m.has(e)) m.set(e, []); m.get(e).push(i)]. *)
Fixpoint edge_push (m : list (string * list nat)) (e : string) (i : nat)
    : list (string * list nat) :=
  match m with
  | [] => [(e, [i])]
  | (k, v) :: m' =>
      if String.eqb k e then (k, v ++ [i]) :: m' else (k, v) :: edge_push m' e i
  end.

Definition build_edgeMap (tris : list Triangle) : list (string * list nat) :=
  fold_left
    (fun m it => fold_left (fun m' e => edge_push m' e (fst it)) (edge_keys (snd it)) m)
    (combine (seq 0 (List.length tris)) tris) [].

(** [neighbors] has the keys [0 .. tris.length - 1], each set to [[]] in the
    first loop: the list of its values in key order.
    [neighbor_push nb a c] is [nb.get(a).push(c)]. *)
Definition neighbor_push (nb : list (list nat)) (a c : nat) : list (list nat) :=
  set_nth nb a (nth a nb [] ++ [c]).

Definition build_neighbors (n : nat) (edgeMap : list (string * list nat)) : list (list nat) :=
  fold_left
    (fun nb entry =>
       match snd entry with
       | [i0; i1] => neighbor_push (neighbor_push nb i0 i1) i1 i0
       | _ => nb
       end)
    edgeMap (repeat [] n).

Definition no_triangle : Triangle :=
  let p := mkPoint 0 0 EmptyString in mkTriangle (p, p, p) (mkXY 0 0) 0 0.

(** [blendColors(t.points.map(p => parseRGB(p.color)))]. *)
Definition blended (t : Triangle) : RGB :=
  blendColors (map (fun p => parseRGB (pt_color p)) (points_list t)).

(** ** Global gradient direction *)

Record GlobalDir : Type := mkDir { dir_dx : Q; dir_dy : Q }.

Definition no_point : Point := mkPoint 0 0 EmptyString.

(** The body of [for (i = 1; i < 3; i++)]: the state is [minI], [maxI]. *)
Definition extreme_step (lums : list Q) (st : nat * nat) (i : nat) : nat * nat :=
  let '(minI, maxI) := st in
  (if ltb (nth i lums 0) (nth minI lums 0) then i else minI,
   if gtb (nth i lums 0) (nth maxI lums 0) then i else maxI).

(** What a triangle adds to [tdx] and [tdy]: the step from its darkest
    point to its lightest one. *)
Definition luminance_shift (t : Triangle) : Q * Q :=
  let lums := map (fun p => getLuminance (parseRGB (pt_color p))) (points_list t) in
  let '(minI, maxI) := fold_left (extreme_step lums) [1%nat; 2%nat] (0%nat, 0%nat) in
  let pmax := nth maxI (points_list t) no_point in
  let pmin := nth minI (points_list t) no_point in
  (pt_x pmax - pt_x pmin, pt_y pmax - pt_y pmin).

(** [tdx], [tdy] and [cnt] after the loop over the triangles. *)
Definition total_shift (tris : list Triangle) : Q * Q * nat :=
  fold_left
    (fun '(tdx, tdy, cnt) t =>
       let '(sx, sy) := luminance_shift t in (tdx + sx, tdy + sy, S cnt))
    tris (0, 0, O).

Definition computeGlobalDir `{MathImpl} (tris : list Triangle) : GlobalDir :=
  let '(tdx, tdy, cnt) := total_shift tris in
  match cnt with
  | O => mkDir 1 0
  | S _ =>
      let len := or_else (Math_sqrt (tdx * tdx + tdy * tdy)) 1 in
      mkDir (tdx / len) (tdy / len)
  end.

(** ** Path smoothing *)

(** One round: the array [np] built from [r]. *)
Definition chaikin_round (rs : list XY) : list XY :=
  flat_map
    (fun i =>
       let a := nth i rs (mkXY 0 0) in
       let c := nth ((i + 1) mod List.length rs) rs (mkXY 0 0) in
       [ mkXY (0.75 * x_of a + 0.25 * x_of c) (0.75 * y_of a + 0.25 * y_of c);
         mkXY (0.25 * x_of a + 0.75 * x_of c) (0.25 * y_of a + 0.75 * y_of c) ])
    (seq 0 (List.length rs)).

(** [for (it = 0; it < iters; it++)] runs its body [ceil(iters)] times when
    [iters > 0]. *)
Definition chaikinSmooth (pts : list XY) (iters : Q) : list XY :=
  if leb iters 0 then pts
  else Nat.iter (Z.to_nat (Qceiling iters)) chaikin_round pts.

(** *** The outline of a triangle *)







(** ** The pipeline of [processImage] *)

(** The mesh of [processImage]: the settings and the spacing of the mood,
    the sampled points, the points of the boundary, the triangles.  [ctx]
    is the canvas that holds the image; each loop runs for at most [fuel]
    rounds. *)
Definition processImage_mesh `{MathImpl} (ctx : Canvas) (width height currentMood : Q)
    (random : nat -> Q) (fuel : nat) : option (list Triangle) :=
  let settings := moodToSettings currentMood in
  let minDist := moodToMinDistance currentMood width height in
  match adaptivePoissonSampling ctx width height minDist settings 30 random fuel with
  | None => None
  | Some pts =>
      match addBoundaryPoints fuel pts width height minDist with
      | None => None
      | Some pts' => triangulate ctx pts' width height
      end
  end.

(** ** Binary64 arithmetic

    A [number] of the source is a binary64 value, and each arithmetic
    operation returns the binary64 value nearest to the exact result, a tie
    going to the value with an even significand.  The definitions above
    leave this rounding out.  Where a property of the program depends on
    it, the functions are read again here, from the same lines of the
    source, with every operation rounded: a number is the rational that
    the binary64 value denotes, subnormal values included; an overflow to
    [Infinity] and [NaN] stay outside the model. *)

Module B64.

(** The exponent [e] of a positive number: [2 ^ e <= x < 2 ^ (e + 1)]. *)
Definition binade (x : Q) : Z :=
  let e0 := (Z.log2 (Qnum x) - Z.log2 (Zpos (Qden x)))%Z in
  if Qle_bool (2 ^ e0) x then e0 else (e0 - 1)%Z.

(** The integer nearest to [q], the even one of the two on a tie. *)
Definition nearest_even (q : Q) : Z :=
  let f := Qfloor q in
  match Qcompare (q - inject_Z f) (1 # 2) with
  | Lt => f
  | Gt => (f + 1)%Z
  | Eq => if Z.even f then f else (f + 1)%Z
  end.

(** The gap between the binary64 values around a positive [x]: 52 binary
    digits after the leading one, and the gap of the subnormal values
    below [2 ^ -1022]. *)
Definition ulp (x : Q) : Q := 2 ^ (Z.max (binade x) (-1022) - 52).

Definition round_positive (x : Q) : Q := inject_Z (nearest_even (x / ulp x)) * ulp x.

(** The binary64 value nearest to [x]. *)
Definition round64 (x : Q) : Q :=
  let v := Qred x in
  match Qcompare v 0 with
  | Eq => 0
  | Gt => Qred (round_positive v)
  | Lt => Qred (- round_positive (- v))
  end.

(** A decimal literal of the source is the binary64 value nearest to it. *)
Definition lit (x : Q) : Q := round64 x.

(** [x + y], [x - y], [x * y] and [x / y] of the source. *)
Definition add (x y : Q) : Q := round64 (x + y).
Definition sub (x y : Q) : Q := round64 (x - y).
Definition mul (x y : Q) : Q := round64 (x * y).
Definition div (x y : Q) : Q := round64 (x / y).

(** *** Mood *)

Definition moodToSettings (mood : Q) : MoodSettings :=
  let t := div mood 100 in
  {| pathSmoothing := Math_max 1 (Math_floor (mul t 4));
     overlapAmount := add (lit 1.06) (mul t (lit 0.12));
     shapeOpacity := sub (lit 0.97) (mul t (lit 0.3));
     adaptiveSensitivity := add (lit 0.25) (mul t (lit 0.45));
     minShapeScale := add (lit 0.8) (mul t (lit 0.4));
     mergeThreshold := add (lit 0.15) (mul t (lit 0.35));
     gradientConsistency := add (lit 0.35) (mul t (lit 0.55));
     baseGradientOpacity := add (lit 0.25) (mul t (lit 0.55)) |}.

(** *** Micro-triangle culling *)

Definition filterSmallTriangles (tris : list Triangle) : list Triangle :=
  match tris with
  | [] => tris
  | _ :: _ =>
      let areas := sort_ascending (map area tris) in
      let median := or_else (nth (List.length areas / 2) areas 0) 1 in
      let cut := mul median (lit 0.28) in
      filter (fun t => geb (area t) cut) tris
  end.

(** *** Shape classification *)

Definition blendColors (cs : list RGB) : RGB :=
  match cs with
  | [] => mkRGB 0 0 0
  | _ :: _ =>
      let n := of_nat (List.length cs) in
      mkRGB (Math_round (div (fold_left (fun s c => add s (r c)) cs 0) n))
            (Math_round (div (fold_left (fun s c => add s (g c)) cs 0) n))
            (Math_round (div (fold_left (fun s c => add s (b c)) cs 0) n))
  end.

Definition colorDistance `{MathImpl} (a c : RGB) : Q :=
  let dr := sub (r a) (r c) in
  let dg := sub (g a) (g c) in
  let db := sub (b a) (b c) in
  Math_sqrt (add (add (mul dr dr) (mul dg dg)) (mul db db)).

(** [blendColors(t.points.map(p => parseRGB(p.color)))]. *)
Definition blended (t : Triangle) : RGB :=
  blendColors (map (fun p => parseRGB (pt_color p)) (points_list t)).

Definition classifyShapes `{MathImpl} (tris : list Triangle) (threshold : Q)
    : list Triangle * list Triangle :=
  let avgArea :=
    div (fold_left (fun s t => add s (area t)) tris 0) (of_nat (List.length tris)) in
  let neighbors := build_neighbors (List.length tris) (build_edgeMap tris) in
  fold_left
    (fun '(primary, detail) it =>
       let t := snd it in
       let nb := nth (fst it) neighbors [] in
       let avgC := blended t in
       let similarCount :=
         fold_left
           (fun count ni =>
              let nAvg := blended (nth ni tris no_triangle) in
              if ltb (div (colorDistance avgC nAvg) (lit 441.67)) threshold
              then S count else count)
           nb O in
       if geb (area t) (mul avgArea (lit 0.55)) && (2 <=? similarCount)%nat
       then (primary ++ [t], detail)
       else (primary, detail ++ [t]))
    (combine (seq 0 (List.length tris)) tris) ([], []).

(** *** Delaunay triangulation (Bowyer-Watson) *)

Module Delaunay.

Definition inCircumcircle (p a c1 c2 : XY) : bool :=
  let ax := sub (x_of a) (x_of p) in
  let ay := sub (y_of a) (y_of p) in
  let bx := sub (x_of c1) (x_of p) in
  let by_ := sub (y_of c1) (y_of p) in
  let cx := sub (x_of c2) (x_of p) in
  let cy := sub (y_of c2) (y_of p) in
  let det :=
    add (sub (mul (add (mul ax ax) (mul ay ay)) (sub (mul bx cy) (mul cx by_)))
             (mul (add (mul bx bx) (mul by_ by_)) (sub (mul ax cy) (mul cx ay))))
        (mul (add (mul cx cx) (mul cy cy)) (sub (mul ax by_) (mul bx ay))) in
  let ori :=
    sub (mul (sub (x_of a) (x_of c2)) (sub (y_of c1) (y_of c2)))
        (mul (sub (y_of a) (y_of c2)) (sub (x_of c1) (x_of c2))) in
  if gtb ori 0 then gtb det 0 else ltb det 0.

Definition superTri (pts : list XY) : list XY :=
  let '(minX, minY, maxX, maxY) := Delaunay.bounds pts in
  let bound := Delaunay.bound in
  let dx := sub (bound maxX) (bound minX) in
  let dy := sub (bound maxY) (bound minY) in
  let d := Math_max dx dy in
  let mx := div (add (bound minX) (bound maxX)) 2 in
  let my := div (add (bound minY) (bound maxY)) 2 in
  [ mkXY (sub mx (mul 20 d)) (sub my d); mkXY mx (add my (mul 20 d));
    mkXY (add mx (mul 20 d)) (sub my d) ].

Definition in_circle_of (all : list XY) (p : XY) (t : Delaunay.Tri) : bool :=
  let '(t0, t1, t2) := t in
  inCircumcircle p (nth t0 all Delaunay.origin) (nth t1 all Delaunay.origin)
                 (nth t2 all Delaunay.origin).

(** One round of the loop over [i], as in the exact reading but for the
    test. *)
Definition insert_point (pts all : list XY) (tris : list Delaunay.Tri) (i : nat)
    : list Delaunay.Tri :=
  let p := nth i pts Delaunay.origin in
  let objs := combine (seq 0 (List.length tris)) tris in
  let bad := filter (fun t => in_circle_of all p (snd t)) objs in
  let poly :=
    flat_map
      (fun t =>
         filter
           (fun e =>
              negb (existsb
                      (fun o =>
                         negb (fst t =? fst o)%nat
                         && existsb (Delaunay.same_edge e)
                                    (Delaunay.edges_of (snd o)))
                      bad))
           (Delaunay.edges_of (snd t)))
      bad in
  let kept := filter (fun t => negb (existsb (fun o => (fst t =? fst o)%nat) bad)) objs in
  map snd kept ++ map (fun e => (fst e, snd e, i)) poly.

Definition insert_all (pts : list XY) : list Delaunay.Tri :=
  let n := List.length pts in
  let all := pts ++ superTri pts in
  fold_left (insert_point pts all) (seq 0 n) [ (n, n + 1, n + 2)%nat ].

Definition run_triangles (pts : list XY) : list Delaunay.Tri :=
  let n := List.length pts in
  if (n <? 3)%nat then []
  else
    filter (fun '(t0, t1, t2) => (t0 <? n)%nat && (t1 <? n)%nat && (t2 <? n)%nat)
           (insert_all pts).

End Delaunay.

End B64.

(** ** The vocabulary of the specification *)

(** Each field moves one way as the mood grows from [s1] to [s2]:
    [shapeOpacity] falls, the seven others rise. *)
Definition settings_monotone (s1 s2 : MoodSettings) : Prop :=
  pathSmoothing s1 <= pathSmoothing s2 /\
  overlapAmount s1 <= overlapAmount s2 /\
  shapeOpacity s2 <= shapeOpacity s1 /\
  adaptiveSensitivity s1 <= adaptiveSensitivity s2 /\
  minShapeScale s1 <= minShapeScale s2 /\
  mergeThreshold s1 <= mergeThreshold s2 /\
  gradientConsistency s1 <= gradientConsistency s2 /\
  baseGradientOpacity s1 <= baseGradientOpacity s2.

(** The edges of the closed polygon [rs]: each point with its successor,
    the last one with the first. *)
Definition cyclic_edges (rs : list XY) : list (XY * XY) :=
  combine rs (tl rs ++ firstn 1 rs).

(** The two points that replace the edge [(a, c)]. *)
Definition cut_corner (e : XY * XY) : list XY :=
  let (a, c) := e in
  [ mkXY (0.75 * x_of a + 0.25 * x_of c) (0.75 * y_of a + 0.25 * y_of c);
    mkXY (0.25 * x_of a + 0.75 * x_of c) (0.25 * y_of a + 0.75 * y_of c) ].

(** The median the source takes: the element in the middle of the areas in
    ascending order, the upper of the two middle ones when their number is
    even. *)
Definition median_area (tris : list Triangle) : Q :=
  nth (List.length tris / 2) (sort_ascending (map area tris)) 0.

(** What the properties ask of [Math.sqrt]: it is a function of the value
    of its argument, and the square root of 0 is 0. *)
Definition sqrt_respects_numbers (M : MathImpl) : Prop :=
  (forall u v : Q, u == v -> Math_sqrt u == Math_sqrt v) /\ Math_sqrt 0 == 0.



(** The elements of an array with their indices. *)
Definition indexed {A : Type} (l : list A) : list (nat * A) :=
  combine (seq 0 (List.length l)) l.

(** Every (edge key, triangle index) incidence of the triangles [its],
    triangle by triangle and edge by edge. *)
Definition incidences_of (its : list (nat * Triangle)) : list (string * nat) :=
  flat_map (fun it => map (fun e => (e, fst it)) (edge_keys (snd it))) its.

Definition incidences (tris : list Triangle) : list (string * nat) :=
  incidences_of (indexed tris).

(** The triangles that carry the key [e], once for each of their edges that
    has it. *)
Definition carriers (inc : list (string * nat)) (e : string) : list nat :=
  map snd (filter (fun ei => String.eqb (fst ei) e) inc).

(** Two blended colours are similar: their distance over 441.67 is below
    the threshold. *)
Definition similar `{MathImpl} (threshold : Q) (c1 c2 : RGB) : bool :=
  ltb (colorDistance c1 c2 / 441.67) threshold.

Definition mean_area (tris : list Triangle) : Q :=
  fold_left (fun s t => s + area t) tris 0 / of_nat (List.length tris).

(** The edge-sharing neighbours of [it], each triangle once. *)
Definition neighbors_of (tris : list Triangle) (it : nat * Triangle) : list nat :=
  nodup Nat.eq_dec
    (flat_map
       (fun e =>
          match carriers (incidences tris) e with
          | [a; c] => [if (a =? fst it)%nat then c else a]
          | _ => []
          end)
       (edge_keys (snd it))).

(** How many edge-sharing neighbours of [it] have a similar blended
    colour. *)
Definition similar_neighbors `{MathImpl} (tris : list Triangle) (threshold : Q)
    (it : nat * Triangle) : nat :=
  List.length
    (filter (fun j => similar threshold (blended (snd it)) (blended (nth j tris no_triangle)))
            (neighbors_of tris it)).

Definition same_point (p q : XY) : Prop := x_of p == x_of q /\ y_of p == y_of q.

Definition squared_distance (p q : XY) : Q :=
  (x_of p - x_of q) * (x_of p - x_of q) + (y_of p - y_of q) * (y_of p - y_of q).

(** [distance(p, q) >= min(spacing(p), spacing(q))], both sides squared. *)
Definition spaced (spacing : Q -> Q -> Q) (p q : XY) : Prop :=
  let m := Qmin (spacing (x_of p) (y_of p)) (spacing (x_of q) (y_of q)) in
  m * m <= squared_distance p q.

(** The circle through the vertices of a triangle (C1). *)

(** The circle of centre [o] and squared radius [r2] passes through [a],
    [c1] and [c2]. *)
Definition circumcircle (a c1 c2 o : XY) (r2 : Q) : Prop :=
  squared_distance a o == r2 /\ squared_distance c1 o == r2 /\ squared_distance c2 o == r2.

(** [p] is in the interior of the circle through [a], [c1] and [c2]. *)
Definition inside_circumcircle (p a c1 c2 : XY) : Prop :=
  exists (o : XY) (r2 : Q), circumcircle a c1 c2 o r2 /\ squared_distance p o < r2.

(** The documented ranges, their ends read as binary64 literals;
    [top] is the upper end of [minShapeScale]. *)
Definition in_binary64_ranges (top : Q) (s : MoodSettings) : Prop :=
  (B64.lit 1 <= pathSmoothing s <= B64.lit 4) /\
  (B64.lit 1 <= overlapAmount s <= B64.lit 1.2) /\
  (B64.lit 0.6 <= shapeOpacity s <= B64.lit 0.98) /\
  (B64.lit 0.25 <= adaptiveSensitivity s <= B64.lit 0.70) /\
  (B64.lit 0.8 <= minShapeScale s <= top) /\
  (B64.lit 0.15 <= mergeThreshold s <= B64.lit 0.50) /\
  (B64.lit 0.35 <= gradientConsistency s <= B64.lit 0.90) /\
  (B64.lit 0 <= baseGradientOpacity s <= B64.lit 1).

(** The value that [minShapeScale] reaches at mood 100: the binary64 sum of
    0.8 and 0.4. *)
Definition minShapeScale_top : Q := B64.add (B64.lit 0.8) (B64.lit 0.4).

(** [m] is the median the source takes of the numbers of [l]: the element
    in the middle of [l] put in ascending order, the upper of the two
    middle ones when their number is even. *)
Definition is_median (m : Q) (l : list Q) : Prop :=
  exists s : list Q,
    Permutation s l /\ StronglySorted Qle s /\ nth_error s (List.length l / 2) = Some m.

(** The classification when similar neighbours are counted as triangles:
    the two outputs have the triangles of the input between them, and a
    triangle is in [primary] exactly when its area is at least 0.55 times
    the mean area and at least two of its neighbours are similar. *)
Definition classified_by_similar_neighbors (M : MathImpl) (tris : list Triangle)
    (threshold : Q) : Prop :=
  let (primary, detail) := B64.classifyShapes tris threshold in
  (List.length primary + List.length detail)%nat = List.length tris /\
  forall it, In it (indexed tris) ->
    (In (snd it) primary <->
     mean_area tris * 0.55 <= area (snd it)
     /\ (2 <= similar_neighbors tris threshold it)%nat).

(** The three points of [t] have one colour. *)
Definition one_colour (t : Triangle) : Prop :=
  let '(p0, p1, p2) := points t in
  pt_color p0 = pt_color p1 /\ pt_color p1 = pt_color p2.

(** ** Notions of the proofs *)

(** The triangulation: the two determinants of [Delaunay.inCircumcircle], the
    edges of a list of triangles, and the invariant of [Delaunay.run]. *)

(** [ori] and [det] of [Delaunay.inCircumcircle]. *)
Definition orient (a c1 c2 : XY) : Q :=
  (x_of a - x_of c2) * (y_of c1 - y_of c2) - (y_of a - y_of c2) * (x_of c1 - x_of c2).

Definition incircle_det (p a c1 c2 : XY) : Q :=
  let ax := x_of a - x_of p in
  let ay := y_of a - y_of p in
  let bx := x_of c1 - x_of p in
  let by_ := y_of c1 - y_of p in
  let cx := x_of c2 - x_of p in
  let cy := y_of c2 - y_of p in
  (ax * ax + ay * ay) * (bx * cy - cx * by_)
  - (bx * bx + by_ * by_) * (ax * cy - cx * ay)
  + (cx * cx + cy * cy) * (ax * by_ - bx * ay).

(** The scalar product of [u - w] and [v - w]. *)
Definition dot (u v w : XY) : Q :=
  (x_of u - x_of w) * (x_of v - x_of w) + (y_of u - y_of w) * (y_of v - y_of w).

(** Edges are directed; [rev_edge e] is [e] the other way round. *)
Definition rev_edge (e : Delaunay.Edge) : Delaunay.Edge := (snd e, fst e).

Definition edge_eqb (e e' : Delaunay.Edge) : bool :=
  (fst e =? fst e')%nat && (snd e =? snd e')%nat.

(** The directed edges of the triangles of [T]. *)
Definition all_edges (T : list Delaunay.Tri) : list Delaunay.Edge :=
  flat_map Delaunay.edges_of T.

(** The triangle [[e[0], e[1], i]] that [Delaunay.run] pushes for an edge of [poly]. *)
Definition new_triangle (k : nat) (e : Delaunay.Edge) : Delaunay.Tri := (fst e, snd e, k).

(** The edges of [EB] whose reverse is not in [EB]. *)
Definition boundary (EB : list Delaunay.Edge) : list Delaunay.Edge :=
  filter (fun e => negb (existsb (edge_eqb (rev_edge e)) EB)) EB.

(** [Delaunay.insert_point] with the triangles compared as values: the bad
    triangles leave, and every edge of the boundary of the bad ones carries
    a new triangle. *)
Definition insert_values (bad : Delaunay.Tri -> bool) (T : list Delaunay.Tri) (k : nat)
    : list Delaunay.Tri :=
  filter (fun t => negb (bad t)) T
  ++ map (new_triangle k) (boundary (all_edges (filter bad T))).

(** The three indices of a triangle differ. *)
Definition distinct_vertices (t : Delaunay.Tri) : Prop :=
  let '(t0, t1, t2) := t in t0 <> t1 /\ t1 <> t2 /\ t2 <> t0.

(** A triangle of indices read through the positions [P] of the indices. *)
Definition tri_vertices (t : Delaunay.Tri) : list nat :=
  let '(t0, t1, t2) := t in [t0; t1; t2].

Definition tri_orient (P : nat -> XY) (t : Delaunay.Tri) : Q :=
  let '(t0, t1, t2) := t in orient (P t0) (P t1) (P t2).

Definition tri_incircle (P : nat -> XY) (q : XY) (t : Delaunay.Tri) : Q :=
  let '(t0, t1, t2) := t in incircle_det q (P t0) (P t1) (P t2).

Definition tri_bad (P : nat -> XY) (q : XY) (t : Delaunay.Tri) : bool :=
  let '(t0, t1, t2) := t in Delaunay.inCircumcircle q (P t0) (P t1) (P t2).

(** The three edges of the super-triangle, as [Delaunay.run] directs them. *)
Definition super_edge (n : nat) (e : Delaunay.Edge) : Prop :=
  e = (n, n + 1)%nat \/ e = (n + 1, n + 2)%nat \/ e = (n + 2, n)%nat.

(** The indices in use when the points before [k] are inserted. *)
Definition valid (n k j : nat) : Prop := (j < k)%nat \/ (n <= j < n + 3)%nat.

(** What the loop over the points maintains when the points before [k] are
    inserted: the triangles are turned the same way; no index in use is
    inside the circle of a triangle; an edge is an edge of the super-triangle
    or has its reverse in the list; no directed edge occurs twice; the
    vertices are indices in use; and two vertices at the same place are one
    index. *)
Record invariant (P : nat -> XY) (n k : nat) (T : list Delaunay.Tri) : Prop := {
  inv_orient : forall t, In t T -> tri_orient P t < 0;
  inv_empty : forall t j, In t T -> valid n k j -> 0 <= tri_incircle P (P j) t;
  inv_closed : forall t e, In t T -> In e (Delaunay.edges_of t) ->
                 super_edge n e \/ In (rev_edge e) (all_edges T);
  inv_once : NoDup (all_edges T);
  inv_valid : forall t v, In t T -> In v (tri_vertices t) -> valid n k v;
  inv_apart : forall t t' u v, In t T -> In t' T ->
                In u (tri_vertices t) -> In v (tri_vertices t') ->
                same_point (P u) (P v) -> u = v
}.

(** The edges of [L] that leave, and that enter, the vertex [v]. *)
Definition leaving (v : nat) (L : list Delaunay.Edge) : list Delaunay.Edge :=
  filter (fun e => (fst e =? v)%nat) L.

Definition entering (v : nat) (L : list Delaunay.Edge) : list Delaunay.Edge :=
  filter (fun e => (snd e =? v)%nat) L.

(** The edges of [EB] whose reverse is in [EB]. *)
Definition interior (EB : list Delaunay.Edge) : list Delaunay.Edge :=
  filter (fun e => existsb (edge_eqb (rev_edge e)) EB) EB.

(** [all[i]] in [Delaunay.run]: the input points, then the super-triangle. *)
Definition all_point (pts : list XY) (i : nat) : XY :=
  nth i (pts ++ Delaunay.superTri pts) Delaunay.origin.

(** The centre of the circle through [a], [c1] and [c2]. *)
Definition circumcentre (a c1 c2 : XY) : XY :=
  let ux := x_of a - x_of c2 in
  let uy := y_of a - y_of c2 in
  let vx := x_of c1 - x_of c2 in
  let vy := y_of c1 - y_of c2 in
  let uu := ux * ux + uy * uy in
  let vv := vx * vx + vy * vy in
  let dd := 2 * orient a c1 c2 in
  mkXY (x_of c2 + (vy * uu - uy * vv) / dd) (y_of c2 + (ux * vv - vx * uu) / dd).

(** [superTri] for a box of centre [(mx, my)] and larger side [d]. *)
Definition super_triangle (mx my d : Q) : list XY :=
  [ mkXY (mx - 20 * d) (my - d); mkXY mx (my + 20 * d); mkXY (mx + 20 * d) (my - d) ].

(** [p] is at most [d / 2] away from [(mx, my)] along each axis. *)
Definition in_box (mx my d : Q) (p : XY) : Prop :=
  (- d <= 2 * (x_of p - mx) <= d) /\ (- d <= 2 * (y_of p - my) <= d).


(** Two canvases have the same pixels in the columns [0 .. W - 1] of the
    rows [0 .. H - 1]. *)
Definition agree_inside (W H : Z) (ctx ctx' : Canvas) : Prop :=
  forall px py, (0 <= px < W)%Z -> (0 <= py < H)%Z -> ctx px py = ctx' px py.

(** The values [v], [v + spacing], [v + spacing + spacing], ...: [k] of
    them. *)
Fixpoint arithmetic (k : nat) (v spacing : Q) : list Q :=
  match k with
  | O => []
  | S k' => v :: arithmetic k' (v + spacing) spacing
  end.

(** [k] is the number of the multiples [spacing], [2 spacing], ... that
    are below [limit]. *)
Definition multiples_below (k : nat) (spacing limit : Q) : Prop :=
  (forall i, (1 <= i <= k)%nat -> of_nat i * spacing < limit)
  /\ limit <= of_nat (k + 1) * spacing.

(** What [adaptivePoissonSampling] keeps true of its state on an image of
    [w] by [h]: the points are inside the image, the first one at its centre,
    and the indices of the active list and of the grid are indices of
    points. *)
Definition sampler_ok (w h : Q) (s : Sampler) : Prop :=
  (forall q, In q (pts s) -> (0 <= x_of q < w) /\ (0 <= y_of q < h))
  /\ (forall i, In i (active s) -> (i < List.length (pts s))%nat)
  /\ (forall i j idx, grid_get (grid s) i j = Some idx -> (idx < List.length (pts s))%nat)
  /\ nth_error (pts s) 0 = Some (mkXY (w / 2) (h / 2)).

(** What the grid of [adaptivePoissonSampling] holds: an index in the cell
    [(i, j)] is the index of a point that lies in that cell, and the cell
    is a cell of the grid. *)
Definition grid_located (w h baseMinDist : Q) (s : Sampler) : Prop :=
  forall i j idx, (0 <= i)%Z -> (0 <= j)%Z -> grid_get (grid s) i j = Some idx ->
    (i < gw w baseMinDist)%Z /\ (j < gh h baseMinDist)%Z
    /\ exists q, nth_error (pts s) idx = Some q
                 /\ Qfloor (x_of q / cell baseMinDist) = i
                 /\ Qfloor (y_of q / cell baseMinDist) = j.

(** The point [q] is in the grid of [s]. *)
Definition in_grid (s : Sampler) (q : XY) : Prop :=
  exists i j idx, (0 <= i)%Z /\ (0 <= j)%Z /\ grid_get (grid s) i j = Some idx
                  /\ nth_error (pts s) idx = Some q.

(** The point [q] is in the rectangle of the image, sides included. *)
Definition in_image (w h : Q) (q : XY) : Prop :=
  (0 <= x_of q <= w) /\ (0 <= y_of q <= h).

(** Every character of [s] is a digit. *)
Fixpoint all_digits (s : string) : bool :=
  match s with
  | String c s' => is_digit c && all_digits s'
  | EmptyString => true
  end.

(** What follows a run of digits is no digit. *)
Definition ends_digits (rest : string) : Prop :=
  match rest with
  | String c _ => is_digit c = false
  | EmptyString => True
  end.

(** A channel is a byte. *)
Definition byte_channel (v : Q) : Prop :=
  exists n : Z, (0 <= n <= 255)%Z /\ v = inject_Z n.

Definition byte_color (c : RGB) : Prop :=
  byte_channel (r c) /\ byte_channel (g c) /\ byte_channel (b c).



(** The points of [l] are in the box [[xlo, xhi] x [ylo, yhi]]. *)
Definition boxed (xlo xhi ylo yhi : Q) (l : list XY) : Prop :=
  forall p, In p l -> (xlo <= x_of p <= xhi) /\ (ylo <= y_of p <= yhi).

(** The rational that a primitive binary64 value of the kernel denotes;
    [None] for an infinity and for [NaN]. *)
Definition Q_of_float (f : PrimFloat.float) : option Q :=
  match FloatOps.Prim2SF f with
  | SpecFloat.S754_zero _ => Some 0
  | SpecFloat.S754_finite s m e =>
      Some (Qred ((if s then - 1 else 1) * inject_Z (Z.pos m) * 2 ^ e))
  | _ => None
  end.

(** The primitive binary64 value nearest to [n / d], for integers that are
    binary64 values. *)
Definition float_of_Z (z : Z) : PrimFloat.float :=
  if (z <? 0)%Z then PrimFloat.opp (PrimFloat.of_uint63 (Uint63.of_Z (- z)))
  else PrimFloat.of_uint63 (Uint63.of_Z z).

Definition float_of_Q (q : Q) : PrimFloat.float :=
  PrimFloat.div (float_of_Z (Qnum q)) (float_of_Z (Z.pos (Qden q))).

(** The four operations on [x] and [y] give, in the model, the values
    that the primitive operations of the kernel give. *)
Definition agrees_with_kernel (x y : Q) : bool :=
  let fx := float_of_Q x in
  let fy := float_of_Q y in
  let same (v : Q) (f : PrimFloat.float) :=
    match Q_of_float f with Some u => Qeq_bool u v | None => false end in
  same (B64.lit x) fx
  && same (B64.add (B64.lit x) (B64.lit y)) (PrimFloat.add fx fy)
  && same (B64.sub (B64.lit x) (B64.lit y)) (PrimFloat.sub fx fy)
  && same (B64.mul (B64.lit x) (B64.lit y)) (PrimFloat.mul fx fy)
  && (Qeq_bool y 0 || same (B64.div (B64.lit x) (B64.lit y)) (PrimFloat.div fx fy)).

(** Numbers of the source and of the examples. *)
Definition sample_numbers : list Q :=
  [ 0; 1; 2; 3; 4; 20; 24; 100; 237; 300; 441.67; 0.12; 0.15; 0.2; 0.25; 0.28; 0.3; 0.35;
    0.4; 0.45; 0.55; 0.6; 0.8; 0.97; 1.06; 1.2; 0.035; 0.11; 0.299; 0.587; 0.114;
    - 0.2; - 0.6; 1 # 3; 10 # 3; 0.0000001; 123456789.123; 2 # 1000000007 ].

(** ** Inputs of the examples *)

(** A triangle of area [a] with three grey vertices at the origin. *)
Definition sample_triangle (a : Q) : Triangle :=
  let p := mkPoint 0 0 "rgb(128, 128, 128)" in mkTriangle (p, p, p) (mkXY 0 0) a 0.

(** A canvas of one grey, and one whose red and green follow the column and
    the row. *)
Definition grey_canvas : Canvas := fun _ _ => (128, 128, 128)%Z.



(** The draws of one round of the sampler: the pick of the active point,
    then [n] attempts with the same angle and the same stretch. *)
Definition round_draws (pick angle stretch : Q) (n : nat) : list Q :=
  pick :: List.concat (repeat [angle; stretch] n).

(** Five rounds: the centre spawns a point at 225 degrees and distance 20,
    that point spawns one at 0 degrees and distance 20, and then the three
    points fail 30 attempts each. *)
Definition spacing_draws (k : nat) : Q :=
  nth k
      (round_draws 0 (5 # 8) (1 # 24) 1
       ++ round_draws (1 # 2) 0 (1 # 24) 1
       ++ round_draws 0 (3 # 4) 0 30
       ++ round_draws 0 (3 # 4) (9 # 10) 30
       ++ round_draws 0 (3 # 4) (9 # 10) 30)
      0.


(** Grey inside the 6 x 6 square, black around it. *)
Definition framed_canvas : Canvas :=
  fun px py =>
    if ((0 <=? px) && (px <? 6) && (0 <=? py) && (py <? 6))%Z then (128, 128, 128)%Z
    else (0, 0, 0)%Z.

(** Three triangles of areas 1, 2 and 3. *)
Definition three_triangles : list Triangle :=
  [ sample_triangle 1; sample_triangle 2; sample_triangle 3 ].


(** Three triangles of areas 237, 300 and the binary64 product of 237 and
    0.28, which prints as 66.36. *)
Definition rounded_cut_triangles : list Triangle :=
  [ sample_triangle 237; sample_triangle (B64.mul 237 (B64.lit 0.28)); sample_triangle 300 ].

(** Seven points of the grid of step 0.2, as binary64 values.  The first
    five are, as decimal points, on the circle of centre (0.6, 0.6). *)
Definition grid_points : list XY :=
  map (fun '(px, py) => mkXY (B64.lit px) (B64.lit py))
      [ (0.2, 0.4); (0.8, 0.2); (1.0, 0.4); (1.0, 0.8); (0.4, 0.2); (1.0, 0.6); (0.8, 0.4) ].

(** The triangle (0, 0), (10, 0), (0, 10) with three grey vertices. *)
Definition grey_corner : Triangle :=
  mkTriangle
    (mkPoint 0 0 "rgb(128, 128, 128)", mkPoint 10 0 "rgb(128, 128, 128)",
     mkPoint 0 10 "rgb(128, 128, 128)")
    (mkXY (B64.div 10 3) (B64.div 10 3)) 50 0.

(** ** Tactics *)

(** Unfolds the fields of [moodToSettings] and names the fraction [t]. *)
Ltac mood_fields mood t :=
  unfold moodToSettings;
  cbn [pathSmoothing overlapAmount shapeOpacity adaptiveSensitivity minShapeScale
       mergeThreshold gradientConsistency baseGradientOpacity];
  let Hfrac := fresh "Hfrac" in
  assert (Hfrac : mood / 100 == mood * (1 # 100)) by reflexivity;
  set (t := mood / 100) in *; clearbody t.

(** Unfolds the determinants of the triangulation to the coordinates. *)
Ltac points := unfold orient, incircle_det, squared_distance, dot; cbv zeta.

(** * Part II: properties *)

(** ** Comparisons of numbers *)

Lemma ltb_lt (a c : Q) : ltb a c = true <-> a < c.
Proof.
  unfold ltb. rewrite negb_true_iff, <- not_true_iff_false, Qle_bool_iff.
  split; intro Hlt; [apply Qnot_le_lt | apply Qlt_not_le]; exact Hlt.
Qed.

Lemma ltb_ge (a c : Q) : ltb a c = false <-> c <= a.
Proof. unfold ltb. rewrite negb_false_iff. apply Qle_bool_iff. Qed.

Lemma gtb_gt (a c : Q) : gtb a c = true <-> c < a.
Proof. apply ltb_lt. Qed.

Lemma gtb_le (a c : Q) : gtb a c = false <-> a <= c.
Proof. apply ltb_ge. Qed.

Lemma geb_ge (a c : Q) : geb a c = true <-> c <= a.
Proof. apply Qle_bool_iff. Qed.

Lemma leb_le (a c : Q) : leb a c = true <-> a <= c.
Proof. apply Qle_bool_iff. Qed.

Lemma Math_floor_mono (u v : Q) : u <= v -> Math_floor u <= Math_floor v.
Proof.
  intro Huv. unfold Math_floor. rewrite <- Zle_Qle. now apply Qfloor_resp_le.
Qed.

(** ** Mood *)

(** C10.  Whatever the mood and the size of the image, the base spacing is
    at least 24 pixels. *)
Theorem moodToMinDistance_at_least_24 (mood width height : Q) :
  24 <= moodToMinDistance mood width height.
Proof.
  unfold moodToMinDistance, Math_max.
  apply Q.le_max_r.
Qed.

(** ** Path smoothing *)

Lemma flat_map_pairs_length {A B : Type} (f : A -> list B) (l : list A) :
  (forall a, List.length (f a) = 2%nat) ->
  List.length (flat_map f l) = (2 * List.length l)%nat.
Proof.
  intro Hf. induction l as [| a l IH]; simpl; [reflexivity |].
  rewrite length_app, Hf, IH. lia.
Qed.

Lemma chaikin_round_length (rs : list XY) :
  List.length (chaikin_round rs) = (2 * List.length rs)%nat.
Proof.
  unfold chaikin_round. rewrite flat_map_pairs_length by reflexivity.
  now rewrite length_seq.
Qed.

Lemma chaikin_iter_length (k : nat) (rs : list XY) :
  List.length (Nat.iter k chaikin_round rs) = (List.length rs * 2 ^ k)%nat.
Proof.
  induction k as [| k IH]; simpl.
  - lia.
  - rewrite chaikin_round_length, IH. lia.
Qed.

Lemma successor_points (rs : list XY) (d : XY) :
  map (fun i => nth ((i + 1) mod List.length rs) rs d) (seq 0 (List.length rs))
  = tl rs ++ firstn 1 rs.
Proof.
  destruct rs as [| a rs]; [reflexivity |].
  cbn [tl firstn]. set (n := List.length (a :: rs)).
  apply nth_ext with (d := d) (d' := d).
  - rewrite length_map, length_seq, length_app. subst n. simpl. lia.
  - intros i Hi. rewrite length_map, length_seq in Hi.
    rewrite (nth_indep _ d (nth ((0 + 1) mod n) (a :: rs) d))
      by (rewrite length_map, length_seq; exact Hi).
    rewrite (map_nth (fun i => nth ((i + 1) mod n) (a :: rs) d)).
    rewrite seq_nth by exact Hi. cbn [Nat.add].
    assert (Hn : n = S (List.length rs)) by reflexivity.
    destruct (Nat.eq_dec (S i) n) as [Hlast | Hmid].
    + replace ((i + 1) mod n)%nat with 0%nat
        by (replace (i + 1)%nat with n by lia; now rewrite Nat.Div0.mod_same).
      rewrite app_nth2 by lia.
      replace (i - List.length rs)%nat with 0%nat by lia. reflexivity.
    + rewrite Nat.mod_small by lia.
      rewrite app_nth1 by lia.
      replace (i + 1)%nat with (S i) by lia. reflexivity.
Qed.

Lemma listed_points (rs : list XY) (d : XY) :
  map (fun i => nth i rs d) (seq 0 (List.length rs)) = rs.
Proof.
  apply nth_ext with (d := d) (d' := d).
  - now rewrite length_map, length_seq.
  - intros i Hi. rewrite length_map, length_seq in Hi.
    rewrite (nth_indep _ d (nth 0 rs d)) by (rewrite length_map, length_seq; exact Hi).
    rewrite (map_nth (fun i => nth i rs d)), seq_nth by exact Hi. reflexivity.
Qed.

Lemma combine_maps {A B C : Type} (f : A -> B) (k : A -> C) (l : list A) :
  combine (map f l) (map k l) = map (fun a => (f a, k a)) l.
Proof. induction l as [| a l IH]; simpl; [| rewrite IH]; reflexivity. Qed.

Lemma chaikin_round_cuts_corners (rs : list XY) :
  chaikin_round rs = flat_map cut_corner (cyclic_edges rs).
Proof.
  assert (Hedges : cyclic_edges rs
                   = map (fun i => (nth i rs (mkXY 0 0),
                                    nth ((i + 1) mod List.length rs) rs (mkXY 0 0)))
                         (seq 0 (List.length rs))).
  { unfold cyclic_edges.
    now rewrite <- combine_maps, listed_points, successor_points. }
  rewrite Hedges, flat_map_concat_map, map_map, <- flat_map_concat_map.
  reflexivity.
Qed.

Lemma chaikinSmooth_rounds (pts : list XY) (k : nat) :
  (0 < k)%nat -> chaikinSmooth pts (of_nat k) = Nat.iter k chaikin_round pts.
Proof.
  intro Hk. unfold chaikinSmooth.
  assert (Hpos : 0 < of_nat k).
  { unfold of_nat. change 0 with (inject_Z 0). rewrite <- Zlt_Qlt. lia. }
  destruct (leb (of_nat k) 0) eqn:Hle.
  - apply leb_le in Hle. lra.
  - unfold of_nat. now rewrite Qceiling_Z, Nat2Z.id.
Qed.

(** C6.  With 0 iterations [chaikinSmooth] returns its input; with [k > 0]
    iterations it runs [k] rounds and returns [length pts * 2 ^ k] points;
    and a round replaces every edge [(a, c)] of the closed polygon by
    [0.75 a + 0.25 c] and [0.25 a + 0.75 c], in the order of the edges. *)
Theorem chaikinSmooth_closure (pts : list XY) :
  chaikinSmooth pts 0 = pts /\
  (forall k : nat, (0 < k)%nat ->
     chaikinSmooth pts (of_nat k) = Nat.iter k chaikin_round pts /\
     List.length (chaikinSmooth pts (of_nat k)) = (List.length pts * 2 ^ k)%nat) /\
  (forall rs : list XY, chaikin_round rs = flat_map cut_corner (cyclic_edges rs)).
Proof.
  split; [reflexivity | split].
  - intros k Hk. rewrite (chaikinSmooth_rounds pts k Hk).
    split; [reflexivity | apply chaikin_iter_length].
  - exact chaikin_round_cuts_corners.
Qed.

(** The theorem on a triangle smoothed twice: 12 points. *)
Lemma chaikinSmooth_closure_witness :
  List.length (chaikinSmooth [mkXY 0 0; mkXY 4 0; mkXY 0 4] (of_nat 2)) = (3 * 2 ^ 2)%nat.
Proof.
  destruct (chaikinSmooth_closure [mkXY 0 0; mkXY 4 0; mkXY 0 4]) as (_ & Hk & _).
  destruct (Hk 2%nat) as [_ Hlen]; [lia | exact Hlen].
Defined.

(** ** Triangulation: indices and small inputs *)

Lemma run_triangles_bounded (pts : list XY) (t0 t1 t2 : nat) :
  In (t0, t1, t2) (Delaunay.run_triangles pts) ->
  (t0 < List.length pts /\ t1 < List.length pts /\ t2 < List.length pts)%nat.
Proof.
  unfold Delaunay.run_triangles.
  destruct (List.length pts <? 3)%nat; [intros [] |].
  intros Hin. apply filter_In in Hin. destruct Hin as [_ Hlt].
  apply andb_prop in Hlt. destruct Hlt as [Hlt Hlt2].
  apply andb_prop in Hlt. destruct Hlt as [Hlt0 Hlt1].
  apply Nat.ltb_lt in Hlt0, Hlt1, Hlt2. auto.
Qed.

Lemma run_bounded (pts : list XY) :
  Forall (fun i => (i < List.length pts)%nat) (Delaunay.run pts).
Proof.
  apply Forall_forall. intros i Hin. unfold Delaunay.run in Hin.
  apply in_flat_map in Hin. destruct Hin as [[[t0 t1] t2] [Ht Hi]].
  apply run_triangles_bounded in Ht. simpl in Hi.
  destruct Hi as [<- | [<- | [<- | []]]]; tauto.
Qed.

Lemma triangles_of_defined `{MathImpl} (ctx : Canvas) (pts : list XY) (w h : Q)
    (tris : list Delaunay.Tri) :
  (forall t0 t1 t2, In (t0, t1, t2) tris ->
     (t0 < List.length pts /\ t1 < List.length pts /\ t2 < List.length pts)%nat) ->
  exists ts,
    triangles_of ctx pts w h (flat_map (fun '(t0, t1, t2) => [t0; t1; t2]) tris) = Some ts
    /\ List.length ts = List.length tris.
Proof.
  induction tris as [| [[t0 t1] t2] tris IH]; intros Hb.
  - exists []. split; reflexivity.
  - destruct IH as [ts [Hts Hlen]].
    { intros u0 u1 u2 Hin. apply Hb. now right. }
    destruct (Hb t0 t1 t2 (or_introl eq_refl)) as (H0 & H1 & H2).
    apply nth_error_Some in H0, H1, H2.
    cbn [flat_map app triangles_of].
    destruct (nth_error pts t0) as [p0 |]; [| contradiction].
    destruct (nth_error pts t1) as [p1 |]; [| contradiction].
    destruct (nth_error pts t2) as [p2 |]; [| contradiction].
    rewrite Hts. eexists. split; [reflexivity |]. simpl. now rewrite Hlen.
Qed.

(** C7.  Every triangle of the triangulation has its three vertices among
    the input points, none among the three vertices [n], [n + 1], [n + 2]
    of the super-triangle; every emitted index is an index of the input
    array, and [triangulate], which reads the input array at these indices,
    never reads outside it. *)
Theorem triangulation_indices_in_bounds (pts : list XY) :
  (forall t0 t1 t2, In (t0, t1, t2) (Delaunay.run_triangles pts) ->
     (t0 < List.length pts /\ t1 < List.length pts /\ t2 < List.length pts)%nat) /\
  Forall (fun i => (i < List.length pts)%nat) (Delaunay.run pts) /\
  (forall i, In i (Delaunay.run pts) -> exists p, nth_error pts i = Some p) /\
  (forall (M : MathImpl) (ctx : Canvas) (w h : Q),
     exists ts, triangulate ctx pts w h = Some ts).
Proof.
  split; [exact (run_triangles_bounded pts) | split; [exact (run_bounded pts) | split]].
  - intros i Hin.
    pose proof (proj1 (Forall_forall _ _) (run_bounded pts) i Hin) as Hlt.
    apply nth_error_Some in Hlt.
    destruct (nth_error pts i) as [p |]; [now exists p | contradiction].
  - intros M ctx w h. unfold triangulate, Delaunay.run.
    destruct (triangles_of_defined ctx pts w h (Delaunay.run_triangles pts)
                (run_triangles_bounded pts)) as [ts [Hts _]].
    rewrite Hts. now eexists.
Qed.

(** C8.  With fewer than three points the triangulation is the empty
    list of indices, and [triangulate] returns the empty list of triangles
    without reading a point. *)
Theorem triangulate_few_points `{MathImpl} (ctx : Canvas) (pts : list XY) (w h : Q) :
  (List.length pts < 3)%nat ->
  Delaunay.run pts = [] /\ triangulate ctx pts w h = Some [].
Proof.
  intro Hfew.
  assert (Hrun : Delaunay.run pts = []).
  { unfold Delaunay.run, Delaunay.run_triangles.
    apply Nat.ltb_lt in Hfew. now rewrite Hfew. }
  split; [exact Hrun |].
  unfold triangulate. now rewrite Hrun.
Qed.

(** ** Micro-triangle culling *)

Lemma insert_sorted_length (v : Q) (l : list Q) :
  List.length (insert_sorted v l) = S (List.length l).
Proof.
  induction l as [| u l IH]; simpl; [reflexivity |].
  destruct (ltb v u); simpl; [| rewrite IH]; reflexivity.
Qed.

Lemma sort_from_length (l acc : list Q) :
  List.length (fold_left (fun acc v => insert_sorted v acc) l acc)
  = (List.length l + List.length acc)%nat.
Proof.
  revert acc. induction l as [| v l IH]; intro acc; simpl; [reflexivity |].
  rewrite IH, insert_sorted_length. lia.
Qed.

Lemma sort_ascending_length (l : list Q) :
  List.length (sort_ascending l) = List.length l.
Proof. unfold sort_ascending. rewrite sort_from_length. simpl. lia. Qed.

Lemma insert_sorted_perm (v : Q) (l : list Q) : Permutation (v :: l) (insert_sorted v l).
Proof.
  induction l as [| u l IH]; simpl; [reflexivity |].
  destruct (ltb v u); [reflexivity |].
  rewrite perm_swap. now constructor.
Qed.

Lemma sort_from_perm (l acc : list Q) :
  Permutation (l ++ acc) (fold_left (fun acc v => insert_sorted v acc) l acc).
Proof.
  revert acc. induction l as [| v l IH]; intro acc; simpl; [reflexivity |].
  rewrite <- IH, <- insert_sorted_perm. apply Permutation_middle.
Qed.

(** The sorted array holds the areas, each as often as the input does. *)
Lemma sort_ascending_perm (l : list Q) : Permutation l (sort_ascending l).
Proof.
  unfold sort_ascending. rewrite <- sort_from_perm. now rewrite app_nil_r.
Qed.

Lemma insert_sorted_sorted (v : Q) (l : list Q) :
  StronglySorted Qle l -> StronglySorted Qle (insert_sorted v l).
Proof.
  induction 1 as [| u l Hs IH Hall]; simpl.
  - repeat constructor.
  - destruct (ltb v u) eqn:Hvu.
    + apply ltb_lt in Hvu. constructor; [now constructor |].
      constructor; [now apply Qlt_le_weak |].
      eapply Forall_impl; [| exact Hall].
      intros a Ha. apply Qlt_le_weak. eapply Qlt_le_trans; eassumption.
    + apply ltb_ge in Hvu. constructor; [exact IH |].
      apply (Permutation_Forall (insert_sorted_perm v l)).
      now constructor.
Qed.

Lemma sort_from_sorted (l acc : list Q) :
  StronglySorted Qle acc ->
  StronglySorted Qle (fold_left (fun acc v => insert_sorted v acc) l acc).
Proof.
  revert acc. induction l as [| v l IH]; intros acc Hacc; simpl; [exact Hacc |].
  now apply IH, insert_sorted_sorted.
Qed.

(** The sorted array is in ascending order. *)
Lemma sort_ascending_sorted (l : list Q) : StronglySorted Qle (sort_ascending l).
Proof. apply sort_from_sorted. constructor. Qed.

(** The theorem on two points. *)
Lemma triangulate_few_points_witness :
  Delaunay.run [mkXY 0 0; mkXY 10 5] = []
  /\ triangulate (H := RefMath) grey_canvas [mkXY 0 0; mkXY 10 5] 100 100 = Some [].
Proof.
  apply (triangulate_few_points (H := RefMath)). simpl. lia.
Defined.

(** ** The direction of the base gradient *)

Section FarthestPair.

Context {M : MathImpl}.
Variable samples : list DominantColor.





End FarthestPair.


Lemma colorDistance_self {M : MathImpl} (a : RGB) :
  sqrt_respects_numbers M -> colorDistance a a == 0.
Proof.
  intros [Hproper Hzero]. unfold colorDistance. rewrite <- Hzero. apply Hproper. ring.
Qed.


(** Every sample is the region average at the centre of a cell of the
    6 x 6 grid. *)
Lemma grid_samples_In (ctx : Canvas) (w h : Q) (s : DominantColor) :
  In s (grid_samples ctx w h) ->
  exists gx gy : nat,
    (gx < 6)%nat /\ (gy < 6)%nat /\
    let cx := (of_nat gx + 0.5) * (w / 6) in
    let cy := (of_nat gy + 0.5) * (h / 6) in
    s = mkDominant (sampleRegionAvg ctx cx cy (Math_min (w / 6) (h / 6) * 0.3) w h)
                   (mkXY cx cy) 1.
Proof.
  unfold grid_samples. intro Hin.
  apply in_flat_map in Hin. destruct Hin as [gy [Hgy Hin]].
  apply in_map_iff in Hin. destruct Hin as [gx [<- Hgx]].
  apply in_seq in Hgy, Hgx. exists gx, gy.
  split; [lia | split; [lia | reflexivity]].
Qed.




Lemma RefMath_sqrt : sqrt_respects_numbers RefMath.
Proof.
  split.
  - intros u v Huv. cbn [Math_sqrt RefMath]. unfold sqrt_fixed.
    rewrite !Qred_correct.
    assert (Hfloor : Qfloor (u * 1000000000000000000000000)
                     = Qfloor (v * 1000000000000000000000000))
      by (apply Qfloor_comp; now rewrite Huv).
    now rewrite Hfloor.
  - reflexivity.
Qed.


(** ** Shape classification *)

(** C2 fails on the code.  On a list that holds the triangle (0, 0),
    (10, 0), (0, 10) twice, with the threshold 0.15 of mood 0, the two
    triangles share their three edges: each has one neighbour, which
    [classifyShapes] counts three times, once for each shared edge, so
    that both triangles are put in [primary], where a triangle needs two
    similar neighbours. *)
Theorem classifyShapes_counts_neighbor_per_edge :
  B64.classifyShapes (H := RefMath) [grey_corner; grey_corner] (B64.lit 0.15)
  = ([grey_corner; grey_corner], [])
  /\ neighbors_of [grey_corner; grey_corner] (0%nat, grey_corner) = [1%nat]
  /\ similar_neighbors (H := RefMath) [grey_corner; grey_corner] (B64.lit 0.15)
                       (0%nat, grey_corner) = 1%nat
  /\ ~ classified_by_similar_neighbors RefMath [grey_corner; grey_corner] (B64.lit 0.15).
Proof.
  assert (Hrun : B64.classifyShapes (H := RefMath) [grey_corner; grey_corner] (B64.lit 0.15)
                 = ([grey_corner; grey_corner], [])) by (vm_compute; reflexivity).
  assert (Hcount : similar_neighbors (H := RefMath) [grey_corner; grey_corner] (B64.lit 0.15)
                                     (0%nat, grey_corner) = 1%nat) by (vm_compute; reflexivity).
  split; [exact Hrun | split; [vm_compute; reflexivity | split; [exact Hcount |]]].
  unfold classified_by_similar_neighbors. rewrite Hrun.
  intros [_ Hiff].
  destruct (Hiff (0%nat, grey_corner)) as [Hprimary _].
  - left. reflexivity.
  - destruct Hprimary as [_ Hc]; [left; reflexivity |].
    rewrite Hcount in Hc. lia.
Qed.

(** ** Adaptive Poisson disk sampling *)

(** C3 fails on the code.  On a grey image of 100 x 100 at mood 0, where the
    spacing is 19.2 everywhere and a cell of the grid is 16.97 wide, the
    centre (50, 50) spawns (35.86, 35.86) in its own cell, 20 away; the
    grid keeps one index for a cell, so the centre leaves it; the new
    point spawns (55.86, 35.86), which is accepted 15.3 away from the
    centre.  The run ends after five rounds with these three points. *)
Theorem adaptivePoissonSampling_spacing_broken :
  exists accepted : list XY,
    adaptivePoissonSampling (M := RefMath) grey_canvas 100 100
      (moodToMinDistance 0 100 100) (moodToSettings 0) 30 spacing_draws 5
    = Some accepted /\
    Forall2 same_point accepted
      [ mkXY 50 50;
        mkXY 35.857864376269048 35.857864376269048;
        mkXY 55.857864376269048 35.857864376269048 ] /\
    exists a c : XY,
      nth_error accepted 0 = Some a /\ nth_error accepted 2 = Some c /\
      ~ spaced (localDist (M := RefMath) grey_canvas 100 100
                  (moodToMinDistance 0 100 100) (moodToSettings 0)) a c /\
      squared_distance a c < 235 /\
      localDist (M := RefMath) grey_canvas 100 100
        (moodToMinDistance 0 100 100) (moodToSettings 0) (x_of a) (y_of a) == 19.2 /\
      localDist (M := RefMath) grey_canvas 100 100
        (moodToMinDistance 0 100 100) (moodToSettings 0) (x_of c) (y_of c) == 19.2.
Proof.
  eexists. split; [vm_compute; reflexivity |].
  split.
  - repeat constructor; vm_compute; reflexivity.
  - eexists. eexists.
    split; [reflexivity | split; [reflexivity |]].
    split; [| split; [| split]].
    + unfold spaced. apply Qlt_not_le. vm_compute. reflexivity.
    + vm_compute. reflexivity.
    + vm_compute. reflexivity.
    + vm_compute. reflexivity.
Qed.
(** ** Delaunay triangulation: the empty circumcircle *)

(** The loop of [Delaunay.run] over the points maintains [invariant] on
    [tris].  The proof rests on two determinants: [orient], whose sign is
    the side of a line, and [incircle_det], whose sign is the side of the
    circle through a triangle that is turned as the super-triangle is.  An
    identity ([pencil]) relates the circles through two points; the edges
    of the bad triangles are counted vertex by vertex. *)

(** *** The two determinants *)

Lemma inCircumcircle_unfold p a c1 c2 :
  Delaunay.inCircumcircle p a c1 c2
  = if gtb (orient a c1 c2) 0 then gtb (incircle_det p a c1 c2) 0
    else ltb (incircle_det p a c1 c2) 0.
Proof. reflexivity. Qed.

Lemma orient_swap a c1 c2 : orient c1 a c2 == - orient a c1 c2.
Proof. points. ring. Qed.

Lemma orient_swap_last a c1 c2 : orient a c2 c1 == - orient a c1 c2.
Proof. points. ring. Qed.

Lemma incircle_swap p a c1 c2 : incircle_det p c1 a c2 == - incircle_det p a c1 c2.
Proof. points. ring. Qed.

Lemma incircle_exchange_last p a c1 c2 : incircle_det c2 a c1 p == - incircle_det p a c1 c2.
Proof. points. ring. Qed.

Lemma incircle_exchange_first p a c1 c2 : incircle_det a p c1 c2 == - incircle_det p a c1 c2.
Proof. points. ring. Qed.

Lemma incircle_exchange_mid p a c1 c2 : incircle_det c1 a p c2 == - incircle_det p a c1 c2.
Proof. points. ring. Qed.

Lemma incircle_vertex a c1 p : incircle_det p a c1 p == 0.
Proof. points. ring. Qed.

(** The circles through [a] and [c1]. *)
Lemma pencil q a c1 c2 p :
  incircle_det q a c1 p * orient a c1 c2 - incircle_det q a c1 c2 * orient a c1 p
  == incircle_det c2 a c1 p * orient a c1 q.
Proof. points. ring. Qed.

(** The power of [q] with respect to the circle through [a], [c1], [c2]. *)
Lemma power_of_point q a c1 c2 :
  incircle_det q a c1 c2
  == dot a c1 c2 * orient a c1 q - dot a c1 q * orient a c1 c2.
Proof. points. ring. Qed.

Lemma lagrange a c1 q :
  squared_distance a q * squared_distance c1 q
  == dot a c1 q * dot a c1 q + orient a c1 q * orient a c1 q.
Proof. points. ring. Qed.

Lemma sum_of_squares_zero (u v : Q) : u * u + v * v == 0 -> u == 0 /\ v == 0.
Proof. intro Hz. split; nra. Qed.

Lemma squared_distance_zero p q : squared_distance p q == 0 -> same_point p q.
Proof.
  unfold squared_distance, same_point. intro Hz.
  apply sum_of_squares_zero in Hz. destruct Hz as [Hx Hy]. split; lra.
Qed.

Lemma incircle_centre p a c1 c2 o r2 :
  circumcircle a c1 c2 o r2 ->
  incircle_det p a c1 c2 == orient a c1 c2 * (r2 - squared_distance p o).
Proof.
  intros (Ha & Hb & Hc).
  assert (Hid : incircle_det p a c1 c2
                == orient a c1 c2 * (r2 - squared_distance p o)
                   + (squared_distance a o - r2)
                     * ((x_of c1 - x_of p) * (y_of c2 - y_of p)
                        - (x_of c2 - x_of p) * (y_of c1 - y_of p))
                   - (squared_distance c1 o - r2)
                     * ((x_of a - x_of p) * (y_of c2 - y_of p)
                        - (x_of c2 - x_of p) * (y_of a - y_of p))
                   + (squared_distance c2 o - r2)
                     * ((x_of a - x_of p) * (y_of c1 - y_of p)
                        - (x_of c1 - x_of p) * (y_of a - y_of p)))
    by (points; ring).
  rewrite Hid, Ha, Hb, Hc. ring.
Qed.

(** For a triangle that is not flat, the test of the source is the
    interior of the circumcircle. *)
Lemma inCircumcircle_outside p a c1 c2 :
  ~ orient a c1 c2 == 0 ->
  Delaunay.inCircumcircle p a c1 c2 = false -> ~ inside_circumcircle p a c1 c2.
Proof.
  intros Hori Hin (o & r2 & Hcirc & Hlt).
  rewrite inCircumcircle_unfold in Hin.
  pose proof (incircle_centre p a c1 c2 o r2 Hcirc) as Hdet.
  destruct (gtb (orient a c1 c2) 0) eqn:Hpos.
  - apply gtb_gt in Hpos. apply gtb_le in Hin. nra.
  - apply gtb_le in Hpos. apply ltb_ge in Hin. nra.
Qed.

(** *** Signs on the circles through two points *)

(** The new triangle is on the side of the bad one. *)
Lemma new_triangle_side a c1 c2 z k :
  orient a c1 c2 < 0 -> 0 < orient a c1 z ->
  incircle_det k a c1 c2 < 0 -> 0 <= incircle_det z a c1 c2 ->
  incircle_det k a c1 z <= 0 ->
  orient a c1 k < 0.
Proof.
  intros Hc Hz Hk Hzc Hkz.
  pose proof (pencil k a c1 c2 z) as Hp.
  pose proof (incircle_exchange_last z a c1 c2) as Hx.
  set (Dkz := incircle_det k a c1 z) in *.
  set (Dkc := incircle_det k a c1 c2) in *.
  set (Dcz := incircle_det c2 a c1 z) in *.
  set (Dzc := incircle_det z a c1 c2) in *.
  set (Oc := orient a c1 c2) in *. set (Oz := orient a c1 z) in *.
  set (Ok := orient a c1 k) in *.
  clearbody Dkz Dkc Dcz Dzc Oc Oz Ok.
  assert (0 < Dkz * Oc - Dkc * Oz) by nra.
  nra.
Qed.

(** No valid point on the side of the bad triangle is inside the new one. *)
Lemma new_triangle_empty_near a c1 c2 k q :
  orient a c1 c2 < 0 -> orient a c1 k < 0 -> orient a c1 q <= 0 ->
  incircle_det k a c1 c2 < 0 -> 0 <= incircle_det q a c1 c2 ->
  0 <= incircle_det q a c1 k.
Proof.
  intros Hc Hk Hq Hkc Hqc.
  pose proof (pencil q a c1 c2 k) as Hp.
  pose proof (incircle_exchange_last k a c1 c2) as Hx.
  set (Dqk := incircle_det q a c1 k) in *.
  set (Dqc := incircle_det q a c1 c2) in *.
  set (Dck := incircle_det c2 a c1 k) in *.
  set (Dkc := incircle_det k a c1 c2) in *.
  set (Oc := orient a c1 c2) in *. set (Oq := orient a c1 q) in *.
  set (Ok := orient a c1 k) in *.
  clearbody Dqk Dqc Dck Dkc Oc Oq Ok.
  assert (Dqk * Oc <= 0) by nra.
  nra.
Qed.

(** Nor any valid point on the other side, beyond a triangle that is not
    bad. *)
Lemma new_triangle_empty_far a c1 z k q :
  0 < orient a c1 z -> orient a c1 k < 0 -> 0 < orient a c1 q ->
  incircle_det k a c1 z <= 0 -> incircle_det q a c1 z <= 0 ->
  0 <= incircle_det q a c1 k.
Proof.
  intros Hz Hk Hq Hkz Hqz.
  pose proof (pencil q a c1 z k) as Hp.
  pose proof (incircle_exchange_last k a c1 z) as Hx.
  set (Dqk := incircle_det q a c1 k) in *.
  set (Dqz := incircle_det q a c1 z) in *.
  set (Dzk := incircle_det z a c1 k) in *.
  set (Dkz := incircle_det k a c1 z) in *.
  set (Oz := orient a c1 z) in *. set (Oq := orient a c1 q) in *.
  set (Ok := orient a c1 k) in *.
  clearbody Dqk Dqz Dzk Dkz Oz Oq Ok.
  assert (0 <= Dqk * Oz) by nra.
  nra.
Qed.

(** A point [q] on the circle of the new triangle on the edge [(a, c1)] is
    not strictly on the side of the bad triangle. *)
Lemma cocircular_side a c1 c2 k q :
  orient a c1 c2 < 0 -> orient a c1 k < 0 ->
  incircle_det k a c1 c2 < 0 -> 0 <= incircle_det q a c1 c2 ->
  incircle_det q a c1 k == 0 ->
  0 <= orient a c1 q.
Proof.
  intros Hc Hk Hkc Hqc Hqk.
  pose proof (pencil q a c1 c2 k) as Hp.
  pose proof (incircle_exchange_last k a c1 c2) as Hx.
  set (Dqk := incircle_det q a c1 k) in *.
  set (Dqc := incircle_det q a c1 c2) in *.
  set (Dck := incircle_det c2 a c1 k) in *.
  set (Dkc := incircle_det k a c1 c2) in *.
  set (Oc := orient a c1 c2) in *. set (Oq := orient a c1 q) in *.
  set (Ok := orient a c1 k) in *.
  clearbody Dqk Dqc Dck Dkc Oc Oq Ok.
  assert (Hprod : Dck * Oq == - (Dqc * Ok)) by nra.
  assert (0 <= Dck * Oq) by nra.
  nra.
Qed.

(** A point on the line of [a] and [c1] and on a circle through them is
    one of the two. *)
Lemma line_meets_circle a c1 k q :
  ~ orient a c1 k == 0 -> orient a c1 q == 0 -> incircle_det q a c1 k == 0 ->
  same_point a q \/ same_point c1 q.
Proof.
  intros Hk Hq Hqk.
  pose proof (power_of_point q a c1 k) as Hpow.
  pose proof (lagrange a c1 q) as Hlag.
  rewrite Hq, Hqk in *.
  assert (Hdot : dot a c1 q == 0).
  { assert (Hz : dot a c1 q * orient a c1 k == 0) by lra.
    apply Qmult_integral in Hz. destruct Hz as [Hz | Hz]; [exact Hz | contradiction]. }
  rewrite Hdot in Hlag.
  assert (Hz : squared_distance a q * squared_distance c1 q == 0) by lra.
  apply Qmult_integral in Hz.
  destruct Hz as [Hz | Hz]; [left | right]; now apply squared_distance_zero.
Qed.

(** [orient] and [incircle_det] are functions of the positions. *)
Lemma orient_same a a' c1 c1' c2 c2' :
  same_point a a' -> same_point c1 c1' -> same_point c2 c2' ->
  orient a c1 c2 == orient a' c1' c2'.
Proof.
  intros [Ha Ha'] [Hb Hb'] [Hc Hc']. unfold orient.
  now rewrite Ha, Ha', Hb, Hb', Hc, Hc'.
Qed.

Lemma incircle_same p p' a a' c1 c1' c2 c2' :
  same_point p p' -> same_point a a' -> same_point c1 c1' -> same_point c2 c2' ->
  incircle_det p a c1 c2 == incircle_det p' a' c1' c2'.
Proof.
  intros [Hp Hp'] [Ha Ha'] [Hb Hb'] [Hc Hc']. unfold incircle_det. cbv zeta.
  now rewrite Hp, Hp', Ha, Ha', Hb, Hb', Hc, Hc'.
Qed.

Lemma orient_flat_first a c : orient a a c == 0.
Proof. points. ring. Qed.
Lemma orient_flat_last a c : orient a c a == 0.
Proof. points. ring. Qed.
Lemma orient_flat_mid a c : orient c a a == 0.
Proof. points. ring. Qed.

(** *** The bounding box *)

Lemma improve_min (l : list Q) (m : Q) :
  exists m', fold_left (Delaunay.improve ltb) l (Some m) = Some m'
             /\ m' <= m /\ forall v, In v l -> m' <= v.
Proof.
  revert m. induction l as [| u l IH]; intro m; cbn [fold_left].
  - exists m. split; [reflexivity | split; [lra | intros v []]].
  - unfold Delaunay.improve at 2. destruct (ltb u m) eqn:Hum.
    + apply ltb_lt in Hum. destruct (IH u) as (m' & Hf & Hle & Hall).
      exists m'. split; [exact Hf | split; [lra |]].
      intros v [<- | Hv]; [exact Hle | now apply Hall].
    + apply ltb_ge in Hum. destruct (IH m) as (m' & Hf & Hle & Hall).
      exists m'. split; [exact Hf | split; [lra |]].
      intros v [<- | Hv]; [lra | now apply Hall].
Qed.

Lemma improve_max (l : list Q) (m : Q) :
  exists m', fold_left (Delaunay.improve gtb) l (Some m) = Some m'
             /\ m <= m' /\ forall v, In v l -> v <= m'.
Proof.
  revert m. induction l as [| u l IH]; intro m; cbn [fold_left].
  - exists m. split; [reflexivity | split; [lra | intros v []]].
  - unfold Delaunay.improve at 2. destruct (gtb u m) eqn:Hum.
    + apply gtb_gt in Hum. destruct (IH u) as (m' & Hf & Hle & Hall).
      exists m'. split; [exact Hf | split; [lra |]].
      intros v [<- | Hv]; [exact Hle | now apply Hall].
    + apply gtb_le in Hum. destruct (IH m) as (m' & Hf & Hle & Hall).
      exists m'. split; [exact Hf | split; [lra |]].
      intros v [<- | Hv]; [lra | now apply Hall].
Qed.

Lemma bounds_components (pts : list XY) (st : option Q * option Q * option Q * option Q) :
  fold_left
    (fun '(minX, minY, maxX, maxY) p =>
       (Delaunay.improve ltb minX (x_of p), Delaunay.improve ltb minY (y_of p),
        Delaunay.improve gtb maxX (x_of p), Delaunay.improve gtb maxY (y_of p)))
    pts st
  = (fold_left (Delaunay.improve ltb) (map x_of pts) (fst (fst (fst st))),
     fold_left (Delaunay.improve ltb) (map y_of pts) (snd (fst (fst st))),
     fold_left (Delaunay.improve gtb) (map x_of pts) (snd (fst st)),
     fold_left (Delaunay.improve gtb) (map y_of pts) (snd st)).
Proof.
  revert st. induction pts as [| p pts IH]; intros [[[a c] d] e]; cbn [fold_left map fst snd].
  - reflexivity.
  - now rewrite IH.
Qed.

(** The bounding box of a non-empty [pts]. *)
Lemma bounds_box (pts : list XY) :
  pts <> [] ->
  exists minX minY maxX maxY,
    Delaunay.bounds pts = (Some minX, Some minY, Some maxX, Some maxY)
    /\ forall p, In p pts ->
         minX <= x_of p <= maxX /\ minY <= y_of p <= maxY.
Proof.
  destruct pts as [| p0 pts]; [contradiction |]. intros _.
  unfold Delaunay.bounds. rewrite bounds_components. cbn [fst snd map fold_left].
  unfold Delaunay.improve at 2 4 6 8.
  destruct (improve_min (map x_of pts) (x_of p0)) as (minX & -> & HminX & HallminX).
  destruct (improve_min (map y_of pts) (y_of p0)) as (minY & -> & HminY & HallminY).
  destruct (improve_max (map x_of pts) (x_of p0)) as (maxX & -> & HmaxX & HallmaxX).
  destruct (improve_max (map y_of pts) (y_of p0)) as (maxY & -> & HmaxY & HallmaxY).
  exists minX, minY, maxX, maxY. split; [reflexivity |].
  intros p [<- | Hp]; [lra |].
  pose proof (in_map x_of _ _ Hp) as Hx. pose proof (in_map y_of _ _ Hp) as Hy.
  pose proof (HallminX _ Hx). pose proof (HallmaxX _ Hx).
  pose proof (HallminY _ Hy). pose proof (HallmaxY _ Hy). lra.
Qed.

Lemma edge_eqb_eq (e e' : Delaunay.Edge) : edge_eqb e e' = true <-> e = e'.
Proof.
  destruct e as [u v], e' as [u' v']. unfold edge_eqb. cbn [fst snd].
  rewrite andb_true_iff, !Nat.eqb_eq. split; [intros [-> ->]; reflexivity |].
  intro Heq. inversion Heq. auto.
Qed.

Lemma mem_edge (e : Delaunay.Edge) (l : list Delaunay.Edge) :
  existsb (edge_eqb e) l = true <-> In e l.
Proof.
  rewrite existsb_exists. split.
  - intros (e' & Hin & Heq). apply edge_eqb_eq in Heq. now subst.
  - intro Hin. exists e. split; [exact Hin | now apply edge_eqb_eq].
Qed.

Lemma same_edge_spec (e oe : Delaunay.Edge) :
  Delaunay.same_edge e oe = true <-> oe = e \/ oe = rev_edge e.
Proof.
  destruct e as [u v], oe as [u' v']. unfold Delaunay.same_edge, rev_edge. cbn [fst snd].
  rewrite orb_true_iff, !andb_true_iff, !Nat.eqb_eq. split.
  - intros [[-> ->] | [-> ->]]; auto.
  - intros [Heq | Heq]; inversion Heq; auto.
Qed.

Lemma rev_edge_involutive (e : Delaunay.Edge) : rev_edge (rev_edge e) = e.
Proof. now destruct e. Qed.

(** *** Lists of edges *)

Lemma NoDup_app_apart {A : Type} (l l' : list A) (a : A) :
  NoDup (l ++ l') -> In a l -> In a l' -> False.
Proof.
  induction l as [| u l IH]; intros Hnd Hl Hl'; [destruct Hl |].
  cbn [app] in Hnd. inversion Hnd as [| ? ? Hni Hnd']; subst.
  destruct Hl as [-> | Hl].
  - apply Hni, in_or_app. now right.
  - now apply IH.
Qed.

Lemma NoDup_map_injective {A B : Type} (f : A -> B) (l : list A) (u v : A) :
  NoDup (map f l) -> In u l -> In v l -> f u = f v -> u = v.
Proof.
  induction l as [| a l IH]; intros Hnd Hu Hv Heq; [destruct Hu |].
  cbn [map] in Hnd. inversion Hnd as [| ? ? Hni Hnd']; subst.
  destruct Hu as [-> | Hu], Hv as [-> | Hv]; auto.
  - exfalso. apply Hni. rewrite Heq. now apply in_map.
  - exfalso. apply Hni. rewrite <- Heq. now apply in_map.
Qed.

Lemma NoDup_flat_map_injective {A B : Type} (f : A -> list B) (l : list A) (u v : A) (e : B) :
  NoDup (flat_map f l) -> In u l -> In v l -> In e (f u) -> In e (f v) -> u = v.
Proof.
  induction l as [| a l IH]; intros Hnd Hu Hv Heu Hev; [destruct Hu |].
  cbn [flat_map] in Hnd.
  pose proof (NoDup_app_remove_l _ _ Hnd) as Hnd'.
  assert (Hdisj : forall w, In w l -> In e (f a) -> In e (f w) -> False).
  { intros w Hw Ha Hfw.
    apply (NoDup_app_apart _ _ e Hnd Ha).
    apply in_flat_map. now exists w. }
  destruct Hu as [-> | Hu], Hv as [-> | Hv]; auto.
  - exfalso. eapply Hdisj; eauto.
  - exfalso. eapply Hdisj; eauto.
Qed.

Lemma NoDup_flat_map_filter {A B : Type} (f : A -> list B) (k : A -> bool) (l : list A) :
  NoDup (flat_map f l) -> NoDup (flat_map f (filter k l)).
Proof.
  induction l as [| a l IH]; intro Hnd; cbn [filter flat_map]; [constructor |].
  cbn [flat_map] in Hnd.
  pose proof (NoDup_app_remove_l _ _ Hnd) as Hnd'.
  destruct (k a); [| now apply IH].
  cbn [flat_map]. apply NoDup_app.
  - eapply NoDup_app_remove_r, Hnd.
  - now apply IH.
  - intros e He Hin.
    apply (NoDup_app_apart _ _ e Hnd He).
    apply in_flat_map in Hin. destruct Hin as (w & Hw & Hew).
    apply filter_In in Hw. apply in_flat_map. exists w. tauto.
Qed.

Lemma NoDup_flat_map_elements {A B : Type} (f : A -> list B) (l : list A) :
  NoDup (flat_map f l) -> (forall a, In a l -> f a <> []) -> NoDup l.
Proof.
  induction l as [| a l IH]; intros Hnd Hne; [constructor |].
  cbn [flat_map] in Hnd. constructor.
  - intro Hin. destruct (f a) as [| e es] eqn:Hfa; [now apply (Hne a (or_introl eq_refl)) |].
    apply (NoDup_app_apart _ _ e Hnd); [now left |].
    apply in_flat_map. exists a. split; [exact Hin | rewrite Hfa; now left].
  - apply IH; [eapply NoDup_app_remove_l, Hnd |]. intros w Hw. apply Hne. now right.
Qed.

Lemma combine_seq_snd {A : Type} (l : list A) (s : nat) :
  map snd (combine (seq s (List.length l)) l) = l.
Proof.
  revert s. induction l as [| a l IH]; intro s; cbn [List.length seq combine map snd];
    [reflexivity | now rewrite IH].
Qed.

Lemma combine_seq_fst {A : Type} (l : list A) (s : nat) :
  map fst (combine (seq s (List.length l)) l) = seq s (List.length l).
Proof.
  revert s. induction l as [| a l IH]; intro s; cbn [List.length seq combine map fst];
    [reflexivity | now rewrite IH].
Qed.

Lemma flat_map_filter_each {A B : Type} (f : A -> list B) (k : B -> bool) (l : list A) :
  flat_map (fun a => filter k (f a)) l = filter k (flat_map f l).
Proof.
  induction l as [| a l IH]; cbn [flat_map]; [reflexivity |].
  now rewrite filter_app, IH.
Qed.

Lemma flat_map_ext_in {A B : Type} (f k : A -> list B) (l : list A) :
  (forall a, In a l -> f a = k a) -> flat_map f l = flat_map k l.
Proof.
  induction l as [| a l IH]; intro Hext; cbn [flat_map]; [reflexivity |].
  rewrite (Hext a (or_introl eq_refl)), IH; [reflexivity |].
  intros w Hw. apply Hext. now right.
Qed.

Lemma flat_map_map_snd {A B C : Type} (f : B -> list C) (l : list (A * B)) :
  flat_map (fun t => f (snd t)) l = flat_map f (map snd l).
Proof.
  induction l as [| a l IH]; cbn [flat_map map]; [reflexivity | now rewrite IH].
Qed.

Lemma edges_of_nonempty (t : Delaunay.Tri) : Delaunay.edges_of t <> [].
Proof. destruct t as [[t0 t1] t2]. discriminate. Qed.

Lemma edge_and_reverse (t : Delaunay.Tri) (e : Delaunay.Edge) :
  distinct_vertices t ->
  In e (Delaunay.edges_of t) -> In (rev_edge e) (Delaunay.edges_of t) -> False.
Proof.
  destruct t as [[t0 t1] t2]. intros (H01 & H12 & H20). unfold rev_edge.
  cbn [Delaunay.edges_of In].
  intros [<- | [<- | [<- | []]]] [Heq | [Heq | [Heq | []]]];
    cbn [fst snd] in Heq; inversion Heq; congruence.
Qed.

(** The triangles of [tris] are distinct objects; their edge lists have no
    edge in common, so a triangle is known by its value. *)
Lemma insert_point_values (pts all : list XY) (T : list Delaunay.Tri) (k : nat) :
  NoDup (all_edges T) -> (forall t, In t T -> distinct_vertices t) ->
  Delaunay.insert_point pts all T k
  = insert_values (Delaunay.in_circle_of all (nth k pts Delaunay.origin)) T k.
Proof.
  intros Hnd Hdist. unfold Delaunay.insert_point, insert_values.
  set (bp := Delaunay.in_circle_of all (nth k pts Delaunay.origin)).
  set (objs := combine (seq 0 (List.length T)) T).
  set (bad := filter (fun t => bp (snd t)) objs).
  assert (Hsnd : map snd objs = T) by apply combine_seq_snd.
  assert (Hfst : NoDup (map fst objs))
    by (unfold objs; rewrite combine_seq_fst; apply seq_NoDup).
  assert (HT : NoDup T).
  { apply (NoDup_flat_map_elements Delaunay.edges_of); [exact Hnd |].
    intros t _. apply edges_of_nonempty. }
  assert (Hobj : forall t, In t objs -> In (snd t) T).
  { intros t Ht. rewrite <- Hsnd. now apply in_map. }
  assert (Hbad : map snd bad = filter bp T).
  { unfold bad. rewrite <- Hsnd. now rewrite filter_map_swap. }
  assert (Hbad_in : forall t, In t bad <-> In t objs /\ bp (snd t) = true)
    by (intro t; apply filter_In).
  f_equal.
  - rewrite <- Hsnd. rewrite filter_map_swap. f_equal.
    apply filter_ext_in. intros t Ht. f_equal.
    apply eq_true_iff_eq. rewrite existsb_exists. split.
    + intros (o & Ho & Heq). apply Nat.eqb_eq in Heq.
      apply Hbad_in in Ho. destruct Ho as [Ho Hbp].
      assert (Hto : t = o) by (apply (NoDup_map_injective fst objs); auto).
      rewrite Hto. exact Hbp.
    + intro Hbp. exists t. split; [now apply Hbad_in | apply Nat.eqb_refl].
  - apply (f_equal (map (new_triangle k))).
    unfold boundary, all_edges. rewrite <- Hbad.
    rewrite <- flat_map_map_snd, <- flat_map_filter_each.
    apply flat_map_ext_in. intros t Ht. apply filter_ext_in. intros e He. f_equal.
    apply eq_true_iff_eq. rewrite mem_edge, existsb_exists.
    apply Hbad_in in Ht. destruct Ht as [Ht Hbp].
    split.
    + intros (o & Ho & Hcond). apply andb_prop in Hcond. destruct Hcond as [Hne Hex].
      apply negb_true_iff, Nat.eqb_neq in Hne.
      apply existsb_exists in Hex. destruct Hex as (oe & Hoe & Hsame).
      apply same_edge_spec in Hsame.
      pose proof (proj1 (Hbad_in o) Ho) as [Ho' _].
      destruct Hsame as [-> | ->].
      * exfalso. apply Hne.
        assert (Hval : snd t = snd o)
          by (apply (NoDup_flat_map_injective Delaunay.edges_of T _ _ e); auto).
        assert (Hto : t = o)
          by (apply (NoDup_map_injective snd objs); [rewrite Hsnd | | |]; auto).
        now rewrite Hto.
      * apply in_flat_map. exists o. split; [exact Ho | exact Hoe].
    + intro Hin. apply in_flat_map in Hin. destruct Hin as (o & Ho & Hoe).
      exists o. split; [exact Ho |].
      pose proof (proj1 (Hbad_in o) Ho) as [Ho' _].
      apply andb_true_intro. split.
      * apply negb_true_iff, Nat.eqb_neq. intro Heq.
        assert (Hto : t = o) by (apply (NoDup_map_injective fst objs); auto).
        rewrite <- Hto in Hoe.
        apply (edge_and_reverse (snd t) e); auto.
      * apply existsb_exists. exists (rev_edge e). split; [exact Hoe |].
        apply same_edge_spec. now right.
Qed.

Lemma edge_apex (P : nat -> XY) (t : Delaunay.Tri) (e : Delaunay.Edge) :
  In e (Delaunay.edges_of t) ->
  exists c, In (fst e) (tri_vertices t) /\ In (snd e) (tri_vertices t)
            /\ In c (tri_vertices t)
            /\ orient (P (fst e)) (P (snd e)) (P c) == tri_orient P t
            /\ forall q, incircle_det q (P (fst e)) (P (snd e)) (P c) == tri_incircle P q t.
Proof.
  destruct t as [[t0 t1] t2]. cbn [Delaunay.edges_of In tri_vertices tri_orient tri_incircle].
  intros [<- | [<- | [<- | []]]]; cbn [fst snd].
  - exists t2. repeat split; auto; reflexivity.
  - exists t0. repeat split; auto; intros; points; ring.
  - exists t1. repeat split; auto; intros; points; ring.
Qed.

Lemma boundary_In (e : Delaunay.Edge) (EB : list Delaunay.Edge) :
  In e (boundary EB) <-> In e EB /\ ~ In (rev_edge e) EB.
Proof.
  unfold boundary. rewrite filter_In, negb_true_iff, <- not_true_iff_false, mem_edge.
  tauto.
Qed.

Lemma all_edges_In (e : Delaunay.Edge) (T : list Delaunay.Tri) :
  In e (all_edges T) <-> exists t, In t T /\ In e (Delaunay.edges_of t).
Proof. apply in_flat_map. Qed.

Lemma tri_bad_lt (P : nat -> XY) (q : XY) (t : Delaunay.Tri) :
  tri_orient P t < 0 -> (tri_bad P q t = true <-> tri_incircle P q t < 0).
Proof.
  destruct t as [[t0 t1] t2]. cbn [tri_orient tri_bad tri_incircle]. intro Hneg.
  rewrite inCircumcircle_unfold.
  assert (Hgt : gtb (orient (P t0) (P t1) (P t2)) 0 = false) by (apply gtb_le; lra).
  rewrite Hgt. apply ltb_lt.
Qed.

Lemma tri_bad_ge (P : nat -> XY) (q : XY) (t : Delaunay.Tri) :
  tri_orient P t < 0 -> (tri_bad P q t = false <-> 0 <= tri_incircle P q t).
Proof.
  destruct t as [[t0 t1] t2]. cbn [tri_orient tri_bad tri_incircle]. intro Hneg.
  rewrite inCircumcircle_unfold.
  assert (Hgt : gtb (orient (P t0) (P t1) (P t2)) 0 = false) by (apply gtb_le; lra).
  rewrite Hgt. apply ltb_ge.
Qed.

(** *** Counting the edges at a vertex *)

Lemma length_filter_split {A : Type} (f g : A -> bool) (l : list A) :
  List.length (filter g l)
  = (List.length (filter g (filter f l))
     + List.length (filter g (filter (fun a => negb (f a)) l)))%nat.
Proof.
  induction l as [| a l IH]; [reflexivity |].
  cbn [filter]. destruct (f a) eqn:Hf, (g a) eqn:Hg; cbn [negb filter List.length];
    rewrite ?Hg; cbn [List.length]; lia.
Qed.

Lemma triangle_leaving_entering (v : nat) (t : Delaunay.Tri) :
  List.length (leaving v (Delaunay.edges_of t)) = List.length (entering v (Delaunay.edges_of t)).
Proof.
  destruct t as [[t0 t1] t2]. unfold leaving, entering. cbn [Delaunay.edges_of filter fst snd].
  destruct (t0 =? v)%nat, (t1 =? v)%nat, (t2 =? v)%nat; reflexivity.
Qed.

Lemma all_edges_leaving_entering (v : nat) (T : list Delaunay.Tri) :
  List.length (leaving v (all_edges T)) = List.length (entering v (all_edges T)).
Proof.
  unfold leaving, entering, all_edges.
  induction T as [| t T IH]; [reflexivity |].
  change (flat_map Delaunay.edges_of (t :: T))
    with (Delaunay.edges_of t ++ flat_map Delaunay.edges_of T).
  rewrite !filter_app, !length_app.
  apply f_equal2; [apply triangle_leaving_entering | exact IH].
Qed.

Lemma rev_edge_injective (e e' : Delaunay.Edge) : rev_edge e = rev_edge e' -> e = e'.
Proof. destruct e, e'. unfold rev_edge. cbn [fst snd]. congruence. Qed.

Lemma NoDup_map_rev_edge (L : list Delaunay.Edge) : NoDup L -> NoDup (map rev_edge L).
Proof.
  induction 1 as [| e L Hni Hnd IH]; cbn [map]; constructor; [| exact IH].
  intro Hin. apply in_map_iff in Hin. destruct Hin as (e' & Heq & He').
  apply rev_edge_injective in Heq. now subst.
Qed.

Lemma interior_In (e : Delaunay.Edge) (EB : list Delaunay.Edge) :
  In e (interior EB) <-> In e EB /\ In (rev_edge e) EB.
Proof. unfold interior. rewrite filter_In, mem_edge. tauto. Qed.

Lemma interior_leaving_le (v : nat) (EB : list Delaunay.Edge) :
  NoDup EB ->
  (List.length (leaving v (interior EB)) <= List.length (entering v (interior EB)))%nat.
Proof.
  intro Hnd. rewrite <- (length_map rev_edge (leaving v (interior EB))).
  apply NoDup_incl_length.
  - apply NoDup_map_rev_edge. unfold leaving, interior. now repeat apply NoDup_filter.
  - intros x Hx. apply in_map_iff in Hx. destruct Hx as (e & <- & He).
    apply filter_In in He. destruct He as [He Hv]. apply interior_In in He.
    apply filter_In. split.
    + apply interior_In. rewrite rev_edge_involutive. tauto.
    + exact Hv.
Qed.

Lemma interior_entering_le (v : nat) (EB : list Delaunay.Edge) :
  NoDup EB ->
  (List.length (entering v (interior EB)) <= List.length (leaving v (interior EB)))%nat.
Proof.
  intro Hnd. rewrite <- (length_map rev_edge (entering v (interior EB))).
  apply NoDup_incl_length.
  - apply NoDup_map_rev_edge. unfold entering, interior. now repeat apply NoDup_filter.
  - intros x Hx. apply in_map_iff in Hx. destruct Hx as (e & <- & He).
    apply filter_In in He. destruct He as [He Hv]. apply interior_In in He.
    apply filter_In. split.
    + apply interior_In. rewrite rev_edge_involutive. tauto.
    + exact Hv.
Qed.

Lemma cancel_equal (a b c d : nat) :
  (a + b = c + d)%nat -> (a <= c)%nat -> (c <= a)%nat -> b = d.
Proof. lia. Qed.

(** As many edges of the boundary leave a vertex as enter it. *)
Lemma boundary_leaving_entering (v : nat) (T : list Delaunay.Tri) :
  NoDup (all_edges T) ->
  List.length (leaving v (boundary (all_edges T)))
  = List.length (entering v (boundary (all_edges T))).
Proof.
  intro Hnd.
  apply (cancel_equal (List.length (leaving v (interior (all_edges T)))) _
                      (List.length (entering v (interior (all_edges T)))) _);
    [| now apply interior_leaving_le | now apply interior_entering_le].
  exact (eq_trans
           (eq_sym (length_filter_split
                      (fun e => existsb (edge_eqb (rev_edge e)) (all_edges T))
                      (fun e => (fst e =? v)%nat) (all_edges T)))
           (eq_trans (all_edges_leaving_entering v T)
              (length_filter_split
                 (fun e => existsb (edge_eqb (rev_edge e)) (all_edges T))
                 (fun e => (snd e =? v)%nat) (all_edges T)))).
Qed.

Lemma boundary_next (T : list Delaunay.Tri) (e : Delaunay.Edge) :
  NoDup (all_edges T) -> In e (boundary (all_edges T)) ->
  exists e', In e' (boundary (all_edges T)) /\ fst e' = snd e.
Proof.
  intros Hnd He. pose proof (boundary_leaving_entering (snd e) T Hnd) as Hcount.
  assert (Hin : In e (entering (snd e) (boundary (all_edges T))))
    by (apply filter_In; split; [exact He | apply Nat.eqb_refl]).
  destruct (leaving (snd e) (boundary (all_edges T))) as [| e' l] eqn:Hl.
  - destruct (entering (snd e) (boundary (all_edges T))); [destruct Hin | discriminate].
  - assert (He' : In e' (leaving (snd e) (boundary (all_edges T))))
      by (rewrite Hl; now left).
    apply filter_In in He'. destruct He' as [He' Hv]. apply Nat.eqb_eq in Hv.
    now exists e'.
Qed.

Lemma boundary_previous (T : list Delaunay.Tri) (e : Delaunay.Edge) :
  NoDup (all_edges T) -> In e (boundary (all_edges T)) ->
  exists e', In e' (boundary (all_edges T)) /\ snd e' = fst e.
Proof.
  intros Hnd He. pose proof (boundary_leaving_entering (fst e) T Hnd) as Hcount.
  assert (Hin : In e (leaving (fst e) (boundary (all_edges T))))
    by (apply filter_In; split; [exact He | apply Nat.eqb_refl]).
  destruct (entering (fst e) (boundary (all_edges T))) as [| e' l] eqn:Hl.
  - destruct (leaving (fst e) (boundary (all_edges T))); [destruct Hin | discriminate].
  - assert (He' : In e' (entering (fst e) (boundary (all_edges T))))
      by (rewrite Hl; now left).
    apply filter_In in He'. destruct He' as [He' Hv]. apply Nat.eqb_eq in Hv.
    now exists e'.
Qed.

(** The edges of the triangles on a list of edges with distinct starts and
    distinct ends. *)
Lemma new_edges_In (k : nat) (L : list Delaunay.Edge) (x : Delaunay.Edge) :
  In x (all_edges (map (new_triangle k) L))
  <-> exists e, In e L /\ (x = e \/ x = (snd e, k) \/ x = (k, fst e)).
Proof.
  rewrite all_edges_In. split.
  - intros (t & Ht & Hx). apply in_map_iff in Ht. destruct Ht as (e & <- & He).
    exists e. split; [exact He |]. destruct e as [u v].
    cbn [new_triangle Delaunay.edges_of In fst snd] in *. intuition auto.
  - intros (e & He & Hx). exists (new_triangle k e). split; [now apply in_map |].
    destruct e as [u v]. cbn [new_triangle Delaunay.edges_of In fst snd] in *. intuition auto.
Qed.

Lemma NoDup_new_edges (k : nat) (L : list Delaunay.Edge) :
  NoDup L ->
  (forall e, In e L -> fst e <> k /\ snd e <> k) ->
  (forall e e', In e L -> In e' L -> fst e = fst e' -> e = e') ->
  (forall e e', In e L -> In e' L -> snd e = snd e' -> e = e') ->
  NoDup (all_edges (map (new_triangle k) L)).
Proof.
  induction 1 as [| e L Hni Hnd IH]; intros Hk Hfst Hsnd; [constructor |].
  assert (HIH : NoDup (all_edges (map (new_triangle k) L))).
  { apply IH.
    - intros u Hu. apply Hk. now right.
    - intros u u' Hu Hu'. apply Hfst; now right.
    - intros u u' Hu Hu'. apply Hsnd; now right. }
  destruct (Hk e (or_introl eq_refl)) as [Hk0 Hk1].
  assert (Hfresh : forall x, In x (all_edges (map (new_triangle k) L)) ->
            x <> e /\ x <> (snd e, k) /\ x <> (k, fst e)).
  { intros x Hx. apply new_edges_In in Hx. destruct Hx as (e' & He' & Hx).
    destruct (Hk e' (or_intror He')) as [Hk0' Hk1'].
    assert (Hne : e' <> e) by (intro Heq; subst; contradiction).
    assert (Hf : fst e' <> fst e)
      by (intro Heq; apply Hne, Hfst; [now right | now left | exact Heq]).
    assert (Hs : snd e' <> snd e)
      by (intro Heq; apply Hne, Hsnd; [now right | now left | exact Heq]).
    destruct e as [u v], e' as [u' v']. cbn [fst snd] in *.
    destruct Hx as [-> | [-> | ->]]; repeat split; intro Heq; inversion Heq; congruence. }
  change (all_edges (map (new_triangle k) (e :: L)))
    with ((fst e, snd e) :: (snd e, k) :: (k, fst e) :: all_edges (map (new_triangle k) L)).
  destruct e as [u v]. cbn [fst snd] in *.
  constructor; [| constructor; [| constructor; [| exact HIH]]].
  - intros [Heq | [Heq | Hx]]; try (inversion Heq; congruence).
    apply Hfresh in Hx. tauto.
  - intros [Heq | Hx]; [inversion Heq; congruence |].
    apply Hfresh in Hx. tauto.
  - intro Hx. apply Hfresh in Hx. tauto.
Qed.

Lemma same_point_refl (p : XY) : same_point p p.
Proof. split; reflexivity. Qed.

Lemma same_point_sym (p q : XY) : same_point p q -> same_point q p.
Proof. intros [Hx Hy]. split; now symmetry. Qed.

Lemma tri_incircle_same (P : nat -> XY) (p q : XY) (t : Delaunay.Tri) :
  same_point p q -> tri_incircle P p t == tri_incircle P q t.
Proof.
  intro Hpq. destruct t as [[t0 t1] t2]. cbn [tri_incircle].
  apply incircle_same; auto using same_point_refl.
Qed.

Lemma edge_vertices (t : Delaunay.Tri) (e : Delaunay.Edge) :
  In e (Delaunay.edges_of t) -> In (fst e) (tri_vertices t) /\ In (snd e) (tri_vertices t).
Proof.
  destruct t as [[t0 t1] t2]. cbn [Delaunay.edges_of tri_vertices In].
  intros [<- | [<- | [<- | []]]]; cbn [fst snd]; auto.
Qed.

(** *** One round of the loop *)

Section Step.

Variables (P : nat -> XY) (n : nat).
Hypothesis Hinside : forall e j, super_edge n e -> (j < n)%nat ->
  orient (P (fst e)) (P (snd e)) (P j) < 0.
Hypothesis Hside : forall e j, super_edge n e -> (n <= j < n + 3)%nat ->
  orient (P (fst e)) (P (snd e)) (P j) <= 0.

Variables (T : list Delaunay.Tri) (k : nat).
Hypothesis Hk : (k < n)%nat.
Hypothesis Inv : invariant P n k T.

Local Abbreviation bad := (tri_bad P (P k)).
Local Abbreviation B := (filter bad T).
Local Abbreviation K := (filter (fun t => negb (bad t)) T).
Local Abbreviation Bd := (boundary (all_edges B)).

Lemma edges_apart (e : Delaunay.Edge) : In e (all_edges B) -> In e (all_edges K) -> False.
Proof.
  rewrite !all_edges_In. intros (t & Ht & He) (t' & Ht' & He').
  apply filter_In in Ht, Ht'. destruct Ht as [Ht Hb], Ht' as [Ht' Hb'].
  assert (Heq : t = t')
    by (apply (NoDup_flat_map_injective Delaunay.edges_of T t t' e); auto;
        apply (inv_once _ _ _ _ Inv)).
  subst t'. rewrite Hb in Hb'. discriminate.
Qed.

Lemma edges_split (e : Delaunay.Edge) :
  In e (all_edges T) -> In e (all_edges B) \/ In e (all_edges K).
Proof.
  rewrite !all_edges_In. intros (t & Ht & He).
  destruct (bad t) eqn:Hb; [left | right]; exists t; (split; [| exact He]);
    apply filter_In; split; auto. now rewrite Hb.
Qed.

Lemma valid_weaken (j : nat) : valid n k j -> valid n (S k) j.
Proof. unfold valid. lia. Qed.

Lemma boundary_facts (e : Delaunay.Edge) :
  In e Bd ->
  (exists c, valid n k c
     /\ orient (P (fst e)) (P (snd e)) (P c) < 0
     /\ incircle_det (P k) (P (fst e)) (P (snd e)) (P c) < 0
     /\ forall j, valid n k j -> 0 <= incircle_det (P j) (P (fst e)) (P (snd e)) (P c))
  /\ (super_edge n e
      \/ exists z, valid n k z
           /\ 0 < orient (P (fst e)) (P (snd e)) (P z)
           /\ incircle_det (P k) (P (fst e)) (P (snd e)) (P z) <= 0
           /\ forall j, valid n k j -> incircle_det (P j) (P (fst e)) (P (snd e)) (P z) <= 0)
  /\ valid n k (fst e) /\ valid n k (snd e).
Proof.
  intro He. apply boundary_In in He. destruct He as [He Hrev].
  apply all_edges_In in He. destruct He as (t & Ht & He).
  apply filter_In in Ht. destruct Ht as [Ht Hb].
  pose proof (inv_orient _ _ _ _ Inv t Ht) as Hori.
  destruct (edge_apex P t e He) as (c & Hv0 & Hv1 & Hvc & Hco & Hci).
  split; [| split; [| split]].
  - exists c. split; [apply (inv_valid _ _ _ _ Inv t c Ht Hvc) |].
    split; [lra |]. split.
    + apply (tri_bad_lt P (P k) t Hori) in Hb. rewrite Hci. exact Hb.
    + intros j Hj. rewrite Hci. apply (inv_empty _ _ _ _ Inv t j Ht Hj).
  - destruct (inv_closed _ _ _ _ Inv t e Ht He) as [Hs | Hr]; [now left | right].
    apply edges_split in Hr. destruct Hr as [Hr | Hr]; [contradiction |].
    apply all_edges_In in Hr. destruct Hr as (t' & Ht' & He').
    apply filter_In in Ht'. destruct Ht' as [Ht' Hb']. apply negb_true_iff in Hb'.
    pose proof (inv_orient _ _ _ _ Inv t' Ht') as Hori'.
    destruct (edge_apex P t' (rev_edge e) He') as (z & _ & _ & Hvz & Hzo & Hzi).
    cbn [rev_edge fst snd] in Hzo, Hzi.
    exists z. split; [apply (inv_valid _ _ _ _ Inv t' z Ht' Hvz) |].
    split; [| split].
    + pose proof (orient_swap (P (fst e)) (P (snd e)) (P z)). lra.
    + apply (tri_bad_ge P (P k) t' Hori') in Hb'.
      pose proof (incircle_swap (P k) (P (fst e)) (P (snd e)) (P z)).
      pose proof (Hzi (P k)). lra.
    + intros j Hj.
      pose proof (inv_empty _ _ _ _ Inv t' j Ht' Hj).
      pose proof (incircle_swap (P j) (P (fst e)) (P (snd e)) (P z)).
      pose proof (Hzi (P j)). lra.
  - apply (inv_valid _ _ _ _ Inv t _ Ht Hv0).
  - apply (inv_valid _ _ _ _ Inv t _ Ht Hv1).
Qed.

(** The new triangles are turned as the others. *)
Lemma new_orient (e : Delaunay.Edge) :
  In e Bd -> orient (P (fst e)) (P (snd e)) (P k) < 0.
Proof.
  intro He. destruct (boundary_facts e He) as ((c & Hc & Hco & Hcb & Hce) & Hout & _).
  destruct Hout as [Hs | (z & Hz & Hzo & Hzb & Hze)].
  - now apply Hinside.
  - apply (new_triangle_side _ _ (P c) (P z)); auto.
Qed.

(** No point in use is inside the circle of a new triangle. *)
Lemma new_empty (e : Delaunay.Edge) (j : nat) :
  In e Bd -> valid n (S k) j ->
  0 <= incircle_det (P j) (P (fst e)) (P (snd e)) (P k).
Proof.
  intros He Hj.
  assert (Hcases : j = k \/ valid n k j) by (unfold valid in *; lia).
  destruct Hcases as [-> | Hj'].
  - rewrite incircle_vertex. lra.
  - pose proof (new_orient e He) as Hnew.
    destruct (boundary_facts e He) as ((c & Hc & Hco & Hcb & Hce) & Hout & _).
    destruct (Qlt_le_dec 0 (orient (P (fst e)) (P (snd e)) (P j))) as [Hpos | Hneg].
    + destruct Hout as [Hs | (z & Hz & Hzo & Hzb & Hze)].
      * exfalso. destruct Hj' as [Hlt | Hsup].
        -- pose proof (Hinside e j Hs ltac:(lia)). lra.
        -- pose proof (Hside e j Hs Hsup). lra.
      * apply (new_triangle_empty_far _ _ (P z)); auto.
    + apply (new_triangle_empty_near _ _ (P c)); auto.
Qed.

Lemma invalid_self : ~ valid n k k.
Proof. unfold valid. lia. Qed.

Lemma boundary_bad (e : Delaunay.Edge) :
  In e Bd ->
  exists t, In t T /\ bad t = true /\ In e (Delaunay.edges_of t)
            /\ In (fst e) (tri_vertices t) /\ In (snd e) (tri_vertices t).
Proof.
  intro He. apply boundary_In in He. destruct He as [He _].
  apply all_edges_In in He. destruct He as (t & Ht & He).
  apply filter_In in Ht. destruct Ht as [Ht Hb].
  destruct (edge_vertices t e He). exists t. auto.
Qed.

(** One edge of the boundary at most enters a vertex. *)
Lemma boundary_snd_injective (e e' : Delaunay.Edge) :
  In e Bd -> In e' Bd -> snd e = snd e' -> e = e'.
Proof.
  intros He He' Hsnd.
  destruct (Nat.eq_dec (fst e) (fst e')) as [Hfst | Hne];
    [destruct e, e'; cbn [fst snd] in *; congruence | exfalso].
  pose proof (new_orient e He) as Ho. pose proof (new_orient e' He') as Ho'.
  destruct (boundary_facts e He) as ((c & Hc & Hco & Hcb & Hce) & _ & Hv0 & Hv1).
  destruct (boundary_facts e' He') as ((c' & Hc' & Hco' & Hcb' & Hce') & _ & Hv0' & Hv1').
  pose proof (new_empty e (fst e') He (valid_weaken _ Hv0')) as Hd.
  pose proof (new_empty e' (fst e) He' (valid_weaken _ Hv0)) as Hd'.
  rewrite <- Hsnd in *.
  pose proof (incircle_exchange_first (P (fst e')) (P (fst e)) (P (snd e)) (P k)) as Hx.
  assert (Hz : incircle_det (P (fst e')) (P (fst e)) (P (snd e)) (P k) == 0) by lra.
  assert (Hz' : incircle_det (P (fst e)) (P (fst e')) (P (snd e)) (P k) == 0) by lra.
  pose proof (cocircular_side _ _ _ _ _ Hco Ho Hcb (Hce _ Hv0') Hz) as Hs.
  pose proof (cocircular_side _ _ _ _ _ Hco' Ho' Hcb' (Hce' _ Hv0) Hz') as Hs'.
  assert (Hflip : orient (P (fst e')) (P (snd e)) (P (fst e))
                  == - orient (P (fst e)) (P (snd e)) (P (fst e'))) by (points; ring).
  assert (Hflat : orient (P (fst e)) (P (snd e)) (P (fst e')) == 0) by lra.
  assert (Hnf : ~ orient (P (fst e)) (P (snd e)) (P k) == 0) by lra.
  destruct (boundary_bad e He) as (t & Ht & _ & _ & Ht0 & Ht1).
  destruct (boundary_bad e' He') as (t' & Ht' & _ & _ & Ht0' & Ht1').
  destruct (line_meets_circle _ _ _ _ Hnf Hflat Hz) as [Hsame | Hsame].
  - apply Hne. apply (inv_apart _ _ _ _ Inv t t'); auto.
  - assert (Heq : snd e = fst e') by (apply (inv_apart _ _ _ _ Inv t t'); auto).
    rewrite <- Heq in Ho'. rewrite orient_flat_first in Ho'. lra.
Qed.

(** One edge of the boundary at most leaves a vertex. *)
Lemma boundary_fst_injective (e e' : Delaunay.Edge) :
  In e Bd -> In e' Bd -> fst e = fst e' -> e = e'.
Proof.
  intros He He' Hfst.
  destruct (Nat.eq_dec (snd e) (snd e')) as [Hsnd | Hne];
    [destruct e, e'; cbn [fst snd] in *; congruence | exfalso].
  pose proof (new_orient e He) as Ho. pose proof (new_orient e' He') as Ho'.
  destruct (boundary_facts e He) as ((c & Hc & Hco & Hcb & Hce) & _ & Hv0 & Hv1).
  destruct (boundary_facts e' He') as ((c' & Hc' & Hco' & Hcb' & Hce') & _ & Hv0' & Hv1').
  pose proof (new_empty e (snd e') He (valid_weaken _ Hv1')) as Hd.
  pose proof (new_empty e' (snd e) He' (valid_weaken _ Hv1)) as Hd'.
  rewrite <- Hfst in *.
  pose proof (incircle_exchange_mid (P (snd e')) (P (fst e)) (P (snd e)) (P k)) as Hx.
  assert (Hz : incircle_det (P (snd e')) (P (fst e)) (P (snd e)) (P k) == 0) by lra.
  assert (Hz' : incircle_det (P (snd e)) (P (fst e)) (P (snd e')) (P k) == 0) by lra.
  pose proof (cocircular_side _ _ _ _ _ Hco Ho Hcb (Hce _ Hv1') Hz) as Hs.
  pose proof (cocircular_side _ _ _ _ _ Hco' Ho' Hcb' (Hce' _ Hv1) Hz') as Hs'.
  pose proof (orient_swap_last (P (fst e)) (P (snd e)) (P (snd e'))) as Hflip.
  assert (Hflat : orient (P (fst e)) (P (snd e)) (P (snd e')) == 0) by lra.
  assert (Hnf : ~ orient (P (fst e)) (P (snd e)) (P k) == 0) by lra.
  destruct (boundary_bad e He) as (t & Ht & _ & _ & Ht0 & Ht1).
  destruct (boundary_bad e' He') as (t' & Ht' & _ & _ & Ht0' & Ht1').
  destruct (line_meets_circle _ _ _ _ Hnf Hflat Hz) as [Hsame | Hsame].
  - assert (Heq : fst e = snd e') by (apply (inv_apart _ _ _ _ Inv t t'); auto).
    rewrite <- Heq in Ho'. rewrite orient_flat_first in Ho'. lra.
  - apply Hne. apply (inv_apart _ _ _ _ Inv t t'); auto.
Qed.

Lemma NoDup_bad_edges : NoDup (all_edges B).
Proof. apply NoDup_flat_map_filter, (inv_once _ _ _ _ Inv). Qed.

Lemma NoDup_kept_edges : NoDup (all_edges K).
Proof. apply NoDup_flat_map_filter, (inv_once _ _ _ _ Inv). Qed.

Lemma boundary_without_new (e : Delaunay.Edge) : In e Bd -> fst e <> k /\ snd e <> k.
Proof.
  intro He. destruct (boundary_facts e He) as (_ & _ & Hv0 & Hv1).
  split; intro Heq; rewrite Heq in *; now apply invalid_self.
Qed.

Lemma inserted_In (t : Delaunay.Tri) :
  In t (insert_values bad T k)
  <-> (In t T /\ bad t = false) \/ exists e, In e Bd /\ t = new_triangle k e.
Proof.
  unfold insert_values. rewrite in_app_iff, filter_In, negb_true_iff, in_map_iff.
  split; (intros [Hk' | (e & He & He')]; [now left | right; exists e; auto]).
Qed.

Lemma inserted_edges_In (x : Delaunay.Edge) :
  In x (all_edges (insert_values bad T k))
  <-> In x (all_edges K)
      \/ exists e, In e Bd /\ (x = e \/ x = (snd e, k) \/ x = (k, fst e)).
Proof.
  unfold insert_values, all_edges at 1. rewrite flat_map_app, in_app_iff.
  fold (all_edges K). fold (all_edges (map (new_triangle k) Bd)).
  now rewrite new_edges_In.
Qed.

(** A vertex of the new list is a vertex of the old one, or the inserted
    point, which was inside the circle of a triangle. *)
Lemma inserted_vertex (t : Delaunay.Tri) (v : nat) :
  In t (insert_values bad T k) -> In v (tri_vertices t) ->
  (exists t0, In t0 T /\ In v (tri_vertices t0))
  \/ (v = k /\ exists tb, In tb T /\ bad tb = true).
Proof.
  intros Ht Hv. apply inserted_In in Ht. destruct Ht as [[Ht _] | (e & He & ->)].
  - left. now exists t.
  - destruct (boundary_bad e He) as (tb & Htb & Hb & _ & Ht0 & Ht1).
    cbn [new_triangle tri_vertices In] in Hv.
    destruct Hv as [<- | [<- | [<- | []]]].
    + left. now exists tb.
    + left. now exists tb.
    + right. split; [reflexivity | now exists tb].
Qed.

Lemma inserted_apart (u : nat) (t0 : Delaunay.Tri) :
  In t0 T -> In u (tri_vertices t0) ->
  (exists tb, In tb T /\ bad tb = true) -> same_point (P k) (P u) -> False.
Proof.
  intros Ht0 Hu (tb & Htb & Hb) Hsame.
  pose proof (inv_orient _ _ _ _ Inv tb Htb) as Hori.
  apply (tri_bad_lt P (P k) tb Hori) in Hb.
  pose proof (inv_empty _ _ _ _ Inv tb u Htb (inv_valid _ _ _ _ Inv t0 u Ht0 Hu)) as Hge.
  pose proof (tri_incircle_same P (P k) (P u) tb Hsame). lra.
Qed.

(** The invariant of the loop over the points. *)
Lemma insert_values_invariant : invariant P n (S k) (insert_values bad T k).
Proof.
  constructor.
  - intros t Ht. apply inserted_In in Ht. destruct Ht as [[Ht _] | (e & He & ->)].
    + now apply (inv_orient _ _ _ _ Inv).
    + now apply new_orient.
  - intros t j Ht Hj. apply inserted_In in Ht. destruct Ht as [[Ht Hb] | (e & He & ->)].
    + assert (Hcases : j = k \/ valid n k j) by (unfold valid in *; lia).
      destruct Hcases as [-> | Hj'].
      * now apply (tri_bad_ge P (P k) t (inv_orient _ _ _ _ Inv t Ht)).
      * now apply (inv_empty _ _ _ _ Inv).
    + now apply new_empty.
  - intros t x Ht Hx. apply inserted_In in Ht. destruct Ht as [[Ht Hb] | (e & He & ->)].
    + destruct (inv_closed _ _ _ _ Inv t x Ht Hx) as [Hs | Hr]; [now left | right].
      apply inserted_edges_In. apply edges_split in Hr. destruct Hr as [Hr | Hr]; [| now left].
      right. exists (rev_edge x). split; [| now left].
      apply boundary_In. split; [exact Hr |]. rewrite rev_edge_involutive.
      intro Hin. apply (edges_apart x Hin). apply all_edges_In. exists t.
      split; [| exact Hx]. apply filter_In. split; [exact Ht | now rewrite Hb].
    + destruct e as [u v]. cbn [new_triangle fst snd Delaunay.edges_of In] in Hx.
      destruct Hx as [<- | [<- | [<- | []]]].
      * destruct (boundary_bad (u, v) He) as (tb & Htb & _ & Hin & _).
        destruct (inv_closed _ _ _ _ Inv tb (u, v) Htb Hin) as [Hs | Hr]; [now left | right].
        apply inserted_edges_In. apply edges_split in Hr. destruct Hr as [Hr | Hr]; [| now left].
        apply boundary_In in He. tauto.
      * right. apply inserted_edges_In. right.
        destruct (boundary_next B (u, v) NoDup_bad_edges He) as (e' & He' & Hfst).
        exists e'. split; [exact He' |]. right. right.
        cbn [fst snd rev_edge] in *. now rewrite Hfst.
      * right. apply inserted_edges_In. right.
        destruct (boundary_previous B (u, v) NoDup_bad_edges He) as (e' & He' & Hsnd).
        exists e'. split; [exact He' |]. right. left.
        cbn [fst snd rev_edge] in *. now rewrite Hsnd.
  - unfold insert_values, all_edges. rewrite flat_map_app.
    fold (all_edges K). fold (all_edges (map (new_triangle k) Bd)).
    apply NoDup_app.
    + apply NoDup_kept_edges.
    + apply NoDup_new_edges.
      * unfold boundary. apply NoDup_filter, NoDup_bad_edges.
      * apply boundary_without_new.
      * apply boundary_fst_injective.
      * apply boundary_snd_injective.
    + intros x Hx Hnew. apply new_edges_In in Hnew. destruct Hnew as (e & He & Hcase).
      assert (Hnok : fst x <> k /\ snd x <> k).
      { apply all_edges_In in Hx. destruct Hx as (t & Ht & Hx).
        apply filter_In in Ht. destruct Ht as [Ht _].
        destruct (edge_vertices t x Hx) as [H0 H1].
        pose proof (inv_valid _ _ _ _ Inv t _ Ht H0).
        pose proof (inv_valid _ _ _ _ Inv t _ Ht H1).
        split; intro Heq; rewrite Heq in *; now apply invalid_self. }
      destruct Hcase as [-> | [-> | ->]]; cbn [fst snd] in Hnok.
      * apply boundary_In in He. destruct He as [He _]. now apply (edges_apart e).
      * tauto.
      * tauto.
  - intros t v Ht Hv. apply inserted_In in Ht. destruct Ht as [[Ht _] | (e & He & ->)].
    + apply valid_weaken. now apply (inv_valid _ _ _ _ Inv t).
    + destruct (boundary_facts e He) as (_ & _ & Hv0 & Hv1).
      cbn [new_triangle tri_vertices In] in Hv.
      destruct Hv as [<- | [<- | [<- | []]]]; try now apply valid_weaken.
      unfold valid. lia.
  - intros t t' u v Ht Ht' Hu Hv Hsame.
    destruct (inserted_vertex t u Ht Hu) as [(t0 & Ht0 & Hu0) | [-> Hbad]];
      destruct (inserted_vertex t' v Ht' Hv) as [(t0' & Ht0' & Hv0) | [-> Hbad']].
    + now apply (inv_apart _ _ _ _ Inv t0 t0').
    + exfalso. apply (inserted_apart u t0); auto. now apply same_point_sym.
    + exfalso. now apply (inserted_apart v t0').
    + reflexivity.
Qed.

End Step.

(** *** The super-triangle and the loop over the points *)

Lemma circumcentre_circle (a c1 c2 : XY) :
  ~ orient a c1 c2 == 0 ->
  circumcircle a c1 c2 (circumcentre a c1 c2)
    (squared_distance c2 (circumcentre a c1 c2)).
Proof.
  intro Hnf. unfold circumcircle, circumcentre, squared_distance. cbv zeta. cbn [x_of y_of].
  repeat split; try reflexivity; unfold orient in *; field; exact Hnf.
Qed.

Lemma superTri_spec (pts : list XY) :
  pts <> [] ->
  exists mx my d, 0 <= d /\ Delaunay.superTri pts = super_triangle mx my d
                  /\ forall p, In p pts -> in_box mx my d p.
Proof.
  intro Hne. destruct (bounds_box pts Hne) as (minX & minY & maxX & maxY & Hb & Hbox).
  unfold Delaunay.superTri. rewrite Hb. cbv beta iota zeta. cbn [Delaunay.bound].
  exists ((minX + maxX) / 2), ((minY + maxY) / 2), (Math_max (maxX - minX) (maxY - minY)).
  pose proof (Q.le_max_l (maxX - minX) (maxY - minY)) as Hl.
  pose proof (Q.le_max_r (maxX - minX) (maxY - minY)) as Hr.
  unfold Math_max. set (d := Qmax (maxX - minX) (maxY - minY)) in *. clearbody d.
  assert (Hmx : 2 * ((minX + maxX) / 2) == minX + maxX) by field.
  assert (Hmy : 2 * ((minY + maxY) / 2) == minY + maxY) by field.
  set (mx := (minX + maxX) / 2) in *. set (my := (minY + maxY) / 2) in *.
  clearbody mx my.
  split; [| split; [reflexivity |]].
  - destruct pts as [| p0 pts]; [contradiction |].
    pose proof (Hbox p0 (or_introl eq_refl)). lra.
  - intros p Hp. pose proof (Hbox p Hp). unfold in_box. lra.
Qed.

Lemma super_side_algebra (mx my d u v : Q) :
  0 < d -> - d <= 2 * (u - mx) <= d -> - d <= 2 * (v - my) <= d ->
  (mx - 20 * d - u) * (my + 20 * d - v) - (my - d - v) * (mx - u) < 0
  /\ (mx - u) * (my - d - v) - (my + 20 * d - v) * (mx + 20 * d - u) < 0
  /\ (mx + 20 * d - u) * (my - d - v) - (my - d - v) * (mx - 20 * d - u) < 0.
Proof.
  intros Hd [Hu1 Hu2] [Hv1 Hv2].
  assert (H1 : 0 <= d * (d - 2 * (u - mx))) by (apply Qmult_le_0_compat; lra).
  assert (H2 : 0 <= d * (d + 2 * (u - mx))) by (apply Qmult_le_0_compat; lra).
  assert (H3 : 0 <= d * (d - 2 * (v - my))) by (apply Qmult_le_0_compat; lra).
  assert (H4 : 0 <= d * (d + 2 * (v - my))) by (apply Qmult_le_0_compat; lra).
  assert (H5 : 0 < d * d) by (apply Qmult_lt_0_compat; lra).
  repeat split; nra.
Qed.

Lemma inCircumcircle_degenerate (p a c1 c2 : XY) :
  same_point a p -> same_point c1 p -> same_point c2 p ->
  Delaunay.inCircumcircle p a c1 c2 = false.
Proof.
  intros Ha Hb Hc. rewrite inCircumcircle_unfold.
  pose proof (orient_same _ _ _ _ _ _ Ha Hb Hc) as Ho. rewrite orient_flat_first in Ho.
  pose proof (incircle_same p p _ _ _ _ _ _ (same_point_refl p) Ha Hb Hc) as Hi.
  rewrite incircle_vertex in Hi.
  assert (Hgt : gtb (orient a c1 c2) 0 = false) by (apply gtb_le; lra).
  rewrite Hgt. apply ltb_ge. lra.
Qed.

Lemma orient_distinct (P : nat -> XY) (t : Delaunay.Tri) :
  tri_orient P t < 0 -> distinct_vertices t.
Proof.
  destruct t as [[t0 t1] t2]. cbn [tri_orient distinct_vertices]. intro Hneg.
  repeat split; intro Heq; subst.
  - rewrite orient_flat_first in Hneg. lra.
  - rewrite orient_flat_mid in Hneg. lra.
  - rewrite orient_flat_last in Hneg. lra.
Qed.

Lemma NoDup_super_edges (n : nat) : NoDup (all_edges [ (n, n + 1, n + 2)%nat ]).
Proof.
  change (NoDup [ (n, n + 1); (n + 1, n + 2); (n + 2, n) ]%nat).
  constructor; [| constructor; [| constructor; [| constructor]]];
    cbn [In]; intro Hin; decompose [or] Hin; try contradiction;
    match goal with Heq : (_, _) = (_, _) |- _ => inversion Heq; lia end.
Qed.

Lemma all_point_input (pts : list XY) (i : nat) :
  (i < List.length pts)%nat -> all_point pts i = nth i pts Delaunay.origin.
Proof. intro Hi. unfold all_point. now apply app_nth1. Qed.

Section Super.

Variables (pts : list XY) (mx my d : Q).
Hypothesis Hsuper : Delaunay.superTri pts = super_triangle mx my d.
Hypothesis Hbox : forall p, In p pts -> in_box mx my d p.

Local Abbreviation n := (List.length pts).
Local Abbreviation P := (all_point pts).

Lemma all_point_super0 : P n = mkXY (mx - 20 * d) (my - d).
Proof.
  unfold all_point. rewrite app_nth2, Nat.sub_diag, Hsuper by lia. reflexivity.
Qed.

Lemma all_point_super1 : P (n + 1) = mkXY mx (my + 20 * d).
Proof.
  unfold all_point. rewrite app_nth2, Hsuper by lia.
  replace (n + 1 - n)%nat with 1%nat by lia. reflexivity.
Qed.

Lemma all_point_super2 : P (n + 2) = mkXY (mx + 20 * d) (my - d).
Proof.
  unfold all_point. rewrite app_nth2, Hsuper by lia.
  replace (n + 2 - n)%nat with 2%nat by lia. reflexivity.
Qed.

Lemma all_point_in_box (j : nat) : (j < n)%nat -> in_box mx my d (P j).
Proof. intro Hj. rewrite all_point_input by exact Hj. now apply Hbox, nth_In. Qed.

Section Proper.

Hypothesis Hd : 0 < d.

Lemma super_inside (e : Delaunay.Edge) (j : nat) :
  super_edge n e -> (j < n)%nat -> orient (P (fst e)) (P (snd e)) (P j) < 0.
Proof.
  intros He Hj. destruct (all_point_in_box j Hj) as [Hu Hv].
  destruct (super_side_algebra mx my d _ _ Hd Hu Hv) as (H0 & H1 & H2).
  destruct He as [-> | [-> | ->]]; cbn [fst snd];
    rewrite ?all_point_super0, ?all_point_super1, ?all_point_super2;
    unfold orient; cbn [x_of y_of]; assumption.
Qed.

Lemma super_side (e : Delaunay.Edge) (j : nat) :
  super_edge n e -> (n <= j < n + 3)%nat -> orient (P (fst e)) (P (snd e)) (P j) <= 0.
Proof.
  intros He Hj.
  assert (H5 : 0 < d * d) by (apply Qmult_lt_0_compat; lra).
  assert (Hcases : j = n \/ j = (n + 1)%nat \/ j = (n + 2)%nat) by lia.
  destruct He as [-> | [-> | ->]]; destruct Hcases as [-> | [-> | ->]]; cbn [fst snd];
    rewrite ?all_point_super0, ?all_point_super1, ?all_point_super2;
    unfold orient; cbn [x_of y_of]; nra.
Qed.

Lemma initial_invariant : invariant P n 0 [ (n, n + 1, n + 2)%nat ].
Proof.
  assert (H5 : 0 < d * d) by (apply Qmult_lt_0_compat; lra).
  constructor.
  - intros t [<- | []]. cbn [tri_orient].
    rewrite all_point_super0, all_point_super1, all_point_super2.
    unfold orient; cbn [x_of y_of]; nra.
  - intros t j [<- | []] Hj. cbn [tri_incircle].
    assert (Hcases : j = n \/ j = (n + 1)%nat \/ j = (n + 2)%nat)
      by (unfold valid in Hj; lia).
    assert (Hz : incircle_det (P j) (P n) (P (n + 1)) (P (n + 2)) == 0)
      by (destruct Hcases as [-> | [-> | ->]]; points; ring).
    lra.
  - intros t e [<- | []] He. left. unfold super_edge.
    cbn [Delaunay.edges_of In] in He. intuition auto.
  - apply NoDup_super_edges.
  - intros t v [<- | []] Hv. cbn [tri_vertices In] in Hv. unfold valid. lia.
  - intros t t' u v [<- | []] [<- | []] Hu Hv [Hx Hy]. cbn [tri_vertices In] in Hu, Hv.
    destruct Hu as [<- | [<- | [<- | []]]]; destruct Hv as [<- | [<- | [<- | []]]];
      try reflexivity; exfalso;
      rewrite ?all_point_super0, ?all_point_super1, ?all_point_super2 in Hx;
      cbn [x_of] in Hx; lra.
Qed.

Lemma insert_point_invariant (T : list Delaunay.Tri) (k : nat) :
  (k < n)%nat -> invariant P n k T ->
  invariant P n (S k) (Delaunay.insert_point pts (pts ++ Delaunay.superTri pts) T k).
Proof.
  intros Hk Hinv. rewrite insert_point_values.
  - rewrite <- (all_point_input pts k Hk).
    apply (insert_values_invariant P n super_inside super_side T k Hk Hinv).
  - apply (inv_once _ _ _ _ Hinv).
  - intros t Ht. apply (orient_distinct P). now apply (inv_orient _ _ _ _ Hinv).
Qed.

Lemma insert_prefix_invariant (m : nat) :
  (m <= n)%nat ->
  invariant P n m
    (fold_left (Delaunay.insert_point pts (pts ++ Delaunay.superTri pts)) (seq 0 m)
       [ (n, n + 1, n + 2)%nat ]).
Proof.
  induction m as [| m IH]; intro Hm.
  - apply initial_invariant.
  - rewrite seq_S, fold_left_app. cbn [fold_left Nat.add].
    apply insert_point_invariant; [lia | apply IH; lia].
Qed.

Lemma insert_all_invariant : invariant P n n (Delaunay.insert_all pts).
Proof. apply insert_prefix_invariant. lia. Qed.

End Proper.

Section Degenerate.

Hypothesis Hd : d == 0.

Lemma degenerate_test (k : nat) :
  (k < n)%nat ->
  Delaunay.in_circle_of (pts ++ Delaunay.superTri pts) (nth k pts Delaunay.origin)
    (n, n + 1, n + 2)%nat
  = false.
Proof.
  intro Hk. destruct (all_point_in_box k Hk) as [Hu Hv].
  rewrite all_point_input in Hu, Hv by exact Hk.
  cbn [Delaunay.in_circle_of].
  change (nth n (pts ++ Delaunay.superTri pts) Delaunay.origin) with (P n).
  change (nth (n + 1) (pts ++ Delaunay.superTri pts) Delaunay.origin) with (P (n + 1)).
  change (nth (n + 2) (pts ++ Delaunay.superTri pts) Delaunay.origin) with (P (n + 2)).
  rewrite all_point_super0, all_point_super1, all_point_super2.
  apply inCircumcircle_degenerate; split; cbn [x_of y_of]; lra.
Qed.

Lemma degenerate_rounds (l : list nat) :
  (forall k, In k l -> (k < n)%nat) ->
  fold_left (Delaunay.insert_point pts (pts ++ Delaunay.superTri pts)) l [ (n, n + 1, n + 2)%nat ]
  = [ (n, n + 1, n + 2)%nat ].
Proof.
  induction l as [| k l IH]; intro Hl; [reflexivity |].
  cbn [fold_left].
  assert (Hstep : Delaunay.insert_point pts (pts ++ Delaunay.superTri pts)
                    [ (n, n + 1, n + 2)%nat ] k
                  = [ (n, n + 1, n + 2)%nat ]).
  { rewrite insert_point_values.
    - unfold insert_values. cbn [filter].
      rewrite (degenerate_test k (Hl k (or_introl eq_refl))). reflexivity.
    - apply NoDup_super_edges.
    - intros t [<- | []]. cbn [distinct_vertices]. lia. }
  rewrite Hstep. apply IH. intros j Hj. apply Hl. now right.
Qed.

Lemma degenerate_insert_all : Delaunay.insert_all pts = [ (n, n + 1, n + 2)%nat ].
Proof.
  unfold Delaunay.insert_all. cbv zeta. apply degenerate_rounds.
  intros k Hk. apply in_seq in Hk. lia.
Qed.

End Degenerate.

End Super.

(** What the loop over the points maintains, for the triangles that
    [Delaunay.run] returns. *)
Lemma run_triangles_invariant (pts : list XY) (t : Delaunay.Tri) :
  In t (Delaunay.run_triangles pts) ->
  (forall v, In v (tri_vertices t) -> (v < List.length pts)%nat)
  /\ tri_orient (all_point pts) t < 0
  /\ forall k, (k < List.length pts)%nat ->
               0 <= tri_incircle (all_point pts) (all_point pts k) t.
Proof.
  unfold Delaunay.run_triangles. cbv zeta.
  destruct (List.length pts <? 3)%nat eqn:Hn; [intros [] |].
  apply Nat.ltb_ge in Hn. intro Ht. apply filter_In in Ht. destruct Ht as [Ht Hlt].
  assert (Hne : pts <> []) by (intro Heq; subst; cbn in Hn; lia).
  destruct (superTri_spec pts Hne) as (mx & my & d & Hd & Hsuper & Hbox).
  destruct (Qlt_le_dec 0 d) as [Hpos | Hzero].
  - pose proof (insert_all_invariant pts mx my d Hsuper Hbox Hpos) as Hinv.
    split; [| split].
    + destruct t as [[t0 t1] t2]. apply andb_prop in Hlt. destruct Hlt as [Hlt H2].
      apply andb_prop in Hlt. destruct Hlt as [H0 H1].
      apply Nat.ltb_lt in H0, H1, H2.
      cbn [tri_vertices In]. intros v [<- | [<- | [<- | []]]]; assumption.
    + now apply (inv_orient _ _ _ _ Hinv).
    + intros k Hk. apply (inv_empty _ _ _ _ Hinv t k Ht). left. exact Hk.
  - exfalso. assert (Hd0 : d == 0) by lra.
    rewrite (degenerate_insert_all pts mx my d Hsuper Hbox Hd0) in Ht.
    destruct Ht as [<- | []].
    rewrite Nat.ltb_irrefl in Hlt. discriminate.
Qed.

(** *** The triangles of [run] *)

(** The empty circumcircle, with exact determinants.  A triangle [(t0, t1, t2)] that
    [Delaunay.run] produces, before [filterSmallTriangles] culls any, has a
    circumcircle: a centre [o] and a squared radius [r2] with the three
    vertices on the circle; every input point is at least the radius away
    from the centre, so none is in the interior of the circle.  The test
    [Delaunay.inCircumcircle] of the source is false on every input point,
    and no circle through the three vertices has an input point in its
    interior.  Fewer than three points produce no triangle.  The arithmetic
    is the exact one: with the rounding of binary64 the property fails, as
    the last section shows. *)
Theorem run_empty_circumcircle (pts : list XY) (t0 t1 t2 : nat) :
  In (t0, t1, t2) (Delaunay.run_triangles pts) ->
  let p := fun i => nth i pts Delaunay.origin in
  (exists (o : XY) (r2 : Q),
     circumcircle (p t0) (p t1) (p t2) o r2
     /\ forall k, (k < List.length pts)%nat -> r2 <= squared_distance (p k) o)
  /\ (forall k, (k < List.length pts)%nat ->
        Delaunay.inCircumcircle (p k) (p t0) (p t1) (p t2) = false
        /\ ~ inside_circumcircle (p k) (p t0) (p t1) (p t2)).
Proof.
  intros Ht p.
  destruct (run_triangles_invariant pts _ Ht) as (Hv & Hori & Hempty).
  cbn [tri_vertices tri_orient tri_incircle In] in Hv, Hori, Hempty.
  rewrite !all_point_input in Hori by (apply Hv; auto).
  fold (p t0) in Hori. fold (p t1) in Hori. fold (p t2) in Hori.
  assert (Hdet : forall k, (k < List.length pts)%nat ->
            0 <= incircle_det (p k) (p t0) (p t1) (p t2)).
  { intros k Hk. specialize (Hempty k Hk).
    rewrite !all_point_input in Hempty by (try exact Hk; apply Hv; auto).
    exact Hempty. }
  assert (Hnf : ~ orient (p t0) (p t1) (p t2) == 0) by lra.
  assert (Htest : forall k, (k < List.length pts)%nat ->
            Delaunay.inCircumcircle (p k) (p t0) (p t1) (p t2) = false).
  { intros k Hk. rewrite inCircumcircle_unfold.
    assert (Hgt : gtb (orient (p t0) (p t1) (p t2)) 0 = false) by (apply gtb_le; lra).
    rewrite Hgt. apply ltb_ge. now apply Hdet. }
  split.
  - exists (circumcentre (p t0) (p t1) (p t2)).
    exists (squared_distance (p t2) (circumcentre (p t0) (p t1) (p t2))).
    pose proof (circumcentre_circle _ _ _ Hnf) as Hcirc.
    split; [exact Hcirc |]. intros k Hk.
    pose proof (incircle_centre (p k) _ _ _ _ _ Hcirc) as Hid.
    pose proof (Hdet k Hk) as Hge.
    set (r2 := squared_distance (p t2) (circumcentre (p t0) (p t1) (p t2))) in *.
    set (dk := squared_distance (p k) (circumcentre (p t0) (p t1) (p t2))) in *.
    set (o := orient (p t0) (p t1) (p t2)) in *.
    clearbody r2 dk o. nra.
  - intros k Hk. split; [now apply Htest |].
    apply inCircumcircle_outside; [exact Hnf | now apply Htest].
Qed.

(** ** Delaunay triangulation: the triangles of the output *)

(** *** The list of triangles that [run] returns *)



(** ** Triangulation: the areas, the culling and the pixels read *)

(** *** The triangles of [triangulate] *)

Lemma triangles_of_In `{MathImpl} (ctx : Canvas) (pts : list XY) (w h : Q)
    (tris : list Delaunay.Tri) (ts : list Triangle) (t : Triangle) :
  triangles_of ctx pts w h (flat_map (fun '(t0, t1, t2) => [t0; t1; t2]) tris) = Some ts ->
  In t ts ->
  exists t0 t1 t2,
    In (t0, t1, t2) tris
    /\ t = make_triangle ctx w h (nth t0 pts Delaunay.origin) (nth t1 pts Delaunay.origin)
                         (nth t2 pts Delaunay.origin).
Proof.
  revert ts. induction tris as [| [[t0 t1] t2] tris IH]; intros ts Hts Hin.
  - cbn in Hts. inversion Hts; subst. destruct Hin.
  - cbn [flat_map app triangles_of] in Hts.
    destruct (nth_error pts t0) as [p0 |] eqn:H0; [| discriminate].
    destruct (nth_error pts t1) as [p1 |] eqn:H1; [| discriminate].
    destruct (nth_error pts t2) as [p2 |] eqn:H2; [| discriminate].
    destruct (triangles_of ctx pts w h (flat_map (fun '(t0, t1, t2) => [t0; t1; t2]) tris))
      as [ts' |] eqn:Hts'; [| discriminate].
    cbn [option_map] in Hts. inversion Hts; subst. destruct Hin as [<- | Hin].
    + exists t0, t1, t2. split; [now left |].
      now rewrite (nth_error_nth _ _ _ H0), (nth_error_nth _ _ _ H1), (nth_error_nth _ _ _ H2).
    + destruct (IH ts' eq_refl Hin) as (u0 & u1 & u2 & Hu & Heq).
      exists u0, u1, u2. split; [now right | exact Heq].
Qed.

Lemma make_triangle_area `{MathImpl} (ctx : Canvas) (w h : Q) (p0 p1 p2 : XY) :
  area (make_triangle ctx w h p0 p1 p2) == Qabs (orient p0 p1 p2) * (1 # 2).
Proof.
  unfold make_triangle. cbv zeta. cbn [area]. unfold Math_abs.
  assert (Hcross : (x_of p1 - x_of p0) * (y_of p2 - y_of p0)
                   - (x_of p2 - x_of p0) * (y_of p1 - y_of p0) == orient p0 p1 p2)
    by (unfold orient; ring).
  rewrite Hcross. reflexivity.
Qed.

Lemma filterSmallTriangles_In (tris : list Triangle) (t : Triangle) :
  In t (filterSmallTriangles tris) -> In t tris.
Proof.
  destruct tris as [| t0 tris]; [intros [] |].
  unfold filterSmallTriangles. intro Hin. apply filter_In in Hin. tauto.
Qed.

Lemma run_triangles_areas `{MathImpl} (ctx : Canvas) (pts : list XY) (w h : Q)
    (ts : list Triangle) (t : Triangle) :
  triangles_of ctx pts w h (Delaunay.run pts) = Some ts -> In t ts -> 0 < area t.
Proof.
  intros Hts Hin. unfold Delaunay.run in Hts.
  destruct (triangles_of_In ctx pts w h _ ts t Hts Hin) as (t0 & t1 & t2 & Ht & ->).
  rewrite make_triangle_area.
  destruct (run_triangles_invariant pts _ Ht) as (Hv & Hori & _).
  cbn [tri_vertices tri_orient In] in Hv, Hori.
  rewrite !all_point_input in Hori by (apply Hv; auto).
  set (o := orient _ _ _) in *. clearbody o.
  pose proof (Qabs_case o (fun a => 0 < a * (1 # 2))) as Hcase.
  apply Hcase; intro; lra.
Qed.



(** *** How many triangles the culling keeps *)

Lemma Permutation_filter_length {A : Type} (f : A -> bool) (l l' : list A) :
  Permutation l l' -> List.length (filter f l) = List.length (filter f l').
Proof.
  induction 1 as [| a l l' Hp IH | a c l | l l' l'' Hp IH Hp' IH']; cbn [filter].
  - reflexivity.
  - destruct (f a); cbn [List.length]; now rewrite IH.
  - destruct (f a), (f c); reflexivity.
  - now rewrite IH.
Qed.

Lemma sorted_from (s : list Q) (k : nat) :
  StronglySorted Qle s -> (k < List.length s)%nat ->
  Forall (fun v => nth k s 0 <= v) (skipn k s).
Proof.
  revert s. induction k as [| k IH]; intros s Hs Hk.
  - destruct s as [| a s]; [cbn in Hk; lia |].
    cbn [skipn nth]. inversion Hs; subst. constructor; [lra | assumption].
  - destruct s as [| a s]; [cbn in Hk; lia |].
    cbn [skipn nth]. inversion Hs; subst. apply IH; [assumption | cbn in Hk; lia].
Qed.

Lemma filter_all {A : Type} (f : A -> bool) (l : list A) :
  Forall (fun a => f a = true) l -> filter f l = l.
Proof.
  induction 1 as [| a l Ha Hl IH]; cbn [filter]; [reflexivity |].
  now rewrite Ha, IH.
Qed.

Lemma filter_upper_half (s : list Q) (c : Q) :
  StronglySorted Qle s -> s <> [] -> c <= nth (List.length s / 2) s 0 ->
  (List.length s - List.length s / 2 <= List.length (filter (fun v => geb v c) s))%nat.
Proof.
  intros Hs Hne Hc. set (k := (List.length s / 2)%nat) in *.
  assert (Hk : (k < List.length s)%nat).
  { subst k. destruct s as [| a s]; [contradiction |].
    apply Nat.Div0.div_lt_upper_bound. cbn [List.length]. lia. }
  pose proof (sorted_from s k Hs Hk) as Hfrom.
  assert (Hsplit : List.length (filter (fun v => geb v c) s)
                   = (List.length (filter (fun v => geb v c) (firstn k s))
                      + List.length (skipn k s))%nat).
  { rewrite <- (firstn_skipn k s) at 1. rewrite filter_app, length_app.
    rewrite (filter_all (fun v => geb v c) (skipn k s)); [reflexivity |].
    eapply Forall_impl; [| exact Hfrom]. intros v Hv. cbv beta in Hv.
    apply geb_ge. lra. }
  rewrite Hsplit, length_skipn. lia.
Qed.

Lemma or_else_nonzero (v d : Q) : ~ v == 0 -> or_else v d = v.
Proof.
  intro Hnz. unfold or_else. destruct (Qeq_bool v 0) eqn:Heq; [| reflexivity].
  apply Qeq_bool_iff in Heq. contradiction.
Qed.

Lemma filter_map_area (c : Q) (l : list Triangle) :
  map area (filter (fun t => geb (area t) c) l) = filter (fun v => geb v c) (map area l).
Proof.
  induction l as [| a l IH]; cbn [filter map]; [reflexivity |].
  destruct (geb (area a) c); cbn [map]; now rewrite IH.
Qed.

Lemma filterSmallTriangles_cut (tris : list Triangle) :
  tris <> [] ->
  filterSmallTriangles tris
  = filter (fun t => geb (area t) (or_else (median_area tris) 1 * 0.28)) tris.
Proof.
  destruct tris as [| t0 tris]; [contradiction |]. intros _.
  unfold filterSmallTriangles, median_area. cbv zeta.
  now rewrite sort_ascending_length, length_map.
Qed.

Lemma filterSmallTriangles_half (tris : list Triangle) :
  0 < median_area tris ->
  (List.length tris - List.length tris / 2 <= List.length (filterSmallTriangles tris))%nat.
Proof.
  intro Hmed. destruct tris as [| t0 tris]; [cbn; lia |].
  set (l := t0 :: tris) in *.
  rewrite (filterSmallTriangles_cut l) by discriminate.
  rewrite (or_else_nonzero (median_area l) 1) by lra.
  set (m := median_area l) in *. set (s := sort_ascending (map area l)).
  assert (Hlen : List.length s = List.length l)
    by (subst s; now rewrite sort_ascending_length, length_map).
  assert (Hm : m = nth (List.length s / 2) s 0) by (rewrite Hlen; reflexivity).
  assert (Hcount : List.length (filter (fun t => geb (area t) (m * 0.28)) l)
                   = List.length (filter (fun v => geb v (m * 0.28)) s)).
  { subst s. rewrite <- (Permutation_filter_length _ _ _ (sort_ascending_perm (map area l))).
    rewrite <- (length_map area (filter _ l)). f_equal. apply filter_map_area. }
  rewrite Hcount, <- Hlen.
  apply filter_upper_half.
  - apply sort_ascending_sorted.
  - intro Heq. rewrite Heq in Hlen. discriminate.
  - rewrite <- Hm. lra.
Qed.

(** X7.  When the median area is positive, the triangles of the upper half of
    the areas survive the culling: half of the triangles at least. *)
Theorem filterSmallTriangles_keeps_half (tris : list Triangle) :
  0 < median_area tris ->
  (List.length tris - List.length tris / 2 <= List.length (filterSmallTriangles tris))%nat.
Proof. apply filterSmallTriangles_half. Qed.

Lemma filterSmallTriangles_keeps_half_witness :
  0 < median_area three_triangles
  /\ (List.length three_triangles - List.length three_triangles / 2
      <= List.length (filterSmallTriangles three_triangles))%nat.
Proof.
  assert (Hmed : 0 < median_area three_triangles) by (vm_compute; reflexivity).
  split; [exact Hmed | exact (filterSmallTriangles_keeps_half three_triangles Hmed)].
Defined.



(** *** The pixels that are read *)

Lemma clamp_range (v lo hi : Q) : lo <= hi -> lo <= clamp v lo hi <= hi.
Proof.
  intro Hle. unfold clamp, Math_max, Math_min. split.
  - apply Q.le_max_l.
  - apply Q.max_lub; [exact Hle | apply Q.le_min_l].
Qed.

Lemma clamp_floor_range (v : Q) (W : Z) :
  (1 <= W)%Z -> (0 <= Qfloor (clamp v 0 (inject_Z W - 1)) < W)%Z.
Proof.
  intro HW.
  assert (Hhi : inject_Z W - 1 == inject_Z (W - 1)).
  { unfold Z.sub. rewrite inject_Z_plus. reflexivity. }
  assert (Hle : 0 <= inject_Z W - 1).
  { rewrite Hhi. change 0 with (inject_Z 0). rewrite <- Zle_Qle. lia. }
  destruct (clamp_range v 0 (inject_Z W - 1) Hle) as [Hlo Hup].
  split.
  - change 0%Z with (Qfloor 0). now apply Qfloor_resp_le.
  - apply Qfloor_resp_le in Hup.
    rewrite (Qfloor_comp _ _ Hhi), Qfloor_Z in Hup. lia.
Qed.

Section ReadsInside.

Variables (W H : Z) (ctx ctx' : Canvas).
Hypothesis HW : (1 <= W)%Z.
Hypothesis HH : (1 <= H)%Z.
Hypothesis Hagree : agree_inside W H ctx ctx'.

Local Abbreviation w := (inject_Z W).
Local Abbreviation h := (inject_Z H).

Lemma sampleColor_agree (px py : Q) :
  sampleColor ctx (clamp px 0 (w - 1)) (clamp py 0 (h - 1))
  = sampleColor ctx' (clamp px 0 (w - 1)) (clamp py 0 (h - 1)).
Proof.
  unfold sampleColor.
  now rewrite (Hagree _ _ (clamp_floor_range px W HW) (clamp_floor_range py H HH)).
Qed.

Lemma sampleRGB_agree (px py : Q) :
  sampleRGB ctx (clamp px 0 (w - 1)) (clamp py 0 (h - 1))
  = sampleRGB ctx' (clamp px 0 (w - 1)) (clamp py 0 (h - 1)).
Proof.
  unfold sampleRGB.
  now rewrite (Hagree _ _ (clamp_floor_range px W HW) (clamp_floor_range py H HH)).
Qed.

Lemma make_triangle_agree {M : MathImpl} (p0 p1 p2 : XY) :
  make_triangle ctx w h p0 p1 p2 = make_triangle ctx' w h p0 p1 p2.
Proof. unfold make_triangle. now rewrite !sampleColor_agree. Qed.

Lemma triangles_of_agree {M : MathImpl} (pts : list XY) (idx : list nat) :
  triangles_of ctx pts w h idx = triangles_of ctx' pts w h idx.
Proof.
  remember (List.length idx) as n eqn:Hn.
  revert idx Hn. induction n as [n IH] using lt_wf_ind. intros idx Hn.
  destruct idx as [| i0 [| i1 [| i2 idx']]]; try reflexivity.
  cbn [triangles_of].
  destruct (nth_error pts i0), (nth_error pts i1), (nth_error pts i2); try reflexivity.
  rewrite make_triangle_agree.
  rewrite (IH (List.length idx')); [reflexivity | subst n; cbn; lia | reflexivity].
Qed.

Lemma regionVariance_agree {M : MathImpl} (px py radius : Q) :
  regionVariance ctx px py radius w h = regionVariance ctx' px py radius w h.
Proof.
  unfold regionVariance. cbv zeta. rewrite sampleRGB_agree.
  f_equal. cbn [seq fold_left]. now rewrite !sampleRGB_agree.
Qed.

Lemma sampleRegionAvg_agree (px py radius : Q) :
  sampleRegionAvg ctx px py radius w h = sampleRegionAvg ctx' px py radius w h.
Proof.
  unfold sampleRegionAvg. cbn [flat_map map app]. now rewrite !sampleRGB_agree.
Qed.

Lemma analyzeBaseGradient_agree {M : MathImpl} :
  analyzeBaseGradient ctx w h = analyzeBaseGradient ctx' w h.
Proof.
  unfold analyzeBaseGradient. cbv zeta.
  assert (Hgrid : grid_samples ctx w h = grid_samples ctx' w h).
  { unfold grid_samples. cbv zeta. cbn [seq flat_map map app].
    now rewrite !sampleRegionAvg_agree. }
  now rewrite Hgrid.
Qed.

Lemma localDist_agree {M : MathImpl} (baseMinDist : Q) (settings : MoodSettings) (px py : Q) :
  localDist ctx w h baseMinDist settings px py
  = localDist ctx' w h baseMinDist settings px py.
Proof. unfold localDist. now rewrite regionVariance_agree. Qed.

Lemma attempts_agree {M : MathImpl} (baseMinDist : Q) (settings : MoodSettings)
    (random : nat -> Q) (left : nat) (p : XY) (ld : Q) (s : Sampler) :
  attempts ctx w h baseMinDist settings random left p ld s
  = attempts ctx' w h baseMinDist settings random left p ld s.
Proof.
  revert s. induction left as [| left IH]; intro s; [reflexivity |].
  cbn [attempts]. rewrite localDist_agree, !IH. reflexivity.
Qed.

Lemma sample_round_agree {M : MathImpl} (baseMinDist : Q) (settings : MoodSettings)
    (maxAttempts : nat) (random : nat -> Q) (s : Sampler) :
  sample_round ctx w h baseMinDist settings maxAttempts random s
  = sample_round ctx' w h baseMinDist settings maxAttempts random s.
Proof. unfold sample_round. now rewrite localDist_agree, attempts_agree. Qed.

Lemma sample_loop_agree {M : MathImpl} (baseMinDist : Q) (settings : MoodSettings)
    (maxAttempts : nat) (random : nat -> Q) (fuel : nat) (s : Sampler) :
  sample_loop ctx w h baseMinDist settings maxAttempts random fuel s
  = sample_loop ctx' w h baseMinDist settings maxAttempts random fuel s.
Proof.
  revert s. induction fuel as [| fuel IH]; intro s; [reflexivity |].
  cbn [sample_loop]. destruct (active s); [reflexivity |].
  now rewrite sample_round_agree, IH.
Qed.

End ReadsInside.

(** X9.  On a canvas of [W] columns and [H] rows, [triangulate],
    [analyzeBaseGradient] and [adaptivePoissonSampling] read no pixel outside
    the columns [0 .. W - 1] and the rows [0 .. H - 1], wherever the points
    are: two canvases with the same pixels there give the same results. *)
Theorem canvas_read_inside (M : MathImpl) (W H : Z) (ctx ctx' : Canvas) :
  (1 <= W)%Z -> (1 <= H)%Z -> agree_inside W H ctx ctx' ->
  (forall pts, triangulate ctx pts (inject_Z W) (inject_Z H)
               = triangulate ctx' pts (inject_Z W) (inject_Z H))
  /\ analyzeBaseGradient ctx (inject_Z W) (inject_Z H)
     = analyzeBaseGradient ctx' (inject_Z W) (inject_Z H)
  /\ (forall baseMinDist settings maxAttempts random fuel,
        adaptivePoissonSampling ctx (inject_Z W) (inject_Z H) baseMinDist settings
                                maxAttempts random fuel
        = adaptivePoissonSampling ctx' (inject_Z W) (inject_Z H) baseMinDist settings
                                  maxAttempts random fuel).
Proof.
  intros HW HH Hagree. split; [| split].
  - intro pts. unfold triangulate. cbv zeta.
    now rewrite (triangles_of_agree W H ctx ctx' HW HH Hagree).
  - exact (analyzeBaseGradient_agree W H ctx ctx' HW HH Hagree).
  - intros baseMinDist settings maxAttempts random fuel.
    unfold adaptivePoissonSampling.
    now rewrite (sample_loop_agree W H ctx ctx' HW HH Hagree).
Qed.

Lemma canvas_read_inside_witness :
  agree_inside 6 6 grey_canvas framed_canvas
  /\ triangulate (H := RefMath) grey_canvas
       [ mkXY 0 0; mkXY 6 0; mkXY 6 6; mkXY 0 6; mkXY 3 2 ] (inject_Z 6) (inject_Z 6)
     = triangulate (H := RefMath) framed_canvas
         [ mkXY 0 0; mkXY 6 0; mkXY 6 6; mkXY 0 6; mkXY 3 2 ] (inject_Z 6) (inject_Z 6).
Proof.
  assert (Hagree : agree_inside 6 6 grey_canvas framed_canvas).
  { intros px py Hx Hy. unfold framed_canvas, grey_canvas.
    destruct (Z.leb_spec 0 px), (Z.ltb_spec px 6), (Z.leb_spec 0 py), (Z.ltb_spec py 6);
      try lia. reflexivity. }
  split; [exact Hagree |].
  apply (canvas_read_inside RefMath 6 6 grey_canvas framed_canvas); [lia | lia | exact Hagree].
Defined.

(** ** Boundary points *)

(** *** Numbers *)

Lemma of_nat_S (k : nat) : of_nat (S k) == of_nat k + 1.
Proof. unfold of_nat. rewrite Nat2Z.inj_succ, <- Z.add_1_r, inject_Z_plus. reflexivity. Qed.

Lemma of_nat_nonneg (k : nat) : 0 <= of_nat k.
Proof. unfold of_nat. change 0 with (inject_Z 0). rewrite <- Zle_Qle. lia. Qed.

Lemma archimedean (x spacing : Q) : 0 < spacing -> exists N : nat, x <= of_nat N * spacing.
Proof.
  intro Hs. exists (Z.to_nat (Qceiling (x / spacing))).
  assert (Hc : x / spacing <= of_nat (Z.to_nat (Qceiling (x / spacing)))).
  { eapply Qle_trans; [apply Qle_ceiling |].
    unfold of_nat. rewrite <- Zle_Qle. lia. }
  assert (Hx : x == x / spacing * spacing) by (field; lra).
  rewrite Hx at 1. apply Qmult_le_compat_r; [exact Hc | lra].
Qed.

(** *** The loops of [addBoundaryPoints] *)

Lemma boundary_loop_ends (limit spacing : Q) (pair : Q -> list XY) (N : nat) :
  0 < spacing ->
  forall (v : Q) (bp : list XY),
    limit <= v + of_nat N * spacing ->
    exists k : nat,
      (k <= N)%nat
      /\ (forall fuel, (k <= fuel)%nat ->
            boundary_loop fuel v limit spacing pair bp
            = Some (bp ++ flat_map pair (arithmetic k v spacing)))
      /\ (forall i, (i < k)%nat -> v + of_nat i * spacing < limit)
      /\ limit <= v + of_nat k * spacing.
Proof.
  intro Hs. induction N as [| N IH]; intros v bp Hlim.
  - exists 0%nat. change (of_nat 0) with 0 in *.
    assert (Hge : ltb v limit = false) by (apply ltb_ge; lra).
    split; [lia | split; [| split]].
    + intros fuel _. destruct fuel; cbn [boundary_loop arithmetic flat_map];
        rewrite Hge, app_nil_r; reflexivity.
    + intros i Hi. lia.
    + lra.
  - destruct (ltb v limit) eqn:Hlt.
    + rewrite of_nat_S in Hlim.
      destruct (IH (v + spacing) (bp ++ pair v)) as (k & Hk & Hrun & Hbelow & Hstop);
        [lra |].
      exists (S k). split; [lia | split; [| split]].
      * intros fuel Hfuel. destruct fuel as [| fuel]; [lia |].
        cbn [boundary_loop arithmetic flat_map]. rewrite Hlt, Hrun by lia.
        now rewrite <- app_assoc.
      * intros i Hi. destruct i as [| i].
        -- change (of_nat 0) with 0. apply ltb_lt in Hlt. lra.
        -- rewrite of_nat_S. pose proof (Hbelow i ltac:(lia)). lra.
      * rewrite of_nat_S. lra.
    + exists 0%nat. change (of_nat 0) with 0.
      split; [lia | split; [| split]].
      * intros fuel _. destruct fuel; cbn [boundary_loop arithmetic flat_map];
          rewrite Hlt, app_nil_r; reflexivity.
      * intros i Hi. lia.
      * apply ltb_ge in Hlt. lra.
Qed.

Lemma boundary_loop_multiples (limit spacing : Q) (pair : Q -> list XY) (bp : list XY) :
  0 < spacing ->
  exists k : nat,
    multiples_below k spacing limit
    /\ forall fuel, (k <= fuel)%nat ->
         boundary_loop fuel spacing limit spacing pair bp
         = Some (bp ++ flat_map pair (arithmetic k spacing spacing)).
Proof.
  intro Hs. destruct (archimedean limit spacing Hs) as [N HN].
  destruct (boundary_loop_ends limit spacing pair N Hs spacing bp) as (k & _ & Hrun & Hb & Hstop).
  { pose proof (of_nat_nonneg N). nra. }
  exists k. split; [split |].
  - intros i Hi. destruct i as [| i]; [lia |].
    rewrite of_nat_S. pose proof (Hb i ltac:(lia)). lra.
  - replace (k + 1)%nat with (S k) by lia. rewrite of_nat_S. lra.
  - exact Hrun.
Qed.

Lemma boundary_loop_runs (limit spacing : Q) (pair : Q -> list XY) :
  spacing <= 0 ->
  forall (fuel : nat) (v : Q) (bp : list XY),
    v < limit -> boundary_loop fuel v limit spacing pair bp = None.
Proof.
  intro Hs. induction fuel as [| fuel IH]; intros v bp Hv;
    cbn [boundary_loop]; apply ltb_lt in Hv; rewrite Hv; [reflexivity |].
  apply IH. apply ltb_lt in Hv. lra.
Qed.

(** X11.  With a spacing of 0 or less that is below the width or the height,
    the loop of [addBoundaryPoints] never ends: no number of rounds is
    enough. *)
Theorem addBoundaryPoints_hangs (pts : list XY) (w h spacing : Q) (fuel : nat) :
  spacing <= 0 -> spacing < w \/ spacing < h ->
  addBoundaryPoints fuel pts w h spacing = None.
Proof.
  intros Hs Hlim. unfold addBoundaryPoints. cbv zeta.
  destruct (boundary_loop fuel spacing w spacing _ _) as [bp1 |] eqn:Hrun1; [| reflexivity].
  destruct Hlim as [Hw | Hh].
  - rewrite (boundary_loop_runs w spacing _ Hs fuel spacing _ Hw) in Hrun1. discriminate.
  - now rewrite (boundary_loop_runs h spacing _ Hs fuel spacing bp1 Hh).
Qed.

Lemma addBoundaryPoints_hangs_witness :
  0 <= 0 /\ (0 < 10 \/ 0 < 8) /\ addBoundaryPoints 1000 [ mkXY 5 5 ] 10 8 0 = None.
Proof.
  assert (Hs : 0 <= 0) by (apply Qle_refl).
  assert (Hl : 0 < 10 \/ 0 < 8) by (left; reflexivity).
  split; [exact Hs | split; [exact Hl |]].
  exact (addBoundaryPoints_hangs [ mkXY 5 5 ] 10 8 0 1000 Hs Hl).
Defined.

Lemma addBoundaryPoints_multiples_aux (pts : list XY) (w h spacing : Q) :
  0 < spacing ->
  exists a c : nat,
    forall fuel, (a <= fuel)%nat -> (c <= fuel)%nat ->
      addBoundaryPoints fuel pts w h spacing
      = Some (pts ++ [ mkXY 0 0; mkXY w 0; mkXY 0 h; mkXY w h ]
                  ++ flat_map (fun x => [ mkXY x 0; mkXY x h ])
                              (arithmetic a spacing spacing)
                  ++ flat_map (fun y => [ mkXY 0 y; mkXY w y ])
                              (arithmetic c spacing spacing)).
Proof.
  intro Hs.
  destruct (boundary_loop_multiples w spacing (fun x => [ mkXY x 0; mkXY x h ])
              [ mkXY 0 0; mkXY w 0; mkXY 0 h; mkXY w h ] Hs) as (a & Ha & Hrun1).
  destruct (boundary_loop_multiples h spacing (fun y => [ mkXY 0 y; mkXY w y ])
              ([ mkXY 0 0; mkXY w 0; mkXY 0 h; mkXY w h ]
               ++ flat_map (fun x => [ mkXY x 0; mkXY x h ]) (arithmetic a spacing spacing))
              Hs) as (c & Hc & Hrun2).
  exists a, c. intros fuel Hfa Hfc. unfold addBoundaryPoints. cbv zeta.
  rewrite (Hrun1 fuel Hfa), (Hrun2 fuel Hfc). now rewrite <- app_assoc.
Qed.

(** *** The spacing of the pipeline *)

Lemma moodToMinDistance_floor (mood width height : Q) :
  24 <= moodToMinDistance mood width height.
Proof. unfold moodToMinDistance, Math_max. cbv zeta. apply Q.le_max_r. Qed.

(** X12.  With the spacing that [processImage] passes, [moodToMinDistance], the
    loops of [addBoundaryPoints] end whatever the mood and the size of the
    image, and the result has the given points and four points more at
    least: the triangulation has its three points. *)
Theorem addBoundaryPoints_in_pipeline (pts : list XY) (mood w h : Q) :
  exists (k : nat) (out : list XY),
    (forall fuel, (k <= fuel)%nat ->
       addBoundaryPoints fuel pts w h (moodToMinDistance mood w h) = Some out)
    /\ firstn (List.length pts) out = pts
    /\ (List.length pts + 4 <= List.length out)%nat.
Proof.
  pose proof (moodToMinDistance_floor mood w h) as Hfloor.
  assert (Hs : 0 < moodToMinDistance mood w h) by lra.
  destruct (addBoundaryPoints_multiples_aux pts w h _ Hs) as (a & c & Hrun).
  exists (Nat.max a c). eexists. split; [| split].
  - intros fuel Hfuel. apply Hrun; lia.
  - rewrite firstn_app, Nat.sub_diag, firstn_all. cbn [firstn]. apply app_nil_r.
  - rewrite !length_app. cbn [List.length]. lia.
Qed.

(** ** Adaptive Poisson disk sampling: the state of the sampler *)

(** *** The spacing as a function of the mood *)

(** X13.  On an image whose smaller side is at most 165, the spacing is 24 for
    every mood up to 100: the slider does not change it. *)
Theorem moodToMinDistance_small_image (mood width height : Q) :
  mood <= 100 -> 0 <= Math_min width height <= 165 ->
  moodToMinDistance mood width height == 24.
Proof.
  intros Hm [Hlo Hhi]. unfold moodToMinDistance, Math_max. cbv zeta.
  set (s := Math_min width height) in *. clearbody s.
  assert (Ht : mood / 100 == mood * (1 # 100)) by reflexivity.
  set (t := mood / 100) in *. clearbody t.
  apply Q.max_r.
  assert (Hf : 0.035 + t * 0.11 <= 0.145) by lra.
  destruct (Qlt_le_dec (0.035 + t * 0.11) 0) as [Hneg | Hpos]; nra.
Qed.

Lemma moodToMinDistance_small_image_witness :
  100 <= 100 /\ 0 <= Math_min 160 120 <= 165 /\ moodToMinDistance 100 160 120 == 24.
Proof.
  assert (Hm : 100 <= 100) by discriminate.
  assert (Hs : 0 <= Math_min 160 120 <= 165) by (split; vm_compute; discriminate).
  split; [exact Hm | split; [exact Hs |]].
  exact (moodToMinDistance_small_image 100 160 120 Hm Hs).
Defined.

(** *** The local spacing *)

Lemma regionVariance_nonneg {M : MathImpl} (ctx : Canvas) (px py radius w h : Q) :
  (forall v, 0 <= Math_sqrt v) -> 0 <= regionVariance ctx px py radius w h.
Proof.
  intro Hsqrt. unfold regionVariance. cbv zeta. cbn [seq fold_left].
  unfold colorDistance. cbv zeta.
  repeat match goal with
         | |- context [Math_sqrt ?v] =>
             let d := fresh "d" in
             let Hd := fresh "Hd" in
             pose proof (Hsqrt v) as Hd; set (d := Math_sqrt v) in *; clearbody d
         end.
  assert (Height : forall v, v / of_nat 8 == v * (1 # 8)) by (intro; reflexivity).
  rewrite Height. lra.
Qed.

(** X14.  In the pipeline, where the base spacing is [moodToMinDistance mood w h]
    and the settings are [moodToSettings mood] for a mood that is not
    negative, the local spacing is 6.72 at least, and not more than the
    base spacing times [minShapeScale] when square roots are not negative. *)
Theorem localDist_in_pipeline (M : MathImpl) (ctx : Canvas) (mood w h px py : Q) :
  0 <= mood ->
  6.72 <= localDist ctx w h (moodToMinDistance mood w h) (moodToSettings mood) px py
  /\ ((forall v, 0 <= Math_sqrt v) ->
      localDist ctx w h (moodToMinDistance mood w h) (moodToSettings mood) px py
      <= moodToMinDistance mood w h * minShapeScale (moodToSettings mood)).
Proof.
  intro Hmood. unfold localDist. cbv zeta.
  assert (Hbase : 24 <= moodToMinDistance mood w h)
    by (unfold moodToMinDistance, Math_max; cbv zeta; apply Q.le_max_r).
  set (base := moodToMinDistance mood w h) in *.
  assert (Hscale : 0.8 <= minShapeScale (moodToSettings mood)).
  { unfold moodToSettings. cbn [minShapeScale].
    assert (Ht : mood / 100 == mood * (1 # 100)) by reflexivity.
    set (t := mood / 100) in *. clearbody t. lra. }
  assert (Hsens : 0 <= adaptiveSensitivity (moodToSettings mood)).
  { unfold moodToSettings. cbn [adaptiveSensitivity].
    assert (Ht : mood / 100 == mood * (1 # 100)) by reflexivity.
    set (t := mood / 100) in *. clearbody t. lra. }
  set (scale := minShapeScale (moodToSettings mood)) in *.
  set (sens := adaptiveSensitivity (moodToSettings mood)) in *.
  set (v := regionVariance ctx px py base w h).
  unfold Math_max.
  pose proof (Q.le_max_l 0.35 (1 - v / 255 * sens)) as Hfloor.
  split.
  - set (f := Qmax 0.35 (1 - v / 255 * sens)) in *. clearbody f base scale.
    assert (H1 : 24 * 0.35 <= base * f) by nra. nra.
  - intro Hsqrt.
    pose proof (regionVariance_nonneg ctx px py base w h Hsqrt) as Hv. fold v in Hv.
    assert (Hupper : Qmax 0.35 (1 - v / 255 * sens) <= 1).
    { apply Q.max_lub; [discriminate |].
      assert (Hdiv : v / 255 == v * (1 # 255)) by reflexivity.
      rewrite Hdiv. clearbody v sens. nra. }
    set (f := Qmax 0.35 (1 - v / 255 * sens)) in *. clearbody f base scale.
    assert (H1 : base * f <= base) by nra. nra.
Qed.

Lemma localDist_in_pipeline_witness :
  0 <= 50
  /\ 6.72 <= localDist (M := RefMath) grey_canvas 100 100 (moodToMinDistance 50 100 100)
                       (moodToSettings 50) 10 10.
Proof.
  assert (Hm : 0 <= 50) by discriminate. split; [exact Hm |].
  exact (proj1 (localDist_in_pipeline RefMath grey_canvas 50 100 100 10 10 Hm)).
Defined.

(** *** The state of the sampler *)

Lemma nth_set_nth_cases {A : Type} (l : list A) (a i : nat) (v d : A) :
  nth i (set_nth l a v) d = nth i l d \/ (i = a /\ nth i (set_nth l a v) d = v).
Proof.
  revert a i. induction l as [| u l IH]; intros a i; [left; now destruct a |].
  destruct a as [| a], i as [| i]; cbn [set_nth nth]; auto.
  destruct (IH a i) as [Heq | [-> Heq]]; auto.
Qed.

Lemma remove_nth_In {A : Type} (l : list A) (i : nat) (a : A) :
  In a (remove_nth l i) -> In a l.
Proof.
  revert i. induction l as [| u l IH]; intros i Hin; [now destruct i |].
  destruct i as [| i]; cbn [remove_nth] in Hin; [now right |].
  destruct Hin as [<- | Hin]; [now left | right; eauto].
Qed.

Lemma nth_repeat_cases {A : Type} (a d : A) (n i : nat) :
  nth i (repeat a n) d = a \/ nth i (repeat a n) d = d.
Proof.
  revert i. induction n as [| n IH]; intros [| i]; cbn [repeat nth]; auto.
Qed.

Lemma empty_grid_get (n m : nat) (i j : Z) :
  grid_get (repeat (repeat None m) n) i j = None.
Proof.
  unfold grid_get.
  destruct (nth_repeat_cases (repeat (@None nat) m) [] n (Z.to_nat i)) as [-> | ->].
  - destruct (nth_repeat_cases (@None nat) None m (Z.to_nat j)) as [-> | ->]; reflexivity.
  - now destruct (Z.to_nat j).
Qed.

(** The three conditions on the indices and the places. *)
Lemma addPoint_keeps (w h baseMinDist : Q) (s : Sampler) (px py : Q) :
  (forall q, In q (pts s) -> (0 <= x_of q < w) /\ (0 <= y_of q < h)) ->
  (forall i, In i (active s) -> (i < List.length (pts s))%nat) ->
  (forall i j idx, grid_get (grid s) i j = Some idx -> (idx < List.length (pts s))%nat) ->
  0 <= px < w -> 0 <= py < h ->
  let s' := addPoint w h baseMinDist s px py in
  (forall q, In q (pts s') -> (0 <= x_of q < w) /\ (0 <= y_of q < h))
  /\ (forall i, In i (active s') -> (i < List.length (pts s'))%nat)
  /\ (forall i j idx, grid_get (grid s') i j = Some idx -> (idx < List.length (pts s'))%nat)
  /\ pts s' = pts s ++ [mkXY px py].
Proof.
  intros Hpts Hact Hgrid Hx Hy. unfold addPoint. cbv zeta. cbn [pts active grid].
  split; [| split; [| split; [| reflexivity]]].
  - intros q Hq. apply in_app_or in Hq. destruct Hq as [Hq | [<- | []]]; auto.
  - intros i Hi. rewrite length_app. cbn [List.length].
    apply in_app_or in Hi. destruct Hi as [Hi | [<- | []]]; [| lia].
    pose proof (Hact i Hi). lia.
  - intros i j idx Hget. rewrite length_app. cbn [List.length].
    match type of Hget with
    | grid_get (if ?c then _ else _) _ _ = _ => destruct c
    end.
    + unfold grid_get in Hget.
      match type of Hget with
      | nth ?J (nth ?I (set_nth ?l ?a ?v) ?d) ?d' = _ =>
          destruct (nth_set_nth_cases l a I v d) as [Heq | [Hi Heq]]; rewrite Heq in Hget
      end.
      * pose proof (Hgrid i j idx Hget). lia.
      * match type of Hget with
        | nth ?J (set_nth ?l ?a ?v) ?d = _ =>
            destruct (nth_set_nth_cases l a J v d) as [Heq' | [Hj Heq']]; rewrite Heq' in Hget
        end.
        -- rewrite <- Hi in Hget. pose proof (Hgrid i j idx Hget). lia.
        -- inversion Hget. lia.
    + pose proof (Hgrid i j idx Hget). lia.
Qed.

Section SamplerState.

Context {M : MathImpl}.
Variables (ctx : Canvas) (w h baseMinDist : Q) (settings : MoodSettings).
Variables (maxAttempts : nat) (random : nat -> Q).
Hypothesis Hw : 0 < w.
Hypothesis Hh : 0 < h.

Lemma initial_sampler_ok : sampler_ok w h (initial_sampler w h baseMinDist).
Proof.
  assert (Hhalf : forall v, 0 < v -> 0 <= v / 2 < v).
  { intros v Hv. assert (Hd : v / 2 == v * (1 # 2)) by reflexivity. rewrite Hd. lra. }
  unfold initial_sampler.
  destruct (addPoint_keeps w h baseMinDist
              (mkSampler (repeat (repeat None (Z.to_nat (gh h baseMinDist)))
                                 (Z.to_nat (gw w baseMinDist))) [] [] 0)
              (w / 2) (h / 2)) as (H1 & H2 & H3 & H4); cbn [pts active grid]; auto.
  - intros q [].
  - intros i [].
  - intros i j idx Hget. now rewrite empty_grid_get in Hget.
  - unfold sampler_ok. rewrite H4 in *. cbn [pts] in *. auto.
Qed.

Lemma addPoint_ok (s : Sampler) (px py : Q) :
  sampler_ok w h s -> 0 <= px < w -> 0 <= py < h ->
  sampler_ok w h (addPoint w h baseMinDist s px py).
Proof.
  intros (Hpts & Hact & Hgrid & Hfirst) Hx Hy.
  destruct (addPoint_keeps w h baseMinDist s px py Hpts Hact Hgrid Hx Hy)
    as (H1 & H2 & H3 & H4).
  unfold sampler_ok. split; [exact H1 | split; [exact H2 | split; [exact H3 |]]].
  rewrite H4. destruct (pts s) as [| q l]; [discriminate | exact Hfirst].
Qed.

Lemma attempts_ok (left : nat) (p : XY) (ld : Q) (s : Sampler) :
  sampler_ok w h s ->
  sampler_ok w h (fst (attempts ctx w h baseMinDist settings random left p ld s)).
Proof.
  revert s. induction left as [| left IH]; intros s Hok; [exact Hok |].
  cbn [attempts].
  set (s' := mkSampler (grid s) (pts s) (active s) (calls s + 2)).
  assert (Hok' : sampler_ok w h s') by exact Hok.
  set (nx := x_of p + Math_cos (random (calls s) * Math_PI * 2)
                      * (ld + random (calls s + 1)%nat * ld)).
  set (ny := y_of p + Math_sin (random (calls s) * Math_PI * 2)
                      * (ld + random (calls s + 1)%nat * ld)).
  destruct (geb nx 0 && ltb nx w && geb ny 0 && ltb ny h) eqn:Hin; [| now apply IH].
  destruct (negb (tooClose w h baseMinDist s' nx ny
                    (localDist ctx w h baseMinDist settings nx ny))); [| now apply IH].
  cbn [fst]. apply andb_prop in Hin. destruct Hin as [Hin H4].
  apply andb_prop in Hin. destruct Hin as [Hin H3].
  apply andb_prop in Hin. destruct Hin as [H1 H2].
  apply geb_ge in H1, H3. apply ltb_lt in H2, H4.
  apply addPoint_ok; auto.
Qed.

Lemma sample_round_ok (s : Sampler) :
  sampler_ok w h s ->
  sampler_ok w h (sample_round ctx w h baseMinDist settings maxAttempts random s).
Proof.
  intro Hok. unfold sample_round. cbv zeta.
  match goal with
  | |- context [attempts ?c ?w' ?h' ?b ?st ?r ?l ?p ?ld ?s1] =>
      pose proof (attempts_ok l p ld s1 Hok) as Hatt;
      destruct (attempts c w' h' b st r l p ld s1) as [s2 found]
  end.
  cbn [fst] in Hatt. destruct found; [exact Hatt |].
  destruct Hatt as (Hpts & Hact & Hgrid & Hfirst).
  unfold sampler_ok. cbn [pts active grid].
  split; [exact Hpts | split; [| split; [exact Hgrid | exact Hfirst]]].
  intros i Hi. apply Hact. eapply remove_nth_In, Hi.
Qed.

Lemma sample_loop_ok (fuel : nat) (s s' : Sampler) :
  sampler_ok w h s ->
  sample_loop ctx w h baseMinDist settings maxAttempts random fuel s = Some s' ->
  sampler_ok w h s'.
Proof.
  revert s. induction fuel as [| fuel IH]; intros s Hok Hrun; cbn [sample_loop] in Hrun.
  - destruct (active s); [inversion Hrun; now subst | discriminate].
  - destruct (active s); [inversion Hrun; now subst |].
    eapply IH; [| exact Hrun]. now apply sample_round_ok.
Qed.

End SamplerState.

(** X15.  On an image of positive width and height, the state of
    [adaptivePoissonSampling] is sound before the loop, and a round of the
    loop keeps it sound: every point is inside the image, the first one is
    the centre, and every index that the active list or the grid holds is
    the index of a point.  The points returned are inside the image. *)
Theorem adaptivePoissonSampling_state (M : MathImpl) (ctx : Canvas)
    (w h baseMinDist : Q) (settings : MoodSettings) (maxAttempts : nat) (random : nat -> Q) :
  0 < w -> 0 < h ->
  sampler_ok w h (initial_sampler w h baseMinDist)
  /\ (forall s, sampler_ok w h s ->
        sampler_ok w h (sample_round ctx w h baseMinDist settings maxAttempts random s))
  /\ (forall fuel out,
        adaptivePoissonSampling ctx w h baseMinDist settings maxAttempts random fuel
        = Some out ->
        nth_error out 0 = Some (mkXY (w / 2) (h / 2))
        /\ forall q, In q out -> (0 <= x_of q < w) /\ (0 <= y_of q < h)).
Proof.
  intros Hw Hh. split; [now apply initial_sampler_ok | split].
  - intros s Hok. now apply sample_round_ok.
  - intros fuel out Hrun. unfold adaptivePoissonSampling in Hrun.
    destruct (sample_loop ctx w h baseMinDist settings maxAttempts random fuel
                (initial_sampler w h baseMinDist)) as [s' |] eqn:Hloop; [| discriminate].
    cbn [option_map] in Hrun. inversion Hrun; subst.
    assert (Hok : sampler_ok w h s').
    { eapply sample_loop_ok; [| exact Hloop]. now apply initial_sampler_ok. }
    destruct Hok as (Hpts & _ & _ & Hfirst).
    split; [exact Hfirst | exact Hpts].
Qed.

Lemma adaptivePoissonSampling_state_witness :
  0 < 100 /\ 0 < 100
  /\ sampler_ok 100 100 (initial_sampler 100 100 24)
  /\ sampler_ok 100 100
       (sample_round (M := RefMath) grey_canvas 100 100 24 (moodToSettings 0) 30
                     spacing_draws (initial_sampler 100 100 24)).
Proof.
  assert (Hw : 0 < 100) by reflexivity.
  destruct (adaptivePoissonSampling_state RefMath grey_canvas 100 100 24 (moodToSettings 0)
              30 spacing_draws Hw Hw) as (Hinit & Hround & _).
  split; [exact Hw | split; [exact Hw | split; [exact Hinit |]]].
  exact (Hround _ Hinit).
Defined.

(** ** Colours as strings *)

(** *** Digits *)

Lemma digits_of_uint_acc (d : Decimal.uint) (acc : positive) :
  digits_value (Z.pos acc) (DecimalString.NilEmpty.string_of_uint d)
  = Z.pos (Pos.of_uint_acc d acc).
Proof.
  revert acc. induction d; intro acc; cbn [DecimalString.NilEmpty.string_of_uint
    digits_value Pos.of_uint_acc]; [reflexivity | ..];
    rewrite <- IHd; f_equal;
    match goal with
    | |- context [Z.of_nat (nat_of_ascii ?c)] =>
        let v := eval vm_compute in (Z.of_nat (nat_of_ascii c)) in
        change (Z.of_nat (nat_of_ascii c)) with v
    end; lia.
Qed.

Lemma digits_of_uint (d : Decimal.uint) :
  digits_value 0 (DecimalString.NilEmpty.string_of_uint d) = Z.of_N (Pos.of_uint d).
Proof.
  induction d; cbn [DecimalString.NilEmpty.string_of_uint digits_value Pos.of_uint];
    [reflexivity | exact IHd | ..];
    cbn [Z.of_N]; rewrite <- digits_of_uint_acc; f_equal;
    match goal with
    | |- context [Z.of_nat (nat_of_ascii ?c)] =>
        let v := eval vm_compute in (Z.of_nat (nat_of_ascii c)) in
        change (Z.of_nat (nat_of_ascii c)) with v
    end; reflexivity.
Qed.

Lemma to_uint_nonnil (n : N) : N.to_uint n <> Decimal.Nil.
Proof.
  destruct n as [| p]; [discriminate |]. apply DecimalPos.Unsigned.to_uint_nonnil.
Qed.

Lemma decimal_string (n : Z) :
  decimal n = DecimalString.NilEmpty.string_of_uint (N.to_uint (Z.to_N n)).
Proof.
  unfold decimal, DecimalString.NilZero.string_of_uint.
  pose proof (to_uint_nonnil (Z.to_N n)) as Hnn.
  destruct (N.to_uint (Z.to_N n)); [contradiction | ..]; reflexivity.
Qed.

Lemma decimal_value (n : Z) : (0 <= n)%Z -> digits_value 0 (decimal n) = n.
Proof.
  intro Hn. rewrite decimal_string, digits_of_uint.
  change (Pos.of_uint (N.to_uint (Z.to_N n))) with (N.of_uint (N.to_uint (Z.to_N n))).
  rewrite DecimalN.Unsigned.of_to. now apply Z2N.id.
Qed.

Lemma uint_digits (d : Decimal.uint) :
  all_digits (DecimalString.NilEmpty.string_of_uint d) = true.
Proof. induction d; cbn; auto. Qed.

Lemma decimal_digits (n : Z) : all_digits (decimal n) = true.
Proof. rewrite decimal_string. apply uint_digits. Qed.

Lemma decimal_nonempty (n : Z) : decimal n <> EmptyString.
Proof.
  rewrite decimal_string. pose proof (to_uint_nonnil (Z.to_N n)) as Hnn.
  destruct (N.to_uint (Z.to_N n)); [contradiction | ..]; discriminate.
Qed.

Lemma digit_no_space (c : ascii) : is_digit c = true -> is_space c = false.
Proof.
  unfold is_digit, is_space. cbv zeta. intro Hd.
  apply andb_prop in Hd. destruct Hd as [H1 H2]. apply Nat.leb_le in H1, H2.
  destruct (Nat.leb_spec 9 (nat_of_ascii c)), (Nat.leb_spec (nat_of_ascii c) 13),
    (Nat.eqb_spec (nat_of_ascii c) 32), (Nat.eqb_spec (nat_of_ascii c) 160);
    cbn; try reflexivity; lia.
Qed.

Lemma take_digits_app (d rest : string) :
  all_digits d = true -> ends_digits rest -> take_digits (d ++ rest) = (d, rest).
Proof.
  intros Hd Hrest. induction d as [| c d IH]; cbn [append take_digits].
  - destruct rest as [| c r]; [reflexivity |]. cbn [take_digits].
    cbn in Hrest. now rewrite Hrest.
  - cbn [all_digits] in Hd. apply andb_prop in Hd. destruct Hd as [Hc Hd].
    now rewrite Hc, (IH Hd).
Qed.

Lemma skip_spaces_digits (d rest : string) :
  all_digits d = true -> d <> EmptyString -> skip_spaces (d ++ rest) = (d ++ rest)%string.
Proof.
  intros Hd Hne. destruct d as [| c d]; [contradiction |].
  cbn [all_digits] in Hd. apply andb_prop in Hd. destruct Hd as [Hc _].
  cbn [append skip_spaces]. now rewrite (digit_no_space c Hc).
Qed.

Lemma substring_all (s : string) : substring 0 (String.length s) s = s.
Proof. induction s as [| c s IH]; cbn; [| rewrite IH]; reflexivity. Qed.

Lemma prefix_rgb (x : string) : prefix "rgb(" ("rgb(" ++ x) = true.
Proof. cbn. now destruct x. Qed.

Lemma substring_rgb (x : string) :
  substring 4 (String.length ("rgb(" ++ x) - 4) ("rgb(" ++ x) = x.
Proof. cbn. rewrite Nat.sub_0_r. apply substring_all. Qed.

Lemma skip_space_digits (d rest : string) :
  all_digits d = true -> d <> EmptyString ->
  skip_spaces (String " " (d ++ rest)) = (d ++ rest)%string.
Proof.
  intros Hd Hne. cbn [skip_spaces]. change (is_space " ") with true. cbv iota.
  now apply skip_spaces_digits.
Qed.

(** The pattern on the three runs of digits [d1], [d2], [d3] that
    [sampleColor] and [rgbToString] write. *)
Lemma match_rgb_written (d1 d2 d3 : string) :
  all_digits d1 = true -> d1 <> EmptyString ->
  all_digits d2 = true -> d2 <> EmptyString ->
  all_digits d3 = true -> d3 <> EmptyString ->
  match_rgb ("rgb(" ++ d1 ++ ", " ++ d2 ++ ", " ++ d3 ++ ")") = Some (d1, d2, d3).
Proof.
  intros H1 N1 H2 N2 H3 N3.
  change ("rgb(" ++ d1 ++ ", " ++ d2 ++ ", " ++ d3 ++ ")")%string
    with ("rgb(" ++ (d1 ++ String "," (String " " (d2 ++ String ","
                     (String " " (d3 ++ String ")" EmptyString))))))%string.
  set (s3 := String ")" EmptyString).
  set (s2 := String "," (String " " (d3 ++ s3))).
  set (s1 := String "," (String " " (d2 ++ s2))).
  assert (Hhere : match_rgb_here ("rgb(" ++ (d1 ++ s1)) = Some (d1, d2, d3)).
  { unfold match_rgb_here. rewrite prefix_rgb, substring_rgb.
    rewrite (take_digits_app d1 s1) by (auto; reflexivity).
    destruct d1 as [| c1 d1']; [contradiction |].
    subst s1. cbv beta iota.
    rewrite (skip_space_digits d2 s2) by assumption.
    rewrite (take_digits_app d2 s2) by (auto; reflexivity).
    destruct d2 as [| c2 d2']; [contradiction |].
    subst s2. cbv beta iota.
    rewrite (skip_space_digits d3 s3) by assumption.
    rewrite (take_digits_app d3 s3) by (auto; reflexivity).
    destruct d3 as [| c3 d3']; [contradiction |]. reflexivity. }
  change ("rgb(" ++ (d1 ++ s1))%string
    with (String "r" (String "g" (String "b" (String "(" (d1 ++ s1))))) in *.
  cbn [match_rgb]. now rewrite Hhere.
Qed.

(** *** Colours written and read back *)

(** X17.  A pixel, three bytes, is read back by [parseRGB] from the string that
    [sampleColor] writes: [sampleRGB] gives the same colour. *)
Theorem parseRGB_of_sampleColor (ctx : Canvas) (px py : Q) (p0 p1 p2 : Z) :
  ctx (Qfloor px) (Qfloor py) = (p0, p1, p2) ->
  (0 <= p0 <= 255)%Z -> (0 <= p1 <= 255)%Z -> (0 <= p2 <= 255)%Z ->
  parseRGB (sampleColor ctx px py) = sampleRGB ctx px py.
Proof.
  intros Hpix [H0 _] [H1 _] [H2 _]. unfold sampleColor, sampleRGB, parseRGB. rewrite Hpix.
  rewrite match_rgb_written
    by (first [apply decimal_digits | apply decimal_nonempty]).
  unfold to_number. now rewrite !decimal_value by assumption.
Qed.

Lemma parseRGB_of_sampleColor_witness :
  grey_canvas (Qfloor 2.5) (Qfloor 3) = (128, 128, 128)%Z
  /\ parseRGB (sampleColor grey_canvas 2.5 3) = sampleRGB grey_canvas 2.5 3.
Proof.
  assert (Hpix : grey_canvas (Qfloor 2.5) (Qfloor 3) = (128, 128, 128)%Z) by reflexivity.
  split; [exact Hpix |].
  apply (parseRGB_of_sampleColor grey_canvas 2.5 3 128 128 128 Hpix); lia.
Defined.

Lemma integer_string_Z (digits : Z -> string) (n : Z) :
  (0 <= n)%Z -> integer_string digits (inject_Z n) = Some (digits n).
Proof.
  intro Hn. unfold integer_string. rewrite Qfloor_Z.
  assert (Heq : Qeq_bool (inject_Z n) (inject_Z n) = true) by (apply Qeq_bool_iff; reflexivity).
  rewrite Heq.
  assert (Hlt : ltb (inject_Z n) 0 = false).
  { apply ltb_ge. change 0 with (inject_Z 0). rewrite <- Zle_Qle. exact Hn. }
  now rewrite Hlt.
Qed.

Lemma template_number_Z (n : Z) :
  (0 <= n < 2 ^ 53)%Z -> template_number (inject_Z n) = Some (decimal n).
Proof.
  intros [Hn Hlt]. unfold template_number.
  assert (Hbelow : ltb (Qabs (inject_Z n)) 9007199254740992 = true).
  { apply ltb_lt. rewrite Qabs_pos by (change 0 with (inject_Z 0); now rewrite <- Zle_Qle).
    change 9007199254740992 with (inject_Z (2 ^ 53)). now rewrite <- Zlt_Qlt. }
  rewrite Hbelow. now apply integer_string_Z.
Qed.

(** X18.  A colour whose channels are integers from 0 to below [2 ^ 53],
    which binary64 holds and prints exactly, is read back by [parseRGB]
    from the string that [rgbToString] writes. *)
Theorem parseRGB_of_rgbToString (n1 n2 n3 : Z) :
  (0 <= n1 < 2 ^ 53)%Z -> (0 <= n2 < 2 ^ 53)%Z -> (0 <= n3 < 2 ^ 53)%Z ->
  exists s : string,
    rgbToString (mkRGB (inject_Z n1) (inject_Z n2) (inject_Z n3)) = Some s
    /\ parseRGB s = mkRGB (inject_Z n1) (inject_Z n2) (inject_Z n3).
Proof.
  intros [H1 L1] [H2 L2] [H3 L3]. unfold rgbToString. cbn [r g b].
  rewrite !template_number_Z by (split; assumption).
  eexists. split; [reflexivity |].
  unfold parseRGB.
  rewrite match_rgb_written
    by (first [apply decimal_digits | apply decimal_nonempty]).
  unfold to_number. now rewrite !decimal_value by assumption.
Qed.

Lemma parseRGB_of_rgbToString_witness :
  exists s : string,
    rgbToString (mkRGB (inject_Z 255) (inject_Z 0) (inject_Z 17)) = Some s
    /\ parseRGB s = mkRGB (inject_Z 255) (inject_Z 0) (inject_Z 17).
Proof. apply (parseRGB_of_rgbToString 255 0 17); lia. Defined.

(** *** Hexadecimal colours *)

Lemma take_digits_digits (s : string) : all_digits (fst (take_digits s)) = true.
Proof.
  induction s as [| c s IH]; [reflexivity |]. cbn [take_digits].
  destruct (is_digit c) eqn:Hc; [| reflexivity].
  destruct (take_digits s) as [d rest]. cbn [fst all_digits] in *. now rewrite Hc, IH.
Qed.

Lemma digits_value_nonneg (s : string) (acc : Z) :
  all_digits s = true -> (0 <= acc)%Z -> (0 <= digits_value acc s)%Z.
Proof.
  revert acc. induction s as [| c s IH]; intros acc Hs Hacc; [exact Hacc |].
  cbn [all_digits] in Hs. apply andb_prop in Hs. destruct Hs as [Hc Hs].
  cbn [digits_value]. apply IH; [exact Hs |].
  unfold is_digit in Hc. apply andb_prop in Hc. destruct Hc as [Hlo _].
  apply Nat.leb_le in Hlo. lia.
Qed.

Lemma match_rgb_here_digits (s m1 m2 m3 : string) :
  match_rgb_here s = Some (m1, m2, m3) ->
  all_digits m1 = true /\ all_digits m2 = true /\ all_digits m3 = true.
Proof.
  unfold match_rgb_here. destruct (prefix "rgb(" s); [| discriminate].
  pose proof (take_digits_digits (substring 4 (String.length s - 4) s)) as Hd1.
  destruct (take_digits (substring 4 (String.length s - 4) s)) as [d1 s1].
  destruct d1 as [| c1 d1]; [discriminate |].
  destruct s1 as [| c s2]; [discriminate |].
  destruct c as [[] [] [] [] [] [] [] []]; try discriminate.
  pose proof (take_digits_digits (skip_spaces s2)) as Hd2.
  destruct (take_digits (skip_spaces s2)) as [d2 s3].
  destruct d2 as [| c2 d2]; [discriminate |].
  destruct s3 as [| c s4]; [discriminate |].
  destruct c as [[] [] [] [] [] [] [] []]; try discriminate.
  pose proof (take_digits_digits (skip_spaces s4)) as Hd3.
  destruct (take_digits (skip_spaces s4)) as [d3 s5].
  destruct d3 as [| c3 d3]; [discriminate |].
  destruct s5 as [| c s6]; [discriminate |].
  destruct c as [[] [] [] [] [] [] [] []]; try discriminate.
  intro Heq. inversion Heq; subst. auto.
Qed.

Lemma match_rgb_digits (s m1 m2 m3 : string) :
  match_rgb s = Some (m1, m2, m3) ->
  all_digits m1 = true /\ all_digits m2 = true /\ all_digits m3 = true.
Proof.
  induction s as [| c s IH]; cbn [match_rgb].
  - destruct (match_rgb_here EmptyString) as [[[u1 u2] u3] |] eqn:Hhere; [| discriminate].
    intro Heq. inversion Heq; subst. eapply match_rgb_here_digits, Hhere.
  - destruct (match_rgb_here (String c s)) as [[[u1 u2] u3] |] eqn:Hhere; [| exact IH].
    intro Heq. inversion Heq; subst. eapply match_rgb_here_digits, Hhere.
Qed.

(** X19.  [rgbToHex] on a string is [rgbObjToHex] on the colour that [parseRGB]
    reads from the string: both give [#000000] when the pattern does not
    match. *)
Theorem rgbToHex_parses (rgb : string) :
  rgbObjToHex (parseRGB rgb) = Some (rgbToHex rgb).
Proof.
  unfold parseRGB, rgbToHex.
  destruct (match_rgb rgb) as [[[m1 m2] m3] |] eqn:Hm; [| reflexivity].
  destruct (match_rgb_digits rgb m1 m2 m3 Hm) as (H1 & H2 & H3).
  unfold rgbObjToHex, to_number. cbn [r g b].
  rewrite !integer_string_Z by (apply digits_value_nonneg; [assumption | lia]).
  reflexivity.
Qed.

Lemma append_length (s1 s2 : string) :
  String.length (s1 ++ s2) = (String.length s1 + String.length s2)%nat.
Proof. induction s1 as [| c s1 IH]; cbn; [| rewrite IH]; reflexivity. Qed.

Lemma byte_hexadecimal (n : Z) :
  (0 <= n <= 255)%Z -> String.length (padStart2 (hexadecimal n)) = 2%nat.
Proof.
  intro Hn.
  assert (Hall : forallb (fun k => (String.length (padStart2 (hexadecimal (Z.of_nat k))) =? 2)%nat)
                         (seq 0 256) = true) by (vm_compute; reflexivity).
  rewrite forallb_forall in Hall.
  specialize (Hall (Z.to_nat n)). rewrite Z2Nat.id in Hall by lia.
  apply Nat.eqb_eq, Hall, in_seq. lia.
Qed.

(** X20.  A colour whose channels are bytes is written as [#] and six
    hexadecimal digits. *)
Theorem rgbObjToHex_bytes (c : RGB) :
  byte_color c -> exists s : string, rgbObjToHex c = Some s /\ String.length s = 7%nat.
Proof.
  destruct c as [cr cg cb].
  intros ((n1 & H1 & E1) & (n2 & H2 & E2) & (n3 & H3 & E3)). cbn [r g b] in *. subst.
  unfold rgbObjToHex. cbn [r g b]. rewrite !integer_string_Z by lia.
  eexists. split; [reflexivity |].
  cbn [map String.concat]. cbn [append String.length].
  rewrite !append_length, !byte_hexadecimal by lia. reflexivity.
Qed.

Lemma rgbObjToHex_bytes_witness :
  byte_color (mkRGB (inject_Z 255) (inject_Z 10) (inject_Z 0))
  /\ exists s : string,
       rgbObjToHex (mkRGB (inject_Z 255) (inject_Z 10) (inject_Z 0)) = Some s
       /\ String.length s = 7%nat.
Proof.
  assert (Hb : byte_color (mkRGB (inject_Z 255) (inject_Z 10) (inject_Z 0))).
  { repeat split; cbn [r g b]; eexists; (split; [| reflexivity]); lia. }
  split; [exact Hb | exact (rgbObjToHex_bytes _ Hb)].
Defined.

(** *** Blended colours *)

Lemma sum_bounds (f : RGB -> Q) (cs : list RGB) (lo hi acc : Q) :
  (forall c, In c cs -> lo <= f c <= hi) ->
  acc + of_nat (List.length cs) * lo <= fold_left (fun s c => s + f c) cs acc
  /\ fold_left (fun s c => s + f c) cs acc <= acc + of_nat (List.length cs) * hi.
Proof.
  revert acc. induction cs as [| c cs IH]; intros acc Hb; cbn [fold_left List.length].
  - change (of_nat 0) with 0. lra.
  - destruct (IH (acc + f c)) as [Hlo Hhi]; [intros u Hu; apply Hb; now right |].
    pose proof (Hb c (or_introl eq_refl)) as Hc.
    assert (HS : of_nat (S (List.length cs)) == of_nat (List.length cs) + 1).
    { unfold of_nat. rewrite Nat2Z.inj_succ, <- Z.add_1_r, inject_Z_plus. reflexivity. }
    rewrite HS. lra.
Qed.

Lemma round_byte (v : Q) : 0 <= v <= 255 -> byte_channel (Math_round v).
Proof.
  intros [Hlo Hhi]. unfold Math_round. exists (Qfloor (v + (1 # 2))). split; [| reflexivity].
  split.
  - change 0%Z with (Qfloor 0). apply Qfloor_resp_le. lra.
  - change 255%Z with (Qfloor (255 + (1 # 2))). apply Qfloor_resp_le. lra.
Qed.

Lemma mean_bounds (f : RGB -> Q) (cs : list RGB) :
  cs <> [] -> (forall c, In c cs -> 0 <= f c <= 255) ->
  0 <= fold_left (fun s c => s + f c) cs 0 / of_nat (List.length cs) <= 255.
Proof.
  intros Hne Hb. destruct (sum_bounds f cs 0 255 0 Hb) as [Hlo Hhi].
  assert (Hn : 0 < of_nat (List.length cs)).
  { destruct cs as [| c cs]; [contradiction |].
    unfold of_nat. change 0 with (inject_Z 0). rewrite <- Zlt_Qlt. cbn [List.length]. lia. }
  set (n := of_nat (List.length cs)) in *. set (sum := fold_left _ cs 0) in *.
  clearbody n sum. split.
  - apply Qle_shift_div_l; [exact Hn | lra].
  - apply Qle_shift_div_r; [exact Hn | lra].
Qed.

(** X21.  The blend of colours whose channels are between 0 and 255 has bytes
    for channels; the blend of no colour is black. *)
Theorem blendColors_bytes (cs : list RGB) :
  (forall c, In c cs -> 0 <= r c <= 255 /\ 0 <= g c <= 255 /\ 0 <= b c <= 255) ->
  byte_color (blendColors cs).
Proof.
  intro Hb. destruct cs as [| c0 cs].
  - repeat split; exists 0%Z; (split; [lia | reflexivity]).
  - set (l := c0 :: cs) in *.
    assert (Hne : l <> []) by discriminate.
    change (blendColors l)
      with (mkRGB (Math_round (fold_left (fun s c => s + r c) l 0 / of_nat (List.length l)))
                  (Math_round (fold_left (fun s c => s + g c) l 0 / of_nat (List.length l)))
                  (Math_round (fold_left (fun s c => s + b c) l 0 / of_nat (List.length l)))).
    repeat split; cbn [r g b]; apply round_byte; apply mean_bounds; try exact Hne;
      intros c Hc; destruct (Hb c Hc) as (Hr & Hg & Hbl); assumption.
Qed.

Lemma blendColors_bytes_witness :
  (forall c, In c [ mkRGB 10 20 30; mkRGB 11 255 0 ] ->
     0 <= r c <= 255 /\ 0 <= g c <= 255 /\ 0 <= b c <= 255)
  /\ byte_color (blendColors [ mkRGB 10 20 30; mkRGB 11 255 0 ]).
Proof.
  assert (Hb : forall c, In c [ mkRGB 10 20 30; mkRGB 11 255 0 ] ->
                 0 <= r c <= 255 /\ 0 <= g c <= 255 /\ 0 <= b c <= 255).
  { intros c [<- | [<- | []]]; cbn [r g b]; repeat split; discriminate. }
  split; [exact Hb | exact (blendColors_bytes _ Hb)].
Defined.

(** ** Outlines and curves *)

(** *** Sums of coordinates *)











Lemma chaikinSmooth_cases (pts : list XY) (iters : Q) :
  exists k : nat, chaikinSmooth pts iters = Nat.iter k chaikin_round pts.
Proof.
  unfold chaikinSmooth. destruct (leb iters 0); [now exists 0%nat | eauto].
Qed.



(** *** The box of the points *)

Lemma cyclic_edges_In (rs : list XY) (a c : XY) :
  In (a, c) (cyclic_edges rs) -> In a rs /\ In c rs.
Proof.
  unfold cyclic_edges. intro Hin. split; [eapply in_combine_l, Hin |].
  apply in_combine_r in Hin. apply in_app_or in Hin. destruct Hin as [Hin | Hin].
  - destruct rs as [| u rs]; [destruct Hin | now right].
  - destruct rs as [| u rs]; [destruct Hin |]. cbn [firstn] in Hin.
    destruct Hin as [<- | []]. now left.
Qed.

Lemma chaikin_round_boxed (xlo xhi ylo yhi : Q) (rs : list XY) :
  boxed xlo xhi ylo yhi rs -> boxed xlo xhi ylo yhi (chaikin_round rs).
Proof.
  intros Hbox p Hp. rewrite chaikin_round_cuts_corners in Hp.
  apply in_flat_map in Hp. destruct Hp as ([a c] & Hedge & Hp).
  apply cyclic_edges_In in Hedge. destruct Hedge as [Ha Hc].
  destruct (Hbox a Ha) as [Hax Hay]. destruct (Hbox c Hc) as [Hcx Hcy].
  cbn [cut_corner In] in Hp. destruct Hp as [<- | [<- | []]]; cbn [x_of y_of]; split; lra.
Qed.

(** X23.  Smoothing does not leave the box of the points. *)
Theorem chaikinSmooth_boxed (xlo xhi ylo yhi : Q) (pts : list XY) (iters : Q) :
  boxed xlo xhi ylo yhi pts -> boxed xlo xhi ylo yhi (chaikinSmooth pts iters).
Proof.
  intro Hbox. destruct (chaikinSmooth_cases pts iters) as [k ->].
  induction k as [| k IH]; [exact Hbox |]. cbn [Nat.iter].
  now apply chaikin_round_boxed.
Qed.

Lemma chaikinSmooth_boxed_witness :
  boxed 0 6 0 3 [ mkXY 0 0; mkXY 6 0; mkXY 0 3 ]
  /\ boxed 0 6 0 3 (chaikinSmooth [ mkXY 0 0; mkXY 6 0; mkXY 0 3 ] 3).
Proof.
  assert (Hb : boxed 0 6 0 3 [ mkXY 0 0; mkXY 6 0; mkXY 0 3 ]).
  { intros p [<- | [<- | [<- | []]]]; cbn [x_of y_of]; repeat split; discriminate. }
  split; [exact Hb | exact (chaikinSmooth_boxed 0 6 0 3 _ 3 Hb)].
Defined.

(** *** Expansion *)







(** *** The outline of a triangle *)



(** ** Gradient directions *)

(** *** The global direction *)

Lemma total_shift_from (tris : list Triangle) (tdx tdy : Q) (cnt : nat) :
  exists sx sy,
    fold_left
      (fun '(tdx, tdy, cnt) t =>
         let '(sx, sy) := luminance_shift t in (tdx + sx, tdy + sy, S cnt))
      tris (tdx, tdy, cnt)
    = (sx, sy, (cnt + List.length tris)%nat)
    /\ ((forall t, In t tris -> fst (luminance_shift t) == 0 /\ snd (luminance_shift t) == 0) ->
        sx == tdx /\ sy == tdy).
Proof.
  revert tdx tdy cnt. induction tris as [| t tris IH]; intros tdx tdy cnt.
  - exists tdx, tdy. cbn [fold_left List.length]. rewrite Nat.add_0_r.
    split; [reflexivity | intros _; split; reflexivity].
  - cbn [fold_left]. destruct (luminance_shift t) as [sx0 sy0] eqn:Hshift.
    destruct (IH (tdx + sx0) (tdy + sy0) (S cnt)) as (sx & sy & Hrun & Hzero).
    exists sx, sy. split.
    + rewrite Hrun. f_equal. cbn [List.length]. lia.
    + intro Hflat. destruct Hzero as [Hx Hy]; [intros u Hu; apply Hflat; now right |].
      destruct (Hflat t (or_introl eq_refl)) as [H0x H0y]. rewrite Hshift in H0x, H0y.
      cbn [fst snd] in H0x, H0y. split; lra.
Qed.

Lemma one_colour_shift (t : Triangle) :
  one_colour t -> fst (luminance_shift t) == 0 /\ snd (luminance_shift t) == 0.
Proof.
  unfold one_colour, luminance_shift, points_list.
  destruct (points t) as [[p0 p1] p2]. intros [C01 C12]. cbv zeta.
  assert (H01 : getLuminance (parseRGB (pt_color p0))
                == getLuminance (parseRGB (pt_color p1))) by (now rewrite C01).
  assert (H12 : getLuminance (parseRGB (pt_color p1))
                == getLuminance (parseRGB (pt_color p2))) by (now rewrite C12).
  cbn [map fold_left extreme_step nth].
  assert (H1 : ltb (getLuminance (parseRGB (pt_color p1)))
                   (getLuminance (parseRGB (pt_color p0))) = false) by (apply ltb_ge; lra).
  assert (H2 : gtb (getLuminance (parseRGB (pt_color p1)))
                   (getLuminance (parseRGB (pt_color p0))) = false) by (apply gtb_le; lra).
  rewrite H1, H2. cbn [nth].
  assert (H3 : ltb (getLuminance (parseRGB (pt_color p2)))
                   (getLuminance (parseRGB (pt_color p0))) = false) by (apply ltb_ge; lra).
  assert (H4 : gtb (getLuminance (parseRGB (pt_color p2)))
                   (getLuminance (parseRGB (pt_color p0))) = false) by (apply gtb_le; lra).
  rewrite H3, H4. cbn [nth fst snd]. split; ring.
Qed.

Lemma zero_over (u len : Q) : u == 0 -> u / len == 0.
Proof. intro Hu. unfold Qdiv. rewrite Hu. ring. Qed.

(** X27.  On no triangle the direction is (1, 0).  On triangles that each have
    one colour at their three points, the direction is (0, 0): it is no
    unit vector, and the gradients drawn along it have no length. *)
Theorem computeGlobalDir_flat (M : MathImpl) :
  computeGlobalDir [] = mkDir 1 0
  /\ forall tris, tris <> [] -> (forall t, In t tris -> one_colour t) ->
       dir_dx (computeGlobalDir tris) == 0 /\ dir_dy (computeGlobalDir tris) == 0.
Proof.
  split; [reflexivity |]. intros tris Hne Hflat.
  unfold computeGlobalDir, total_shift.
  destruct (total_shift_from tris 0 0 0) as (sx & sy & Hrun & Hzero). rewrite Hrun.
  destruct Hzero as [Hx Hy]; [intros t Ht; now apply one_colour_shift, Hflat |].
  destruct tris as [| t tris]; [contradiction |]. cbn [List.length Nat.add dir_dx dir_dy].
  split; now apply zero_over.
Qed.



(** *** The base gradient of a uniform image *)

Section Uniform.

Context {M : MathImpl}.
Hypothesis Hsqrt : sqrt_respects_numbers M.
Variable samples : list DominantColor.
Hypothesis Hsame : forall s s', In s samples -> In s' samples -> color s = color s'.

Lemma farthest_step_same (i j : nat) (s0 : DominantColor) :
  (i < List.length samples)%nat -> (j < List.length samples)%nat ->
  farthest_step samples i (0, s0, s0) j = (0, s0, s0).
Proof.
  intros Hi Hj. unfold farthest_step. cbv zeta. cbn [fst].
  rewrite (Hsame (nth i samples no_sample) (nth j samples no_sample))
    by (apply nth_In; assumption).
  assert (Hd : gtb (colorDistance (color (nth j samples no_sample))
                                  (color (nth j samples no_sample))) 0 = false).
  { apply gtb_le. rewrite (colorDistance_self _ Hsqrt). lra. }
  now rewrite Hd.
Qed.

Lemma farthest_inner_same (i : nat) (js : list nat) (s0 : DominantColor) :
  (i < List.length samples)%nat -> (forall j, In j js -> (j < List.length samples)%nat) ->
  fold_left (farthest_step samples i) js (0, s0, s0) = (0, s0, s0).
Proof.
  intros Hi. induction js as [| j js IH]; intro Hjs; [reflexivity |].
  cbn [fold_left]. rewrite farthest_step_same by (auto; apply Hjs; now left).
  apply IH. intros k Hk. apply Hjs. now right.
Qed.

Lemma farthest_outer_same (ixs : list nat) (s0 : DominantColor) :
  (forall i, In i ixs -> (i < List.length samples)%nat) ->
  fold_left
    (fun st i =>
       fold_left (farthest_step samples i)
                 (seq (i + 1) (List.length samples - (i + 1))) st)
    ixs (0, s0, s0)
  = (0, s0, s0).
Proof.
  induction ixs as [| i ixs IH]; intro Hixs; [reflexivity |].
  cbn [fold_left]. rewrite farthest_inner_same.
  - apply IH. intros k Hk. apply Hixs. now right.
  - apply Hixs. now left.
  - intros j Hj. apply in_seq in Hj. lia.
Qed.

Lemma farthest_pair_same :
  farthest_pair samples = (0, nth 0 samples no_sample, nth 0 samples no_sample).
Proof.
  unfold farthest_pair. cbv zeta. apply farthest_outer_same.
  intros i Hi. apply in_seq in Hi. lia.
Qed.

End Uniform.

(** X29.  On an image of one colour and of positive size, the direction of the
    base gradient has no length: it starts and ends at the centre of the
    first cell of the grid. *)
Theorem analyzeBaseGradient_uniform (M : MathImpl) (pixel : Z * Z * Z) (w h : Q) :
  sqrt_respects_numbers M -> 0 < w -> 0 < h ->
  direction (analyzeBaseGradient (fun _ _ => pixel) w h)
  = mkDirection ((0 + 0.5) * (w / 6) / w) ((0 + 0.5) * (h / 6) / h)
                ((0 + 0.5) * (w / 6) / w) ((0 + 0.5) * (h / 6) / h).
Proof.
  intros Hsqrt _ _. unfold analyzeBaseGradient. cbv zeta.
  rewrite (farthest_pair_same Hsqrt).
  - reflexivity.
  - intros s s' Hs Hs'.
    destruct (grid_samples_In _ w h s Hs) as (gx & gy & _ & _ & ->).
    destruct (grid_samples_In _ w h s' Hs') as (gx' & gy' & _ & _ & ->).
    cbn [color]. unfold sampleRegionAvg, sampleRGB. destruct pixel as [[p0 p1] p2].
    reflexivity.
Qed.

Lemma analyzeBaseGradient_uniform_witness :
  sqrt_respects_numbers RefMath /\ 0 < 60 /\ 0 < 40
  /\ x1 (direction (analyzeBaseGradient (H := RefMath) grey_canvas 60 40))
     = x2 (direction (analyzeBaseGradient (H := RefMath) grey_canvas 60 40)).
Proof.
  assert (Hw : 0 < 60) by reflexivity. assert (Hh : 0 < 40) by reflexivity.
  split; [exact RefMath_sqrt | split; [exact Hw | split; [exact Hh |]]].
  change grey_canvas with (fun (_ _ : Z) => (128, 128, 128)%Z).
  now rewrite (analyzeBaseGradient_uniform RefMath (128, 128, 128)%Z 60 40 RefMath_sqrt Hw Hh).
Defined.

(** ** Adaptive Poisson disk sampling: the spacing that holds *)

(** *** The window of [tooClose] *)

Lemma Zrange_In (lo hi i : Z) : In i (Zrange lo hi) <-> (lo <= i <= hi)%Z.
Proof.
  unfold Zrange. rewrite in_map_iff. split.
  - intros (k & <- & Hk). apply in_seq in Hk. lia.
  - intro Hi. exists (Z.to_nat (i - lo)). split; [lia |]. apply in_seq. lia.
Qed.

Lemma existsb_false_In {A : Type} (f : A -> bool) (l : list A) (a : A) :
  existsb f l = false -> In a l -> f a = false.
Proof.
  intros Hex Hin. destruct (f a) eqn:Hfa; [| reflexivity].
  assert (Htrue : existsb f l = true) by (apply existsb_exists; eauto). congruence.
Qed.

Lemma cell_positive (baseMinDist : Q) : 0 < baseMinDist -> 0 < cell baseMinDist.
Proof.
  intro Hb. unfold cell.
  assert (Hdiv : baseMinDist / Math_SQRT2 == baseMinDist * / Math_SQRT2) by reflexivity.
  rewrite Hdiv. apply Qmult_lt_0_compat; [exact Hb | reflexivity].
Qed.

Lemma floor_bounds (v : Q) : inject_Z (Qfloor v) <= v /\ v < inject_Z (Qfloor v) + 1.
Proof.
  split; [apply Qfloor_le |].
  pose proof (Qlt_floor v) as Hlt. rewrite inject_Z_plus in Hlt. exact Hlt.
Qed.

(** A coordinate in a column of cells outside the window is farther away
    than [md]. *)
Lemma outside_window (c x px md : Q) (i : Z) :
  0 < c -> 0 <= md -> Qfloor (x / c) = i ->
  (i < Qfloor (px / c) - (Qceiling (md / c) + 1)
   \/ Qfloor (px / c) + (Qceiling (md / c) + 1) < i)%Z ->
  md * md <= (x - px) * (x - px).
Proof.
  intros Hc Hmd Hi Hout.
  destruct (floor_bounds (x / c)) as [Hx1 Hx2]. rewrite Hi in Hx1, Hx2.
  destruct (floor_bounds (px / c)) as [Hp1 Hp2].
  pose proof (Qle_ceiling (md / c)) as Hm.
  assert (Ex : x == x / c * c) by (field; lra).
  assert (Ep : px == px / c * c) by (field; lra).
  assert (Em : md == md / c * c) by (field; lra).
  set (a := x / c) in *. set (e := px / c) in *. set (m := md / c) in *.
  set (G := Qfloor e) in *. set (R := Qceiling m) in *.
  clearbody a e m G R.
  destruct Hout as [Hlow | Hhigh].
  - assert (Hz : (i + 1 + (R + 1) <= G)%Z) by lia.
    rewrite Zle_Qle in Hz.
    rewrite !inject_Z_plus in Hz. change (inject_Z 1) with 1 in Hz.
    assert (Hgap : m * c <= (e - a) * c) by (apply Qmult_le_compat_r; lra).
    assert (Hpos : 0 <= m * c) by lra.
    rewrite Ex, Ep, Em. set (u := m * c) in *. set (v := (e - a) * c) in *.
    assert (Hv : a * c - e * c == - v) by (subst v; ring).
    rewrite Hv. clearbody u v. nra.
  - assert (Hz : (G + (R + 1) + 1 <= i)%Z) by lia.
    rewrite Zle_Qle in Hz.
    rewrite !inject_Z_plus in Hz. change (inject_Z 1) with 1 in Hz.
    assert (Hgap : m * c <= (a - e) * c) by (apply Qmult_le_compat_r; lra).
    assert (Hpos : 0 <= m * c) by lra.
    rewrite Ex, Ep, Em. set (u := m * c) in *. set (v := (a - e) * c) in *.
    assert (Hv : a * c - e * c == v) by (subst v; ring).
    rewrite Hv. clearbody u v. nra.
Qed.

Lemma square_nonneg (a : Q) : 0 <= a * a.
Proof. nra. Qed.

Lemma tooClose_grid (w h baseMinDist : Q) (s : Sampler) (px py md : Q) :
  0 < baseMinDist -> 0 <= md -> grid_located w h baseMinDist s ->
  tooClose w h baseMinDist s px py md = false ->
  forall q, in_grid s q -> md * md <= squared_distance q (mkXY px py).
Proof.
  intros Hb Hmd Hgrid Hclose q (i & j & idx & Hi & Hj & Hget & Hq).
  destruct (Hgrid i j idx Hi Hj Hget) as (Hiw & Hjw & q' & Hq' & Hci & Hcj).
  rewrite Hq in Hq'. inversion Hq'; subst q'. clear Hq'.
  pose proof (cell_positive baseMinDist Hb) as Hc.
  unfold squared_distance. cbn [x_of y_of].
  pose proof (square_nonneg (x_of q - px)) as Hsqx.
  pose proof (square_nonneg (y_of q - py)) as Hsqy.
  set (gx := Qfloor (px / cell baseMinDist)) in *.
  set (gy := Qfloor (py / cell baseMinDist)) in *.
  set (rad := (Qceiling (md / cell baseMinDist) + 1)%Z) in *.
  destruct (Z_lt_le_dec i (gx - rad)) as [Hil | Hil].
  { pose proof (outside_window _ (x_of q) px md i Hc Hmd Hci (or_introl Hil)). lra. }
  destruct (Z_lt_le_dec (gx + rad) i) as [Hih | Hih].
  { pose proof (outside_window _ (x_of q) px md i Hc Hmd Hci (or_intror Hih)). lra. }
  destruct (Z_lt_le_dec j (gy - rad)) as [Hjl | Hjl].
  { pose proof (outside_window _ (y_of q) py md j Hc Hmd Hcj (or_introl Hjl)). lra. }
  destruct (Z_lt_le_dec (gy + rad) j) as [Hjh | Hjh].
  { pose proof (outside_window _ (y_of q) py md j Hc Hmd Hcj (or_intror Hjh)). lra. }
  unfold tooClose in Hclose. cbv zeta in Hclose. fold gx gy rad in Hclose.
  assert (Hin_i : In i (Zrange (Z.max 0 (gx - rad)) (Z.min (gw w baseMinDist - 1) (gx + rad))))
    by (apply Zrange_In; lia).
  assert (Hin_j : In j (Zrange (Z.max 0 (gy - rad)) (Z.min (gh h baseMinDist - 1) (gy + rad))))
    by (apply Zrange_In; lia).
  pose proof (existsb_false_In _ _ i Hclose Hin_i) as Hrow. cbv beta in Hrow.
  pose proof (existsb_false_In _ _ j Hrow Hin_j) as Hcell. cbv beta in Hcell.
  rewrite Hget in Hcell. rewrite (nth_error_nth _ _ _ Hq) in Hcell.
  apply ltb_ge in Hcell. exact Hcell.
Qed.

Lemma addPoint_located (w h baseMinDist : Q) (s : Sampler) (px py : Q) :
  grid_located w h baseMinDist s ->
  grid_located w h baseMinDist (addPoint w h baseMinDist s px py).
Proof.
  intros Hgrid i j idx Hi Hj Hget. unfold addPoint in *. cbv zeta in *.
  cbn [grid pts] in *.
  assert (Hold : forall idx', grid_get (grid s) i j = Some idx' ->
            (i < gw w baseMinDist)%Z /\ (j < gh h baseMinDist)%Z
            /\ exists q, nth_error (pts s ++ [mkXY px py]) idx' = Some q
                         /\ Qfloor (x_of q / cell baseMinDist) = i
                         /\ Qfloor (y_of q / cell baseMinDist) = j).
  { intros idx' Hget'. destruct (Hgrid i j idx' Hi Hj Hget') as (H1 & H2 & q & Hq & H3 & H4).
    split; [exact H1 | split; [exact H2 |]]. exists q. split; [| auto].
    rewrite nth_error_app1; [exact Hq |]. apply nth_error_Some. congruence. }
  match type of Hget with
  | grid_get (if ?c then _ else _) _ _ = _ => destruct c eqn:Hrange
  end; [| now apply Hold].
  apply andb_prop in Hrange. destruct Hrange as [Hrange R4].
  apply andb_prop in Hrange. destruct Hrange as [Hrange R3].
  apply andb_prop in Hrange. destruct Hrange as [R1 R2].
  apply Z.leb_le in R1, R3. apply Z.ltb_lt in R2, R4.
  unfold grid_get in Hget.
  match type of Hget with
  | nth ?J (nth ?I (set_nth ?l ?a ?v) ?d) ?d' = _ =>
      destruct (nth_set_nth_cases l a I v d) as [Heq | [HI Heq]]; rewrite Heq in Hget
  end; [now apply Hold |].
  match type of Hget with
  | nth ?J (set_nth ?l ?a ?v) ?d = _ =>
      destruct (nth_set_nth_cases l a J v d) as [Heq' | [HJ Heq']]; rewrite Heq' in Hget
  end.
  - rewrite <- HI in Hget. now apply Hold.
  - inversion Hget; subst idx. apply Z2Nat.inj in HI, HJ; try lia. subst i j.
    split; [exact R2 | split; [exact R4 |]].
    exists (mkXY px py). split; [| split; reflexivity].
    rewrite nth_error_app2, Nat.sub_diag by lia. reflexivity.
Qed.

Section Spacing.

Context {M : MathImpl}.
Variables (ctx : Canvas) (w h baseMinDist : Q) (settings : MoodSettings).
Variables (maxAttempts : nat) (random : nat -> Q).
Hypothesis Hbase : 0 < baseMinDist.
Hypothesis Hscale : 0 <= minShapeScale settings.

Lemma localDist_nonneg (px py : Q) : 0 <= localDist ctx w h baseMinDist settings px py.
Proof.
  unfold localDist. cbv zeta. unfold Math_max.
  pose proof (Q.le_max_l 0.35 (1 - regionVariance ctx px py baseMinDist w h / 255
                                   * adaptiveSensitivity settings)) as Hf.
  set (f := Qmax _ _) in *. clearbody f.
  assert (H1 : 0 <= baseMinDist * f) by nra. nra.
Qed.

Lemma attempts_spaced (left : nat) (p : XY) (ld : Q) (s s2 : Sampler) :
  grid_located w h baseMinDist s ->
  attempts ctx w h baseMinDist settings random left p ld s = (s2, true) ->
  exists q : XY,
    pts s2 = pts s ++ [q]
    /\ grid_located w h baseMinDist s2
    /\ forall q', in_grid s q' ->
         localDist ctx w h baseMinDist settings (x_of q) (y_of q)
         * localDist ctx w h baseMinDist settings (x_of q) (y_of q)
         <= squared_distance q' q.
Proof.
  revert s. induction left as [| left IH]; intros s Hgrid Hrun; [discriminate |].
  cbn [attempts] in Hrun.
  set (s' := mkSampler (grid s) (pts s) (active s) (calls s + 2)) in *.
  assert (Hgrid' : grid_located w h baseMinDist s') by exact Hgrid.
  set (nx := x_of p + Math_cos (random (calls s) * Math_PI * 2)
                      * (ld + random (calls s + 1)%nat * ld)) in *.
  set (ny := y_of p + Math_sin (random (calls s) * Math_PI * 2)
                      * (ld + random (calls s + 1)%nat * ld)) in *.
  destruct (geb nx 0 && ltb nx w && geb ny 0 && ltb ny h);
    [| exact (IH s' Hgrid' Hrun)].
  destruct (tooClose w h baseMinDist s' nx ny (localDist ctx w h baseMinDist settings nx ny))
    eqn:Hclose; cbn [negb] in Hrun; [exact (IH s' Hgrid' Hrun) |].
  inversion Hrun; subst s2. exists (mkXY nx ny). split; [reflexivity | split].
  - now apply addPoint_located.
  - intros q' Hq'. cbn [x_of y_of].
    apply (tooClose_grid w h baseMinDist s' nx ny _ Hbase (localDist_nonneg nx ny) Hgrid' Hclose).
    exact Hq'.
Qed.

Lemma attempts_located (left : nat) (p : XY) (ld : Q) (s : Sampler) :
  grid_located w h baseMinDist s ->
  grid_located w h baseMinDist
    (fst (attempts ctx w h baseMinDist settings random left p ld s)).
Proof.
  intro Hgrid.
  destruct (attempts ctx w h baseMinDist settings random left p ld s) as [s2 found] eqn:Hrun.
  destruct found.
  - destruct (attempts_spaced left p ld s s2 Hgrid Hrun) as (q & _ & Hloc & _). exact Hloc.
  - clear -Hgrid Hrun. revert s Hgrid Hrun.
    induction left as [| left IH]; intros s Hgrid Hrun; cbn [attempts] in Hrun.
    + inversion Hrun; subst. exact Hgrid.
    + set (s' := mkSampler (grid s) (pts s) (active s) (calls s + 2)) in *.
      assert (Hgrid' : grid_located w h baseMinDist s') by exact Hgrid.
      destruct (geb _ 0 && ltb _ w && geb _ 0 && ltb _ h); [| exact (IH s' Hgrid' Hrun)].
      destruct (negb _); [discriminate | exact (IH s' Hgrid' Hrun)].
Qed.

Lemma sample_round_located (s : Sampler) :
  grid_located w h baseMinDist s ->
  grid_located w h baseMinDist
    (sample_round ctx w h baseMinDist settings maxAttempts random s).
Proof.
  intro Hgrid. unfold sample_round. cbv zeta.
  match goal with
  | |- context [attempts ?c ?w' ?h' ?b ?st ?r ?l ?p ?ld ?s1] =>
      pose proof (attempts_located l p ld s1 Hgrid) as Hatt;
      destruct (attempts c w' h' b st r l p ld s1) as [s2 found]
  end.
  cbn [fst] in Hatt. destruct found; exact Hatt.
Qed.

End Spacing.

Lemma initial_sampler_located (w h baseMinDist : Q) :
  grid_located w h baseMinDist (initial_sampler w h baseMinDist).
Proof.
  unfold initial_sampler. apply addPoint_located.
  intros i j idx _ _ Hget. cbn [grid] in Hget.
  unfold grid_get in Hget. exfalso. revert Hget.
  generalize (Z.to_nat (gh h baseMinDist)) (Z.to_nat (gw w baseMinDist))
             (Z.to_nat i) (Z.to_nat j).
  intros m n a c.
  assert (Hrow : nth a (repeat (repeat (@None nat) m) n) [] = repeat None m
                 \/ nth a (repeat (repeat (@None nat) m) n) [] = []).
  { revert a. induction n as [| n IH]; intros [| a]; cbn [repeat nth]; auto. }
  destruct Hrow as [-> | ->]; [| now destruct c].
  revert c. induction m as [| m IH]; intros [| c]; cbn [repeat nth]; try discriminate.
  apply IH.
Qed.

(** X16.  What [tooClose] guarantees.  The grid holds, in each cell, the index of
    a point of that cell, before the loop and after each round of it.  A
    point that the sampler accepts is then at least its local spacing away
    from every point that the grid holds at that time: the points of the
    cells outside the window that [tooClose] scans are farther away than
    that. *)
Theorem accepted_point_spacing (M : MathImpl) (ctx : Canvas) (w h baseMinDist : Q)
    (settings : MoodSettings) (maxAttempts : nat) (random : nat -> Q) :
  0 < baseMinDist -> 0 <= minShapeScale settings ->
  grid_located w h baseMinDist (initial_sampler w h baseMinDist)
  /\ (forall s, grid_located w h baseMinDist s ->
        grid_located w h baseMinDist
          (sample_round ctx w h baseMinDist settings maxAttempts random s))
  /\ (forall left p ld s s2,
        grid_located w h baseMinDist s ->
        attempts ctx w h baseMinDist settings random left p ld s = (s2, true) ->
        exists q : XY,
          pts s2 = pts s ++ [q]
          /\ forall q', in_grid s q' ->
               localDist ctx w h baseMinDist settings (x_of q) (y_of q)
               * localDist ctx w h baseMinDist settings (x_of q) (y_of q)
               <= squared_distance q' q).
Proof.
  intros Hbase Hscale. split; [apply initial_sampler_located | split].
  - intros s Hgrid. now apply sample_round_located.
  - intros left p ld s s2 Hgrid Hrun.
    destruct (attempts_spaced ctx w h baseMinDist settings random Hbase Hscale
                              left p ld s s2 Hgrid Hrun) as (q & Hpts & _ & Hfar).
    exists q. split; [exact Hpts | exact Hfar].
Qed.

Lemma accepted_point_spacing_witness :
  0 < 24 /\ 0 <= minShapeScale (moodToSettings 0)
  /\ grid_located 100 100 24 (initial_sampler 100 100 24)
  /\ grid_located 100 100 24
       (sample_round (M := RefMath) grey_canvas 100 100 24 (moodToSettings 0) 30
                     spacing_draws (initial_sampler 100 100 24)).
Proof.
  assert (Hb : 0 < 24) by reflexivity.
  assert (Hs : 0 <= minShapeScale (moodToSettings 0)) by (vm_compute; discriminate).
  destruct (accepted_point_spacing RefMath grey_canvas 100 100 24 (moodToSettings 0) 30
              spacing_draws Hb Hs) as (Hinit & Hround & _).
  split; [exact Hb | split; [exact Hs | split; [exact Hinit | exact (Hround _ Hinit)]]].
Defined.

(** ** The mesh of [processImage] *)

Lemma boundary_loop_all (P : XY -> Prop) (limit spacing : Q) (pair : Q -> list XY) :
  0 <= spacing ->
  (forall v, 0 <= v < limit -> forall q, In q (pair v) -> P q) ->
  forall (fuel : nat) (v : Q) (bp out : list XY),
    0 <= v -> (forall q, In q bp -> P q) ->
    boundary_loop fuel v limit spacing pair bp = Some out ->
    forall q, In q out -> P q.
Proof.
  intros Hs Hpair. induction fuel as [| fuel IH]; intros v bp out Hv Hbp Hrun;
    cbn [boundary_loop] in Hrun; destruct (ltb v limit) eqn:Hlt;
    try discriminate; try (inversion Hrun; subst; exact Hbp).
  apply ltb_lt in Hlt. apply (IH (v + spacing) (bp ++ pair v) out); [lra | | exact Hrun].
  intros q Hq. apply in_app_or in Hq. destruct Hq as [Hq | Hq]; [now apply Hbp |].
  apply (Hpair v); [lra | exact Hq].
Qed.

Lemma addBoundaryPoints_in_image (fuel : nat) (pts out : list XY) (w h spacing : Q) :
  0 <= w -> 0 <= h -> 0 <= spacing ->
  (forall q, In q pts -> in_image w h q) ->
  addBoundaryPoints fuel pts w h spacing = Some out ->
  forall q, In q out -> in_image w h q.
Proof.
  intros Hw Hh Hs Hpts Hrun. unfold addBoundaryPoints in Hrun. cbv zeta in Hrun.
  destruct (boundary_loop fuel spacing w spacing _ _) as [bp1 |] eqn:H1; [| discriminate].
  destruct (boundary_loop fuel spacing h spacing _ _) as [bp2 |] eqn:H2; [| discriminate].
  inversion Hrun; subst out. clear Hrun.
  assert (Hbp1 : forall q, In q bp1 -> in_image w h q).
  { apply (boundary_loop_all (in_image w h) w spacing _ Hs) with (4 := H1); [| exact Hs |].
    - intros v Hv q [<- | [<- | []]]; unfold in_image; cbn [x_of y_of]; lra.
    - intros q [<- | [<- | [<- | [<- | []]]]]; unfold in_image; cbn [x_of y_of]; lra. }
  assert (Hbp2 : forall q, In q bp2 -> in_image w h q).
  { apply (boundary_loop_all (in_image w h) h spacing _ Hs) with (4 := H2); [| exact Hs | exact Hbp1].
    intros v Hv q [<- | [<- | []]]; unfold in_image; cbn [x_of y_of]; lra. }
  intros q Hq. apply in_app_or in Hq. destruct Hq as [Hq | Hq]; auto.
Qed.

Lemma triangulate_vertices `{MathImpl} (ctx : Canvas) (pts : list XY) (w h : Q)
    (tris : list Triangle) (t : Triangle) :
  triangulate ctx pts w h = Some tris -> In t tris ->
  0 < area t
  /\ forall p, In p (points_list t) -> In (mkXY (pt_x p) (pt_y p)) pts.
Proof.
  intros Hrun Hin. unfold triangulate in Hrun. cbv zeta in Hrun.
  destruct (triangles_of ctx pts w h (Delaunay.run pts)) as [ts |] eqn:Hts; [| discriminate].
  cbn [option_map] in Hrun. inversion Hrun; subst tris. clear Hrun.
  apply filterSmallTriangles_In in Hin.
  split; [exact (run_triangles_areas ctx pts w h ts t Hts Hin) |].
  unfold Delaunay.run in Hts.
  destruct (triangles_of_In ctx pts w h _ ts t Hts Hin) as (t0 & t1 & t2 & Ht & ->).
  destruct (run_triangles_bounded pts t0 t1 t2 Ht) as (H0 & H1 & H2).
  assert (Hxy : forall q : XY, mkXY (x_of q) (y_of q) = q) by (now intros []).
  unfold make_triangle, points_list. cbv zeta. cbn [points].
  intros p [<- | [<- | [<- | []]]]; cbn [pt_x pt_y]; rewrite Hxy; now apply nth_In.
Qed.

(** X30.  The mesh that [processImage] computes for an image of positive width
    and height stays in the image: the three corners of every triangle are
    in the rectangle of the image, and no triangle is flat. *)
Theorem processImage_mesh_in_image (M : MathImpl) (ctx : Canvas)
    (width height currentMood : Q) (random : nat -> Q) (fuel : nat) (tris : list Triangle) :
  0 < width -> 0 < height ->
  processImage_mesh ctx width height currentMood random fuel = Some tris ->
  forall t, In t tris ->
    0 < area t
    /\ forall p, In p (points_list t) ->
         (0 <= pt_x p <= width) /\ (0 <= pt_y p <= height).
Proof.
  intros Hw Hh Hrun t Hin. unfold processImage_mesh in Hrun. cbv zeta in Hrun.
  set (minDist := moodToMinDistance currentMood width height) in *.
  destruct (adaptivePoissonSampling ctx width height minDist _ 30 random fuel)
    as [pts |] eqn:Hsample; [| discriminate].
  destruct (addBoundaryPoints fuel pts width height minDist) as [pts' |] eqn:Hbound;
    [| discriminate].
  assert (Hpts : forall q, In q pts -> in_image width height q).
  { unfold adaptivePoissonSampling in Hsample.
    destruct (sample_loop ctx width height minDist _ 30 random fuel _) as [s' |] eqn:Hloop;
      [| discriminate].
    cbn [option_map] in Hsample. inversion Hsample; subst pts.
    assert (Hok : sampler_ok width height s').
    { eapply sample_loop_ok; [| exact Hloop]. now apply initial_sampler_ok. }
    destruct Hok as (Hinside & _). intros q Hq. destruct (Hinside q Hq).
    unfold in_image. lra. }
  assert (Hdist : 0 <= minDist).
  { pose proof (moodToMinDistance_floor currentMood width height). subst minDist. lra. }
  assert (Hpts' : forall q, In q pts' -> in_image width height q).
  { apply (addBoundaryPoints_in_image fuel pts pts' width height minDist); auto; lra. }
  destruct (triangulate_vertices ctx pts' width height tris t Hrun Hin) as [Harea Hvert].
  split; [exact Harea |]. intros p Hp. exact (Hpts' _ (Hvert p Hp)).
Qed.

Lemma processImage_mesh_in_image_witness :
  0 < 30 /\ 0 < 30
  /\ exists tris,
       processImage_mesh (H := RefMath) grey_canvas 30 30 0 (fun _ => 0) 2 = Some tris
       /\ List.length tris = 5%nat
       /\ forall t, In t tris ->
            0 < area t
            /\ forall p, In p (points_list t) ->
                 (0 <= pt_x p <= 30) /\ (0 <= pt_y p <= 30).
Proof.
  assert (Hw : 0 < 30) by reflexivity.
  split; [exact Hw | split; [exact Hw |]].
  destruct (processImage_mesh (H := RefMath) grey_canvas 30 30 0 (fun _ => 0) 2)
    as [tris |] eqn:Hrun.
  - exists tris. split; [reflexivity | split].
    + vm_compute in Hrun. inversion Hrun. reflexivity.
    + exact (processImage_mesh_in_image RefMath grey_canvas 30 30 0 (fun _ => 0) 2 tris
               Hw Hw Hrun).
  - vm_compute in Hrun. discriminate.
Defined.

(** ** Binary64 arithmetic *)

(** *** Powers of two *)

Lemma two_nonzero : ~ 2 == 0.
Proof. discriminate. Qed.

Lemma pow2_pos (e : Z) : 0 < 2 ^ e.
Proof. apply Qpower_0_lt. reflexivity. Qed.

Lemma pow2_le (a b : Z) : (a <= b)%Z -> 2 ^ a <= 2 ^ b.
Proof. intro H. apply Qpower_le_compat_l; [exact H | discriminate]. Qed.

Lemma pow2_add (a b : Z) : 2 ^ (a + b) == 2 ^ a * 2 ^ b.
Proof. apply Qpower_plus, two_nonzero. Qed.

Lemma pow2_of_Z (n : Z) : (0 <= n)%Z -> inject_Z (2 ^ n) == 2 ^ n.
Proof. intro H. now rewrite Zpower_Qpower. Qed.

(** The powers of two around a positive integer. *)
Lemma log2_bounds (n : Z) :
  (0 < n)%Z -> 2 ^ Z.log2 n <= inject_Z n /\ inject_Z n < 2 ^ (Z.log2 n + 1).
Proof.
  intro Hn. destruct (Z.log2_spec n Hn) as [Hlo Hhi].
  pose proof (Z.log2_nonneg n) as Hnn. split.
  - rewrite <- pow2_of_Z by exact Hnn. now rewrite <- Zle_Qle.
  - rewrite <- pow2_of_Z by lia. rewrite <- Zlt_Qlt.
    now replace (Z.log2 n + 1)%Z with (Z.succ (Z.log2 n)) by lia.
Qed.

(** *** Rounding to the nearest value *)

Lemma binade_spec (x : Q) :
  0 < x -> 2 ^ B64.binade x <= x /\ x < 2 ^ (B64.binade x + 1).
Proof.
  intro Hx. unfold B64.binade. cbv zeta.
  set (a := Z.log2 (Qnum x)). set (c := Z.log2 (Z.pos (Qden x))).
  assert (Hnum : (0 < Qnum x)%Z).
  { destruct x as [n d]. unfold Qlt in Hx. cbn in *. lia. }
  destruct (log2_bounds (Qnum x) Hnum) as [Hn1 Hn2]. fold a in Hn1, Hn2.
  destruct (log2_bounds (Z.pos (Qden x)) eq_refl) as [Hd1 Hd2]. fold c in Hd1, Hd2.
  assert (Hxd : x * inject_Z (Z.pos (Qden x)) == inject_Z (Qnum x)).
  { destruct x as [n d]. unfold Qeq, Qmult, inject_Z. cbn. lia. }
  set (N := inject_Z (Qnum x)) in *. set (D := inject_Z (Z.pos (Qden x))) in *.
  pose proof (pow2_pos a) as Pa. pose proof (pow2_pos c) as Pc.
  pose proof (pow2_pos (a - c)) as Pac.
  assert (Ea : 2 ^ a == 2 ^ (a - c) * 2 ^ c).
  { rewrite <- pow2_add. now replace (a - c + c)%Z with a by lia. }
  assert (Ea1 : 2 ^ (a + 1) == 2 * 2 ^ (a - c) * 2 ^ c).
  { rewrite pow2_add, Ea. change (2 ^ 1) with 2. ring. }
  assert (Ec1 : 2 ^ (c + 1) == 2 * 2 ^ c).
  { rewrite pow2_add. change (2 ^ 1) with 2. ring. }
  assert (Em : 2 ^ (a - c) == 2 * 2 ^ (a - c - 1)).
  { replace (a - c)%Z with (1 + (a - c - 1))%Z at 1 by lia. rewrite pow2_add.
    change (2 ^ 1) with 2. ring. }
  assert (Ep : 2 ^ (a - c + 1) == 2 * 2 ^ (a - c)).
  { rewrite pow2_add. change (2 ^ 1) with 2. ring. }
  assert (Hup : x < 2 * 2 ^ (a - c)).
  { clearbody N D a c. set (P := 2 ^ (a - c)) in *. set (C := 2 ^ c) in *.
    set (A := 2 ^ a) in *. set (A1 := 2 ^ (a + 1)) in *. clearbody P C A A1.
    destruct (Qlt_le_dec x (2 * P)) as [Hlt | Hge]; [exact Hlt | exfalso].
    assert (H1 : 2 * P * C <= x * C) by (apply Qmult_le_compat_r; lra).
    assert (H2 : x * C <= x * D) by (apply Qmult_le_l; lra).
    lra. }
  assert (Hlow : 2 ^ (a - c - 1) < x).
  { clearbody N D a c. set (P := 2 ^ (a - c)) in *. set (Q1 := 2 ^ (a - c - 1)) in *.
    set (C := 2 ^ c) in *. set (C1 := 2 ^ (c + 1)) in *.
    set (A := 2 ^ a) in *. clearbody P Q1 C C1 A.
    destruct (Qlt_le_dec Q1 x) as [Hlt | Hge]; [exact Hlt | exfalso].
    assert (H1 : x * D <= Q1 * D) by (apply Qmult_le_compat_r; lra).
    assert (H2 : Q1 * D < Q1 * C1) by (apply Qmult_lt_l; lra).
    assert (H3 : Q1 * C1 == A) by (rewrite Ec1, Ea, Em; ring).
    lra. }
  destruct (Qle_bool (2 ^ (a - c)) x) eqn:Hcmp.
  - apply Qle_bool_iff in Hcmp. split; [exact Hcmp |]. rewrite Ep. exact Hup.
  - assert (Hlt : x < 2 ^ (a - c)).
    { apply Qnot_le_lt. intro Hle. apply Qle_bool_iff in Hle. congruence. }
    split; [apply Qlt_le_weak, Hlow |].
    now replace (a - c - 1 + 1)%Z with (a - c)%Z by lia.
Qed.

Lemma binade_mono (x y : Q) : 0 < x -> x <= y -> (B64.binade x <= B64.binade y)%Z.
Proof.
  intros Hx Hxy.
  destruct (binade_spec x Hx) as [Hx1 _].
  destruct (binade_spec y ltac:(lra)) as [_ Hy2].
  destruct (Z_le_gt_dec (B64.binade x) (B64.binade y)) as [Hle | Hgt]; [exact Hle | exfalso].
  pose proof (pow2_le (B64.binade y + 1) (B64.binade x) ltac:(lia)). lra.
Qed.

Lemma nearest_even_bounds (q : Q) :
  (Qfloor q <= B64.nearest_even q <= Qfloor q + 1)%Z.
Proof.
  unfold B64.nearest_even. cbv zeta.
  destruct (Qcompare _ _); [destruct (Z.even _) | |]; lia.
Qed.

Lemma nearest_even_mono (p q : Q) : p <= q -> (B64.nearest_even p <= B64.nearest_even q)%Z.
Proof.
  intro Hpq. pose proof (Qfloor_resp_le p q Hpq) as Hf.
  destruct (Z.eq_dec (Qfloor p) (Qfloor q)) as [Heq | Hne].
  - unfold B64.nearest_even. cbv zeta. rewrite Heq.
    destruct (Qcompare_spec (p - inject_Z (Qfloor q)) (1 # 2)) as [Hp | Hp | Hp];
      destruct (Qcompare_spec (q - inject_Z (Qfloor q)) (1 # 2)) as [Hq | Hq | Hq];
      try destruct (Z.even (Qfloor q)); try lia; exfalso; lra.
  - pose proof (nearest_even_bounds p). pose proof (nearest_even_bounds q). lia.
Qed.

Lemma nearest_even_Z (z : Z) : B64.nearest_even (inject_Z z) = z.
Proof.
  unfold B64.nearest_even. cbv zeta. rewrite Qfloor_Z.
  destruct (Qcompare_spec (inject_Z z - inject_Z z) (1 # 2)) as [H | H | H];
    [exfalso; lra | reflexivity | exfalso; lra].
Qed.

Lemma nearest_even_le (q : Q) (z : Z) : q <= inject_Z z -> (B64.nearest_even q <= z)%Z.
Proof. intro H. rewrite <- (nearest_even_Z z). now apply nearest_even_mono. Qed.

Lemma nearest_even_ge (q : Q) (z : Z) : inject_Z z <= q -> (z <= B64.nearest_even q)%Z.
Proof. intro H. rewrite <- (nearest_even_Z z) at 1. now apply nearest_even_mono. Qed.

Lemma ulp_pos (x : Q) : 0 < B64.ulp x.
Proof. apply pow2_pos. Qed.

(** A positive number is rounded to a number of its binade, the upper end
    included. *)
Lemma round_positive_upper (x : Q) (e : Z) :
  0 < x -> (Z.max (B64.binade x) (-1022) <= e)%Z -> B64.round_positive x <= 2 ^ (e + 1).
Proof.
  intros Hx He. unfold B64.round_positive, B64.ulp.
  set (k := Z.max (B64.binade x) (-1022)) in *.
  destruct (binade_spec x Hx) as [_ Hup].
  pose proof (pow2_pos (k - 52)) as Hu.
  assert (Hk : 2 ^ (k + 1) == inject_Z (2 ^ 53) * 2 ^ (k - 52)).
  { rewrite pow2_of_Z by lia. rewrite <- pow2_add. now replace (53 + (k - 52))%Z with (k + 1)%Z by lia. }
  assert (Hxk : x <= 2 ^ (k + 1)).
  { pose proof (pow2_le (B64.binade x + 1) (k + 1) ltac:(lia)). lra. }
  assert (Hq : x / 2 ^ (k - 52) <= inject_Z (2 ^ 53)).
  { apply Qle_shift_div_r; [exact Hu |]. lra. }
  apply nearest_even_le in Hq. rewrite Zle_Qle in Hq.
  pose proof (pow2_le (k + 1) (e + 1) ltac:(lia)) as Hke.
  eapply Qle_trans; [| exact Hke]. rewrite Hk.
  apply Qmult_le_compat_r; [exact Hq | lra].
Qed.

Lemma round_positive_lower (x : Q) :
  0 < x -> (-1022 <= B64.binade x)%Z -> 2 ^ B64.binade x <= B64.round_positive x.
Proof.
  intros Hx He. unfold B64.round_positive, B64.ulp.
  rewrite Z.max_l by lia. set (k := B64.binade x) in *.
  destruct (binade_spec x Hx) as [Hlow _]. fold k in Hlow.
  pose proof (pow2_pos (k - 52)) as Hu.
  assert (Hk : 2 ^ k == inject_Z (2 ^ 52) * 2 ^ (k - 52)).
  { rewrite pow2_of_Z by lia. rewrite <- pow2_add. now replace (52 + (k - 52))%Z with k by lia. }
  assert (Hq : inject_Z (2 ^ 52) <= x / 2 ^ (k - 52)).
  { apply Qle_shift_div_l; [exact Hu |]. lra. }
  apply nearest_even_ge in Hq. rewrite Zle_Qle in Hq.
  rewrite Hk. apply Qmult_le_compat_r; [exact Hq | lra].
Qed.

Lemma round_positive_nonneg (x : Q) : 0 < x -> 0 <= B64.round_positive x.
Proof.
  intro Hx. unfold B64.round_positive. pose proof (ulp_pos x) as Hu.
  assert (Hq : inject_Z 0 <= x / B64.ulp x).
  { apply Qle_shift_div_l; [exact Hu |]. change (inject_Z 0) with 0. lra. }
  apply nearest_even_ge in Hq. rewrite Zle_Qle in Hq. change (inject_Z 0) with 0 in Hq.
  apply Qmult_le_0_compat; lra.
Qed.

Lemma round_positive_mono (x y : Q) :
  0 < x -> x <= y -> B64.round_positive x <= B64.round_positive y.
Proof.
  intros Hx Hxy. assert (Hy : 0 < y) by lra.
  pose proof (binade_mono x y Hx Hxy) as Hb.
  destruct (Z.eq_dec (Z.max (B64.binade x) (-1022)) (Z.max (B64.binade y) (-1022)))
    as [Heq | Hne].
  - unfold B64.round_positive, B64.ulp. rewrite Heq.
    set (u := 2 ^ _). assert (Hu : 0 < u) by apply pow2_pos.
    apply Qmult_le_compat_r; [| lra]. rewrite <- Zle_Qle.
    apply nearest_even_mono. apply Qmult_le_compat_r; [exact Hxy |].
    apply Qlt_le_weak, Qinv_lt_0_compat, Hu.
  - assert (Hlt : (Z.max (B64.binade x) (-1022) < B64.binade y)%Z) by lia.
    pose proof (round_positive_upper x (B64.binade y - 1) Hx ltac:(lia)) as Hup.
    replace (B64.binade y - 1 + 1)%Z with (B64.binade y) in Hup by lia.
    pose proof (round_positive_lower y Hy ltac:(lia)). lra.
Qed.

(** Rounding respects the order of the numbers. *)
Lemma round64_mono (x y : Q) : x <= y -> B64.round64 x <= B64.round64 y.
Proof.
  intro Hxy. unfold B64.round64. cbv zeta.
  pose proof (Qred_correct x) as Ex. pose proof (Qred_correct y) as Ey.
  set (u := Qred x) in *. set (v := Qred y) in *. clearbody u v.
  assert (Huv : u <= v) by lra.
  destruct (Qcompare_spec u 0) as [Hu | Hu | Hu];
    destruct (Qcompare_spec v 0) as [Hv | Hv | Hv];
    rewrite ?Qred_correct; try (exfalso; lra); try lra.
  - apply round_positive_nonneg, Hv.
  - pose proof (round_positive_nonneg (- u) ltac:(lra)). lra.
  - pose proof (round_positive_mono (- v) (- u) ltac:(lra) ltac:(lra)). lra.
  - pose proof (round_positive_nonneg (- u) ltac:(lra)).
    pose proof (round_positive_nonneg v Hv). lra.
  - now apply round_positive_mono.
Qed.

(** Rounding is a function of the value of the number. *)
Lemma round64_comp (x y : Q) : x == y -> B64.round64 x = B64.round64 y.
Proof. intro H. unfold B64.round64. now rewrite (Qred_complete x y H). Qed.

(** *** The primitive floats of the kernel *)

Lemma B64_agrees_with_kernel :
  forallb (fun x => forallb (agrees_with_kernel x) sample_numbers) sample_numbers = true.
Proof. vm_compute. reflexivity. Qed.

(** *** Rounded operations and the order *)

Lemma B64_add_mono (a x y : Q) : x <= y -> B64.add a x <= B64.add a y.
Proof. intro H. apply round64_mono. lra. Qed.

Lemma B64_sub_anti (a x y : Q) : x <= y -> B64.sub a y <= B64.sub a x.
Proof. intro H. apply round64_mono. lra. Qed.

Lemma B64_mul_mono (x y c : Q) : 0 <= c -> x <= y -> B64.mul x c <= B64.mul y c.
Proof. intros Hc H. apply round64_mono. now apply Qmult_le_compat_r. Qed.

Lemma B64_div_mono (x y c : Q) : 0 < c -> x <= y -> B64.div x c <= B64.div y c.
Proof.
  intros Hc H. apply round64_mono. apply Qmult_le_compat_r; [exact H |].
  apply Qlt_le_weak, Qinv_lt_0_compat, Hc.
Qed.

(** ** Mood, with rounding *)

Lemma B64_moodToSettings_monotone (m1 m2 : Q) :
  m1 <= m2 -> settings_monotone (B64.moodToSettings m1) (B64.moodToSettings m2).
Proof.
  intro Hle.
  assert (Ht : B64.div m1 100 <= B64.div m2 100)
    by (apply B64_div_mono; [reflexivity | exact Hle]).
  unfold settings_monotone, B64.moodToSettings. cbv zeta.
  cbn [pathSmoothing overlapAmount shapeOpacity adaptiveSensitivity minShapeScale
       mergeThreshold gradientConsistency baseGradientOpacity].
  set (t1 := B64.div m1 100) in *. set (t2 := B64.div m2 100) in *. clearbody t1 t2.
  assert (Hup : forall a c, 0 <= c -> B64.add a (B64.mul t1 c) <= B64.add a (B64.mul t2 c)).
  { intros a c Hc. apply B64_add_mono, B64_mul_mono; assumption. }
  split; [| split; [| split; [| repeat split]]].
  - unfold Math_max. apply Q.max_le_compat_l, Math_floor_mono.
    apply B64_mul_mono; [discriminate | exact Ht].
  - apply Hup. vm_compute. discriminate.
  - apply B64_sub_anti, B64_mul_mono; [vm_compute; discriminate | exact Ht].
  - apply Hup. vm_compute. discriminate.
  - apply Hup. vm_compute. discriminate.
  - apply Hup. vm_compute. discriminate.
  - apply Hup. vm_compute. discriminate.
  - apply Hup. vm_compute. discriminate.
Qed.

Lemma B64_moodToSettings_in_ranges (mood : Q) :
  0 <= mood <= 100 -> in_binary64_ranges minShapeScale_top (B64.moodToSettings mood).
Proof.
  intros [H0 H100].
  pose proof (B64_moodToSettings_monotone 0 mood H0) as Hlo.
  pose proof (B64_moodToSettings_monotone mood 100 H100) as Hhi.
  assert (E0 : in_binary64_ranges minShapeScale_top (B64.moodToSettings 0))
    by (vm_compute; intuition discriminate).
  assert (E100 : in_binary64_ranges minShapeScale_top (B64.moodToSettings 100))
    by (vm_compute; intuition discriminate).
  unfold settings_monotone, in_binary64_ranges in *.
  destruct Hlo as (L1 & L2 & L3 & L4 & L5 & L6 & L7 & L8).
  destruct Hhi as (U1 & U2 & U3 & U4 & U5 & U6 & U7 & U8).
  destruct E0 as (A1 & A2 & A3 & A4 & A5 & A6 & A7 & A8).
  destruct E100 as (C1 & C2 & C3 & C4 & C5 & C6 & C7 & C8).
  repeat split; lra.
Qed.

(** C4, as amended.  With the rounding of binary64, at mood 0 and at mood
    100, and at every mood between them, every field of [moodToSettings] is
    in its documented range, the ends read as binary64 literals, but for
    [minShapeScale], which goes up to the binary64 sum of 0.8 and 0.4,
    1.2000000000000002; and every field is monotone in the mood:
    [shapeOpacity] never rises and the seven others never fall. *)
Theorem moodToSettings_binary64_ranges_and_monotone :
  in_binary64_ranges minShapeScale_top (B64.moodToSettings 0) /\
  in_binary64_ranges minShapeScale_top (B64.moodToSettings 100) /\
  (forall mood, 0 <= mood <= 100 ->
     in_binary64_ranges minShapeScale_top (B64.moodToSettings mood)) /\
  (forall m1 m2, m1 <= m2 ->
     settings_monotone (B64.moodToSettings m1) (B64.moodToSettings m2)).
Proof.
  split; [| split; [| split]].
  - apply B64_moodToSettings_in_ranges. lra.
  - apply B64_moodToSettings_in_ranges. lra.
  - exact B64_moodToSettings_in_ranges.
  - exact B64_moodToSettings_monotone.
Qed.

(** The theorem at the moods 25 and 75. *)
Lemma moodToSettings_binary64_ranges_and_monotone_witness :
  in_binary64_ranges minShapeScale_top (B64.moodToSettings 25) /\
  settings_monotone (B64.moodToSettings 25) (B64.moodToSettings 75).
Proof.
  destruct moodToSettings_binary64_ranges_and_monotone as (_ & _ & Hrange & Hmono).
  split; [apply Hrange | apply Hmono]; lra.
Defined.

(** C4, as stated, fails at mood 100: [0.8 + 1 * 0.4] is rounded to
    1.2000000000000002, which is above 1.2 and above the binary64 literal
    [1.2], so [minShapeScale] leaves its documented range by one unit in
    the last place. *)
Lemma moodToSettings_exceeds_documented_range :
  minShapeScale (B64.moodToSettings 100) == 1351079888211149 # 1125899906842624 /\
  1.2 < minShapeScale (B64.moodToSettings 100) /\
  minShapeScale (B64.moodToSettings 100) - 1.2 < 1 # 4503599627370496 /\
  ~ in_binary64_ranges (B64.lit 1.2) (B64.moodToSettings 100).
Proof.
  split; [vm_compute; reflexivity | split; [vm_compute; reflexivity | split]].
  - vm_compute. reflexivity.
  - intros (_ & _ & _ & _ & [_ Htop] & _). vm_compute in Htop. now apply Htop.
Qed.

(** ** Micro-triangle culling, with rounding *)

(** *** The median *)

Lemma sorted_upto (s : list Q) (k : nat) :
  StronglySorted Qle s -> (k < List.length s)%nat ->
  Forall (fun v => v <= nth k s 0) (firstn (S k) s).
Proof.
  revert s. induction k as [| k IH]; intros s Hs Hk;
    (destruct s as [| a s]; [cbn in Hk; lia |]); inversion Hs as [| ? ? Hs' Hall]; subst.
  - cbn [firstn nth]. constructor; [lra | constructor].
  - cbn [firstn nth]. constructor.
    + assert (Hin : In (nth k s 0) s) by (apply nth_In; cbn in Hk; lia).
      rewrite Forall_forall in Hall. now apply Hall.
    + apply IH; [assumption | cbn in Hk; lia].
Qed.

Lemma count_le_lower (s : list Q) (k : nat) :
  StronglySorted Qle s -> (k < List.length s)%nat ->
  (S k <= List.length (filter (fun v => leb v (nth k s 0%Q)) s))%nat.
Proof.
  intros Hs Hk. pose proof (sorted_upto s k Hs Hk) as Hup.
  set (f := fun v => leb v (nth k s 0)).
  assert (Hsplit : filter f s = filter f (firstn (S k) s) ++ filter f (skipn (S k) s))
    by (now rewrite <- filter_app, firstn_skipn).
  rewrite Hsplit, length_app, filter_all.
  - rewrite length_firstn. lia.
  - eapply Forall_impl; [| exact Hup]. intros v Hv. now apply leb_le.
Qed.

Lemma filter_none {A : Type} (f : A -> bool) (l : list A) :
  Forall (fun a => f a = false) l -> filter f l = [].
Proof.
  induction 1 as [| a l Ha Hl IH]; cbn [filter]; [reflexivity |]. now rewrite Ha.
Qed.

Lemma count_le_upper (s : list Q) (k : nat) (c : Q) :
  StronglySorted Qle s -> (k < List.length s)%nat -> c < nth k s 0 ->
  (List.length (filter (fun v => leb v c) s) <= k)%nat.
Proof.
  intros Hs Hk Hc. pose proof (sorted_from s k Hs Hk) as Hfrom.
  set (f := fun v => leb v c).
  assert (Hsplit : filter f s = filter f (firstn k s) ++ filter f (skipn k s))
    by (now rewrite <- filter_app, firstn_skipn).
  rewrite Hsplit, length_app, (filter_none f (skipn k s)).
  - cbn [List.length]. pose proof (filter_length_le f (firstn k s)) as Hlen.
    rewrite length_firstn in Hlen. lia.
  - eapply Forall_impl; [| exact Hfrom]. intros v Hv. cbv beta in Hv. subst f. cbv beta.
    destruct (leb v c) eqn:Hle; [| reflexivity]. apply leb_le in Hle. lra.
Qed.

(** The element at [k] is the same number in every ascending order of the
    same numbers. *)
Lemma sorted_nth_unique (s s' : list Q) (k : nat) :
  Permutation s s' -> StronglySorted Qle s -> StronglySorted Qle s' ->
  (k < List.length s)%nat -> nth k s 0 == nth k s' 0.
Proof.
  intros Hp Hs Hs' Hk.
  assert (Hk' : (k < List.length s')%nat) by now rewrite <- (Permutation_length Hp).
  destruct (Q_dec (nth k s 0) (nth k s' 0)) as [[Hlt | Hgt] | Heq]; [| | exact Heq]; exfalso.
  - pose proof (count_le_lower s k Hs Hk) as H1.
    pose proof (count_le_upper s' k _ Hs' Hk' Hlt) as H2.
    rewrite (Permutation_filter_length _ s s' Hp) in H1. lia.
  - pose proof (count_le_lower s' k Hs' Hk') as H1.
    pose proof (count_le_upper s k _ Hs Hk Hgt) as H2.
    rewrite (Permutation_filter_length _ s s' Hp) in H2. lia.
Qed.

Lemma is_median_sorted (m : Q) (l : list Q) :
  is_median m l -> m == nth (List.length l / 2) (sort_ascending l) 0.
Proof.
  intros (s & Hp & Hs & Hm).
  assert (Hk : (List.length l / 2 < List.length s)%nat)
    by (apply nth_error_Some; congruence).
  rewrite <- (nth_error_nth s _ 0 Hm).
  apply sorted_nth_unique; [| exact Hs | apply sort_ascending_sorted | exact Hk].
  now rewrite Hp, <- sort_ascending_perm.
Qed.

(** *** The cut *)

Lemma B64_or_else_cut (m : Q) :
  B64.mul m (B64.lit 0.28) <= B64.mul (or_else m 1) (B64.lit 0.28).
Proof.
  unfold or_else. destruct (Qeq_bool m 0) eqn:Hm; [| lra].
  apply Qeq_bool_iff in Hm. apply B64_mul_mono; [vm_compute; discriminate | lra].
Qed.

(** C5, as amended.  A triangle that survives [filterSmallTriangles] is one
    of the input, and its area is not below the binary64 product of the
    median of the areas of all the triangles of the input and 0.28. *)
Theorem filterSmallTriangles_binary64_cut (tris : list Triangle) (t : Triangle) (m : Q) :
  tris <> [] -> is_median m (map area tris) ->
  In t (B64.filterSmallTriangles tris) ->
  In t tris /\ ~ area t < B64.mul m (B64.lit 0.28).
Proof.
  intros Hne Hmed Hin. destruct tris as [| t' tris']; [contradiction |].
  unfold B64.filterSmallTriangles in Hin. cbv zeta in Hin.
  apply filter_In in Hin. destruct Hin as [Hin Hcut].
  split; [exact Hin |].
  apply geb_ge in Hcut.
  rewrite sort_ascending_length in Hcut.
  apply is_median_sorted in Hmed.
  set (m' := nth _ (sort_ascending _) 0) in *.
  assert (Hm : B64.mul m (B64.lit 0.28) = B64.mul m' (B64.lit 0.28)).
  { apply round64_comp. now rewrite Hmed. }
  rewrite Hm. pose proof (B64_or_else_cut m'). lra.
Qed.

(** The theorem on three triangles of areas 1, 10 and 10: a survivor of
    area 10, the median. *)
Lemma filterSmallTriangles_binary64_cut_witness :
  In (sample_triangle 10) [sample_triangle 1; sample_triangle 10; sample_triangle 10]
  /\ ~ area (sample_triangle 10) < B64.mul 10 (B64.lit 0.28).
Proof.
  apply filterSmallTriangles_binary64_cut.
  - discriminate.
  - exists [1; 10; 10]. split; [reflexivity | split; [| reflexivity]].
    repeat constructor; discriminate.
  - vm_compute. left. reflexivity.
Defined.

(** C5, as stated, fails on three triangles of areas 237, 300 and 66.36,
    the binary64 product of 237 and 0.28: the median is 237, the cut is
    that product, and the triangle of that area survives, although its
    area is below 0.28 times 237, which no binary64 value is. *)
Lemma filterSmallTriangles_keeps_below_exact_cut :
  is_median 237 (map area rounded_cut_triangles) /\
  exists t : Triangle,
    In t (B64.filterSmallTriangles rounded_cut_triangles) /\ area t < 0.28 * 237.
Proof.
  split.
  - exists [B64.mul 237 (B64.lit 0.28); 237; 300]. split; [apply perm_swap | split].
    + repeat constructor; vm_compute; discriminate.
    + reflexivity.
  - exists (sample_triangle (B64.mul 237 (B64.lit 0.28))). split.
    + vm_compute. right. left. reflexivity.
    + vm_compute. reflexivity.
Qed.

(** ** Delaunay triangulation, with rounding *)

(** C1 fails on the code.  Five of the seven points of [grid_points] are
    on one circle, where the exact determinant of [inCircumcircle] is 0
    and its binary64 value has either sign.  When the fifth point is
    inserted, the test is false on the triangle (1, 0, 2), which is kept,
    and true on its neighbour (2, 0, 3), which is removed, so the cavity
    is not the set of the triangles whose circle holds the point.  The
    triangulation that [Delaunay.run] returns has the triangles (4, 5, 6)
    and (5, 0, 6): the input points 0 and 3 are in the interior of the
    circle through the points 4, 5 and 6, the point 0 at less than three
    quarters of the squared radius from the centre, and the point 3 is in
    the interior of the circle through the points 5, 0 and 6.  With exact
    determinants the triangulation of the same points is another one. *)
Theorem run_binary64_not_delaunay :
  let p := fun i => nth i grid_points Delaunay.origin in
  B64.Delaunay.run_triangles grid_points
  = [ (2, 1, 6); (5, 2, 6); (1, 4, 6); (4, 5, 6); (0, 3, 6); (3, 5, 6); (5, 0, 6) ]%nat
  /\ inside_circumcircle (p 0%nat) (p 4%nat) (p 5%nat) (p 6%nat)
  /\ inside_circumcircle (p 3%nat) (p 4%nat) (p 5%nat) (p 6%nat)
  /\ inside_circumcircle (p 3%nat) (p 5%nat) (p 0%nat) (p 6%nat)
  /\ (exists (o : XY) (r2 : Q),
        circumcircle (p 4%nat) (p 5%nat) (p 6%nat) o r2
        /\ squared_distance (p 0%nat) o < (3 # 4) * r2)
  /\ B64.Delaunay.inCircumcircle (p 4%nat) (p 1%nat) (p 0%nat) (p 2%nat) = false
  /\ B64.Delaunay.inCircumcircle (p 4%nat) (p 2%nat) (p 0%nat) (p 3%nat) = true
  /\ Delaunay.run_triangles grid_points <> B64.Delaunay.run_triangles grid_points.
Proof.
  intro p.
  assert (Hcircle : forall a c1 c2 q : XY,
            ~ orient a c1 c2 == 0 ->
            squared_distance q (circumcentre a c1 c2)
            < squared_distance c2 (circumcentre a c1 c2) ->
            inside_circumcircle q a c1 c2).
  { intros a c1 c2 q Hnf Hin.
    exists (circumcentre a c1 c2), (squared_distance c2 (circumcentre a c1 c2)).
    split; [now apply circumcentre_circle | exact Hin]. }
  split; [vm_compute; reflexivity |].
  split; [apply Hcircle; [vm_compute; discriminate | vm_compute; reflexivity] |].
  split; [apply Hcircle; [vm_compute; discriminate | vm_compute; reflexivity] |].
  split; [apply Hcircle; [vm_compute; discriminate | vm_compute; reflexivity] |].
  split.
  - exists (circumcentre (p 4%nat) (p 5%nat) (p 6%nat)),
           (squared_distance (p 6%nat) (circumcentre (p 4%nat) (p 5%nat) (p 6%nat))).
    split; [apply circumcentre_circle; vm_compute; discriminate | vm_compute; reflexivity].
  - split; [vm_compute; reflexivity | split; [vm_compute; reflexivity |]].
    vm_compute. discriminate.
Qed.
